(** * tb2ud: the subtree converter (src/tb2ud/subtreeconverter.py)

    A shallow embedding of [SubTreeConverter] and of the part of the udapi
    node interface it drives, followed by the properties of the rewriter
    and of the artificial-node resolver.

    Conventions.
    - A sentence is a store of node records addressed by object identity
      (a [nat]); identity [root_id] is the technical root.
    - udapi keeps [root.descendants] in word order and numbers the nodes
      [1..n] in that order; [ord] is therefore read off the position in
      [descendants], and [children] is the word-ordered list of the nodes
      whose parent pointer is the given node.
    - A Python exception is a value of [Exn]; code that may raise returns
      [result].
    - [logging] calls append to the [log] of the sentence. *)

From Stdlib Require Import ZArith QArith String Ascii List Lia DecimalString.
From Stdlib Require DecimalNat.
From stdpp Require Import base option list gmap strings.

Open Scope string_scope.

(** ** Python values, exceptions *)

(** The values stored in a [misc] dictionary: strings read from the
    treebank and the booleans written by the shallow converter. *)
Inductive PyVal :=
| PStr (s : string)
| PBool (b : bool).

#[global] Instance PyVal_eq_dec : EqDecision PyVal.
Proof. solve_decision. Defined.

(** [bool(v)] *)
Definition truthy (v : PyVal) : bool :=
  match v with
  | PStr s => negb (bool_decide (s = ""))
  | PBool b => b
  end.

(** [str(v)] *)
Definition py_str (v : PyVal) : string :=
  match v with
  | PStr s => s
  | PBool true => "True"
  | PBool false => "False"
  end.

Inductive Exn :=
| IndexError
| KeyError
| ValueError
| AttributeError
| CycleError
| RecursionError.

#[global] Instance Exn_eq_dec : EqDecision Exn.
Proof. solve_decision. Defined.

Inductive result (A : Type) :=
| Ok (a : A)
| Raise (e : Exn).
Arguments Ok {A} a.
Arguments Raise {A} e.

#[global] Instance result_bind : MBind result := λ A B k r,
  match r with
  | Ok a => k a
  | Raise e => Raise e
  end.

(** [for x in xs: body], threading the state and stopping at the first
    exception. *)
Fixpoint for_each {A S} (body : A → S → result S) (xs : list A) (s : S)
  : result S :=
  match xs with
  | [] => Ok s
  | x :: xs' => s' ← body x s ; for_each body xs' s'
  end.

(** A list comprehension whose condition may raise. *)
Fixpoint filterM {A} (p : A → result bool) (xs : list A) : result (list A) :=
  match xs with
  | [] => Ok []
  | x :: xs' =>
      b ← p x ;
      r ← filterM p xs' ;
      Ok (if b : bool then x :: r else r)
  end.

(** ** Strings *)

(** [str(n)] for a non-negative integer. *)
Definition str_of_nat (n : nat) : string :=
  NilZero.string_of_uint (Nat.to_uint n).

(** [int(s)] for a string of decimal digits; [None] stands for the
    [ValueError] of [int]. *)
Definition int_of_str (s : string) : option nat :=
  match s with
  | "" => None
  | _ => Nat.of_uint <$> NilEmpty.uint_of_string s
  end.

Fixpoint is_prefix (p s : string) : bool :=
  match p, s with
  | "", _ => true
  | String a p', String b s' => bool_decide (a = b) && is_prefix p' s'
  | _, _ => false
  end.

Fixpoint rev_string (acc s : string) : string :=
  match s with
  | "" => acc
  | String a s' => rev_string (String a acc) s'
  end.

(** [s.split(sep)] for a non-empty separator: [skip] counts the
    characters of a matched separator still to be passed over, [cur] is
    the current piece, reversed. *)
Fixpoint split_go (sep : string) (skip : nat) (cur s : string) : list string :=
  match s with
  | "" => [rev_string "" cur]
  | String a s' =>
      match skip with
      | S k => split_go sep k cur s'
      | O =>
          if is_prefix sep s
          then rev_string "" cur :: split_go sep (String.length sep - 1) "" s'
          else split_go sep 0 (String a cur) s'
      end
  end.

Definition split (sep s : string) : list string := split_go sep 0 "" s.

(** ** udapi: the [misc] dictionary (a [DualDict]) *)

(** Reading a missing key yields the empty string; storing the empty
    string deletes the key. *)
Definition misc_get (m : gmap string PyVal) (k : string) : PyVal :=
  default (PStr "") (m !! k).

Definition misc_set (m : gmap string PyVal) (k : string) (v : PyVal)
  : gmap string PyVal :=
  if bool_decide (v = PStr "") then delete k m else <[k := v]> m.

(** ** udapi: nodes, empty nodes and the sentence *)

(** The governor of a secondary dependency: a node of the tree (the root
    included) or an empty node, named by its position in [empty_nodes]. *)
Inductive Ref :=
| RNode (n : nat)
| REmpty (i : nat).

#[global] Instance Ref_eq_dec : EqDecision Ref.
Proof. solve_decision. Defined.

Record Node := mkNode {
  form : string;
  lemma : string;
  upos : string;
  xpos : string;
  feats : string;
  deprel : string;
  misc : gmap string PyVal;
  deps : list (Ref * string);
  parent : option nat
}.

#[global] Instance Node_inhabited : Inhabited Node :=
  populate (mkNode "" "" "" "" "" "" ∅ [] None).

Record EmptyNode := mkEmpty {
  e_ord : Q;
  e_form : string;
  e_lemma : option string;
  e_upos : option string;
  e_xpos : option string;
  e_feats : option string;
  e_misc : gmap string PyVal;
  e_deps : list (Ref * string)
}.

Inductive Level := DEBUG | INFO | WARNING | ERROR.

Inductive Message :=
| NoRootCandidate (subtree len_ch : nat)
| NoCoordMembers (subtree : nat)
| NoAposMembers (subtree : nat)
| NoPNOM (subtree : nat)
| RemovingNode (subtree : nat)
| NoPromotionCandidates (subtree : nat)
| CreatingEmpty (form : string)
| DepsRootZero (empty : nat)
| WrongDeps (empty : nat)
| UnexpectedChildren (node : nat).

Record Root := mkRoot {
  nodes : gmap nat Node;
  descendants : list nat;
  empty_nodes : list EmptyNode;
  log : list (Level * Message)
}.

Definition root_id : nat := 0.

Definition node (t : Root) (n : nat) : Node := nodes t !!! n.

Definition set_node (t : Root) (n : nat) (nd : Node) : Root :=
  mkRoot (<[n := nd]> (nodes t)) (descendants t) (empty_nodes t) (log t).

Definition logging (lv : Level) (m : Message) (t : Root) : Root :=
  mkRoot (nodes t) (descendants t) (empty_nodes t) (log t ++ [(lv, m)]).

Definition with_parent (nd : Node) (p : option nat) : Node :=
  mkNode (form nd) (lemma nd) (upos nd) (xpos nd) (feats nd) (deprel nd)
         (misc nd) (deps nd) p.

Definition with_deprel (nd : Node) (d : string) : Node :=
  mkNode (form nd) (lemma nd) (upos nd) (xpos nd) (feats nd) d
         (misc nd) (deps nd) (parent nd).

Definition with_misc (nd : Node) (m : gmap string PyVal) : Node :=
  mkNode (form nd) (lemma nd) (upos nd) (xpos nd) (feats nd) (deprel nd)
         m (deps nd) (parent nd).

Definition with_deps (nd : Node) (d : list (Ref * string)) : Node :=
  mkNode (form nd) (lemma nd) (upos nd) (xpos nd) (feats nd) (deprel nd)
         (misc nd) d (parent nd).

(** [n.deprel = d] *)
Definition set_deprel (t : Root) (n : nat) (d : string) : Root :=
  set_node t n (with_deprel (node t n) d).

(** [n.misc[k]] and [n.misc[k] = v] *)
Definition get_misc (t : Root) (n : nat) (k : string) : PyVal :=
  misc_get (misc (node t n)) k.

Definition set_misc (t : Root) (n : nat) (k : string) (v : PyVal) : Root :=
  set_node t n (with_misc (node t n) (misc_set (misc (node t n)) k v)).

(** [n.deps.append({'parent': r, 'deprel': rel})] *)
Definition append_dep (t : Root) (n : nat) (r : Ref) (rel : string) : Root :=
  set_node t n (with_deps (node t n) (deps (node t n) ++ [(r, rel)])).

(** [n.parent] *)
Definition get_parent (t : Root) (n : nat) : option nat := parent (node t n).

(** [n.children]: a fresh list, in word order. *)
Definition children (t : Root) (n : nat) : list nat :=
  filter (λ c, get_parent t c = Some n) (descendants t).

(** [n.ord]: [0] for the root, the 1-based position for a token. *)
Fixpoint position (n : nat) (l : list nat) : option nat :=
  match l with
  | [] => None
  | x :: l' => if bool_decide (x = n) then Some 0 else S <$> position n l'
  end.

Definition ord (t : Root) (n : nat) : nat :=
  match position n (descendants t) with
  | Some i => S i
  | None => 0
  end.

(** [a.precedes(b)] *)
Definition precedes (t : Root) (a b : nat) : bool :=
  bool_decide (ord t a < ord t b).

(** [n.prev_node] for a token: the token before it, or the root. *)
Definition prev_node (t : Root) (n : nat) : option nat :=
  match ord t n with
  | 0 => None
  | 1 => Some root_id
  | S (S i) => descendants t !! i
  end.

(** [n.udeprel]: the relation up to the first colon. *)
Fixpoint before_colon (s : string) : string :=
  match s with
  | "" => ""
  | String a s' => if bool_decide (a = ":"%char) then "" else String a (before_colon s')
  end.

Definition udeprel (t : Root) (n : nat) : string :=
  before_colon (deprel (node t n)).

(** The climb of [Node.is_descendant_of]: follow the parent pointers from
    [c] until [target] or the top is met. [None] stands for a climb that
    does not end. *)
Fixpoint climb (t : Root) (fuel : nat) (c : option nat) (target : nat)
  : option bool :=
  match c with
  | None => Some false
  | Some x =>
      if bool_decide (x = target) then Some true
      else match fuel with
           | O => None
           | S f => climb t f (get_parent t x) target
           end
  end.

(** [self.is_descendant_of(target)] *)
Definition is_descendant_of (t : Root) (self target : nat) : option bool :=
  match children t target with
  | [] => Some false
  | _ => climb t (S (length (descendants t))) (get_parent t self) target
  end.

(** The setter of [Node.parent]: [n.parent = new_parent]. It refuses
    [None], the node itself, and a descendant of the node. *)
Definition set_parent (t : Root) (n : nat) (new_parent : option nat)
  : result Root :=
  if bool_decide (get_parent t n = new_parent) then Ok t
  else match new_parent with
       | None => Raise ValueError
       | Some p =>
           if bool_decide (n = p) then Raise CycleError
           else match (match children t n with
                       | [] => Some false
                       | _ => is_descendant_of t p n
                       end) with
                | None => Raise RecursionError
                | Some true => Raise CycleError
                | Some false =>
                    match get_parent t n with
                    | None => Raise ValueError
                    | Some _ => Ok (set_node t n (with_parent (node t n) (Some p)))
                    end
                end
       end.

Inductive RemoveChildren := Rehang | Warn.

(** Is [x] the node [a] or below it? *)
Definition in_subtree (t : Root) (a x : nat) : bool :=
  bool_decide (x = a)
  || default true (climb t (S (length (descendants t))) (get_parent t x) a).

(** The same empty node with another ordinal. *)
Definition with_ord (e : EmptyNode) (q : Q) : EmptyNode :=
  mkEmpty q (e_form e) (e_lemma e) (e_upos e) (e_xpos e) (e_feats e)
          (e_misc e) (e_deps e).

(** Does the token of ordinal [k] stand before the empty node of ordinal
    [q]? *)
Definition before_empty (k : nat) (q : Q) : bool :=
  negb (Qle_bool q (inject_Z (Z.of_nat k))).

(** An empty node once the tokens [gone] have left the sentence [t]:
    udapi renumbers the empty nodes with the tokens, so the ordinal of
    an empty node behind removed tokens loses one for each of them; an
    empty node with no removed token before it is left as it is. *)
Definition lower_empty (t : Root) (gone : list nat) (e : EmptyNode)
  : EmptyNode :=
  match List.length
          (filter (λ x, before_empty (ord t x) (e_ord e) = true) gone) with
  | O => e
  | S k => with_ord e (e_ord e - inject_Z (Z.of_nat (S k)))%Q
  end.

(** [n.remove(children='rehang')] hands every child of [n] to the parent
    of [n]; [n.remove(children='warn')] deletes the whole subtree of [n]
    and warns if [n] had children. In both cases the remaining tokens are
    renumbered, which the positional [ord] does by itself, and so are the
    empty nodes behind a removed token ([lower_empty]). Removing a
    node that is not in the tree raises [ValueError], as the underlying
    [list.remove] does. A removed node is no longer among [descendants],
    so it has no [children] here; udapi keeps the detached object, which
    the converter does not visit again as long as subtree roots come
    deepest first. *)
Definition remove (t : Root) (n : nat) (mode : RemoveChildren) : result Root :=
  if bool_decide (n ∈ descendants t) then
    match mode with
    | Rehang =>
        let t1 :=
          foldl (λ s c, set_node s c (with_parent (node s c) (get_parent t n)))
                t (children t n) in
        Ok (mkRoot (nodes t1) (filter (λ x, x ≠ n) (descendants t1))
                   (lower_empty t [n] <$> empty_nodes t1) (log t1))
    | Warn =>
        let t1 := match children t n with
                  | [] => t
                  | _ => logging WARNING (UnexpectedChildren n) t
                  end in
        Ok (mkRoot (nodes t1)
                   (filter (λ x, in_subtree t n x = false) (descendants t1))
                   (lower_empty t (filter (λ x, in_subtree t n x = true)
                                          (descendants t))
                      <$> empty_nodes t1)
                   (log t1))
    end
  else Raise ValueError.

(** [tree.create_empty_child(...)]: the new empty node goes to the end of
    [tree.empty_nodes]. *)
Definition create_empty_child (t : Root) (e : EmptyNode) : Root :=
  mkRoot (nodes t) (descendants t) (empty_nodes t ++ [e]) (log t).

Definition is_artificial (t : Root) (n : nat) : bool :=
  bool_decide (get_misc t n "NodeType" = PStr "Artificial").

(** ** Floats with a short decimal expansion

    The ordinal of an empty node is a Python float obtained by parsing
    ["<p>.<iter>"]. Such a float is read as the rational
    [p + iter / 10^(number of digits of iter)]; the comparison [==] of two
    of them is the equality of rationals. *)

Fixpoint ndigits_go (fuel n : nat) : nat :=
  match fuel with
  | O => 1
  | S f => if (n <? 10)%nat then 1 else S (ndigits_go f (n / 10))
  end.

(** [len(str(n))] *)
Definition ndigits (n : nat) : nat := ndigits_go n n.

(** [float(f'{p}.{iter}')] *)
Definition float_of_decimal (p iter : nat) : Q :=
  (inject_Z (Z.of_nat p) + (Z.of_nat iter # Pos.of_nat (10 ^ ndigits iter)))%Q.

Definition digit_char (d : Z) : ascii :=
  ascii_of_nat (48 + Z.to_nat d).

Fixpoint frac_digits (fuel : nat) (num den : Z) : string :=
  match fuel with
  | O => ""
  | S f =>
      if (num =? 0)%Z then ""
      else String (digit_char (10 * num / den))
                  (frac_digits f ((10 * num) mod den) den)
  end.

(** [str(x)] for a non-negative float with a short decimal expansion. *)
Definition str_of_float (x : Q) : string :=
  let ip := (Qnum x / Z.pos (Qden x))%Z in
  let fr := (Qnum x - ip * Z.pos (Qden x))%Z in
  str_of_nat (Z.to_nat ip) ++ "." ++
  (if (fr =? 0)%Z then "0" else frac_digits 17 fr (Z.pos (Qden x))).

(** [x.ord == k] for an empty node [x] and an integer [k]. *)
Definition float_eq_nat (x : Q) (k : nat) : bool :=
  Qeq_bool x (inject_Z (Z.of_nat k)).

(** ** SubTreeConverter *)

(** [if src.misc[k]: dst.misc[k] = src.misc[k]] *)
Definition pass_misc (k : string) (src dst : nat) (t : Root) : Root :=
  if truthy (get_misc t src k)
  then set_misc t dst k (get_misc t src k)
  else t.

(** [SubTreeConverter.redraw_subtree(new_head, current_head)] *)
Definition redraw_subtree (new_head current_head : nat) (t : Root)
  : result Root :=
  let subhead := get_parent t current_head in
  t ← set_parent t new_head subhead ;
  t ← set_parent t current_head (Some new_head) ;
  let t := pass_misc "AposMember" current_head new_head t in
  let t := pass_misc "CoordMember" current_head new_head t in
  for_each (λ c t,
              if bool_decide (udeprel t c ≠ "goeswith")
              then set_parent t c (Some new_head)
              else Ok t)
           (children t current_head) t.

(** The loop of [attach_right] over the right siblings. *)
Fixpoint attach_right_loop (element : nat) (attr : Root → nat → string)
  (val : string) (right_bros : list nat) (t : Root) : result Root :=
  match right_bros with
  | [] => Ok t
  | b :: bs =>
      if bool_decide (attr t b = val)
      then set_parent t element (Some b)
      else attach_right_loop element attr val bs t
  end.

(** [SubTreeConverter.attach_right(element, attr, val)] *)
Definition attach_right (element : nat) (attr : Root → nat → string)
  (val : string) (t : Root) : result Root :=
  match get_parent t element with
  | None => Raise AttributeError
  | Some h =>
      let right_bros :=
        filter (λ ch, precedes t ch element = false) (children t h) in
      attach_right_loop element attr val right_bros t
  end.

(** [SubTreeConverter.write_deps_in_misc(tree)] *)
Definition write_deps_in_misc (t : Root) : result Root :=
  for_each (λ n t,
              match get_parent t n with
              | None => Raise AttributeError
              | Some p =>
                  if is_artificial t n || is_artificial t p
                  then Ok (set_misc t n "art_deps"
                             (PStr (str_of_nat (ord t p) ++ "%:%"
                                    ++ deprel (node t n))))
                  else Ok t
              end)
           (descendants t) t.

(** [set_empty_ord(n, tree, iter)], local to [copy_to_empty]. [fuel]
    bounds the depth of the recursion. *)
Fixpoint set_empty_ord (fuel : nat) (n : nat) (t : Root) (iter : nat)
  : result Q :=
  let empty_ords := map e_ord (empty_nodes t) in
  match prev_node t n with
  | None => Raise AttributeError
  | Some prev =>
      let neword := float_of_decimal (ord t prev) iter in
      if existsb (Qeq_bool neword) empty_ords
      then match fuel with
           | O => Raise RecursionError
           | S f => set_empty_ord f n t (S iter)
           end
      else Ok neword
  end.

(** [x if x else None] *)
Definition or_none (s : string) : option string :=
  if bool_decide (s = "") then None else Some s.

(** [m.get(k)] of a dictionary (the [misc] of an artificial node), and
    the dictionary built for the [misc] of the empty node. *)
Definition empty_misc (m : gmap string PyVal) : gmap string PyVal :=
  misc_set (misc_set (misc_set (misc_set (misc_set ∅
    "original_dep" (misc_get m "original_dep"))
    "AposMember" (misc_get m "AposMember"))
    "CoordMember" (misc_get m "CoordMember"))
    "art_deps" (misc_get m "art_deps"))
    "original_ord" (PStr (py_str (misc_get m "original_ord"))).

Section Converter.

(** The classifier of [tb2ud.utils.constructions], the scheduler
    [get_subtree_depth] and the interpreter's recursion limit are taken as
    given. *)
Variable is_prague_bridge_subtree : Root → nat → bool.
Variable is_coord_subtree : Root → nat → bool.
Variable is_apos_subtree : Root → nat → bool.
Variable is_copula_subtree : Root → nat → bool.
Variable is_ellipsis_subtree : Root → nat → bool.
Variable get_subtree_depth : Root → list (nat * nat).
Variable recursion_limit : nat.

(** The body of the loop of [copy_to_empty] for one artificial node. *)
Definition copy_one (art : nat) (t : Root) : result Root :=
  let lemma := or_none (lemma (node t art)) in
  let upos := or_none (upos (node t art)) in
  let xpos := or_none (xpos (node t art)) in
  let feats := or_none (feats (node t art)) in
  ord_id ← set_empty_ord recursion_limit art t 1 ;
  let form := "E" ++ str_of_float ord_id in
  let t := create_empty_child t
             (mkEmpty ord_id form lemma upos xpos feats
                      (empty_misc (misc (node t art))) []) in
  let t := logging DEBUG (CreatingEmpty form) t in
  remove t art Rehang.

(** [SubTreeConverter.copy_to_empty(artificials, tree)] *)
Definition copy_to_empty (artificials : list nat) (t : Root) : result Root :=
  for_each copy_one artificials t.

(** The condition of the candidate filter of the bridge branch; [c.xpos[0]]
    raises on an empty tag. *)
Definition bridge_candidate (t : Root) (c : nat) : result bool :=
  if is_artificial t c then Ok true
  else match xpos (node t c) with
       | "" => Raise IndexError
       | String a _ =>
           Ok (bool_decide (a ∈ ["a"; "p"; "v"; "n"; "t"; "l"; "m"]%char)
               && bool_decide (get_misc t c "original_dep"
                               ∉ [PStr "AuxY"; PStr "AuxZ"]))
       end.

Definition rewrite_bridge (subtree : nat) (t : Root) : result Root :=
  ch ← filterM (bridge_candidate t) (children t subtree) ;
  match ch with
  | [newh] => redraw_subtree newh subtree t
  | _ => Ok (logging WARNING (NoRootCandidate subtree (length ch)) t)
  end.

Definition rewrite_coord (subtree : nat) (t : Root) : result Root :=
  let members :=
    filter (λ c, get_misc t c "CoordMember" = PBool true)
           (children t subtree) in
  match members with
  | [] => Ok (logging ERROR (NoCoordMembers subtree) t)
  | first :: members =>
      t ← set_parent t first (get_parent t subtree) ;
      t ← for_each (λ m t, t ← set_parent t m (Some first) ;
                           Ok (set_deprel t m "conj")) members t ;
      t ← set_parent t subtree (Some first) ;
      t ← for_each (λ c t, t ← set_parent t c (Some first) ;
                           Ok (if bool_decide (get_misc t c "original_dep" = PStr "AuxY")
                                  && bool_decide (upos (node t c) = "CCONJ")
                               then set_deprel t c "cc" else t))
                   (children t subtree) t ;
      t ← (if is_artificial t subtree then remove t subtree Warn else Ok t) ;
      for_each (λ c t,
                  if (bool_decide (udeprel t c = "cc")
                      || bool_decide (udeprel t c = "punct"))
                     && bool_decide (precedes t c first = false)
                  then attach_right c udeprel "conj" t
                  else Ok t)
               (children t first) t
  end.

Definition rewrite_apos (subtree : nat) (t : Root) : result Root :=
  let members :=
    filter (λ c, get_misc t c "AposMember" = PBool true)
           (children t subtree) in
  match members with
  | [] => Ok (logging ERROR (NoAposMembers subtree) t)
  | first :: members =>
      t ← set_parent t first (get_parent t subtree) ;
      t ← for_each (λ m t, t ← set_parent t m (Some first) ;
                           Ok (set_deprel t m "apos")) members t ;
      t ← for_each (λ c t, set_parent t c (Some first))
                   (children t subtree) t ;
      if is_artificial t subtree then remove t subtree Warn
      else
        t ← set_parent t subtree (Some first) ;
        Ok (set_deprel t subtree
              (if bool_decide (upos (node t subtree) = "PUNCT") then "punct"
               else deprel (node t subtree)))
  end.

Definition rewrite_copula (subtree : nat) (t : Root) : result Root :=
  match filter (λ c, get_misc t c "original_dep" = PStr "PNOM")
               (children t subtree) with
  | [] => Ok (logging ERROR (NoPNOM subtree) t)
  | pnom :: _ =>
      let t := set_deprel t pnom (deprel (node t subtree)) in
      t ← redraw_subtree pnom subtree t ;
      if is_artificial t subtree then
        t ← remove t subtree Warn ;
        Ok (logging INFO (RemovingNode subtree) t)
      else
        t ← set_parent t subtree (Some pnom) ;
        Ok (set_deprel t subtree "cop")
  end.

Definition order_list : list string :=
  ["nsubj"; "obj"; "iobj"; "obl"; "advmod"; "csubj"; "xcomp"; "ccomp";
   "advcl"; "dislocated"; "vocative"; "nmod"].

(** Modelled from the spec: [tb2ud.utils.get_first_in_priority] is not
    among the sources. Following the specification of the ellipsis rule,
    it scans the labels of the priority list from the highest priority
    down and yields the first node, in the order given, whose
    target-schema relation label is the label at hand; it yields nothing
    when no node bears a label of the list. *)
Fixpoint get_first_in_priority (t : Root) (chs : list nat)
  (priority : list string) : option nat :=
  match priority with
  | [] => None
  | lab :: rest =>
      match List.find (λ c, bool_decide (deprel (node t c) = lab)) chs with
      | Some c => Some c
      | None => get_first_in_priority t chs rest
      end
  end.

Definition rewrite_ellipsis (subtree : nat) (t : Root) : result Root :=
  let chs := children t subtree in
  match get_first_in_priority t chs order_list with
  | Some newhead =>
      let t := set_deprel t newhead (deprel (node t subtree)) in
      redraw_subtree newhead subtree t
  | None => Ok (logging ERROR (NoPromotionCandidates subtree) t)
  end.

(** The body of the main loop of [process_tree]. *)
Definition process_subtree (subtree : nat) (t : Root) : result Root :=
  if is_prague_bridge_subtree t subtree then rewrite_bridge subtree t
  else if is_coord_subtree t subtree then rewrite_coord subtree t
  else if is_apos_subtree t subtree then rewrite_apos subtree t
  else if is_copula_subtree t subtree then rewrite_copula subtree t
  else if is_ellipsis_subtree t subtree then rewrite_ellipsis subtree t
  else Ok t.

Definition set_empty (t : Root) (i : nat) (e : EmptyNode) : Root :=
  mkRoot (nodes t) (descendants t) (<[i := e]> (empty_nodes t)) (log t).

Definition append_empty_dep (e : EmptyNode) (r : Ref) (rel : string)
  : EmptyNode :=
  mkEmpty (e_ord e) (e_form e) (e_lemma e) (e_upos e) (e_xpos e) (e_feats e)
          (e_misc e) (e_deps e ++ [(r, rel)]).

(** [{str(e.misc['original_ord']): e for e in tree.empty_nodes}] *)
Definition art_mapping_of (es : list EmptyNode) : gmap string nat :=
  foldl (λ m ie, <[py_str (misc_get (e_misc ie.2) "original_ord") := ie.1]> m)
        ∅ (imap pair es).

(** [[n for n in tree.descendants + tree.empty_nodes if n.ord == k]] *)
Definition nodes_with_ord (t : Root) (k : nat) : list Ref :=
  (RNode <$> filter (λ n, ord t n = k) (descendants t))
  ++ (REmpty <$> filter (λ i, float_eq_nat
                                (default 0%Q (e_ord <$> empty_nodes t !! i)) k
                              = true)
                        (seq 0 (length (empty_nodes t)))).

(** The body of the loop over the empty nodes in the post-pass; the
    empty node is named by its position [i]. *)
Definition resolve_empty (art_mapping : gmap string nat) (i : nat)
  (t : Root) : result Root :=
  match empty_nodes t !! i with
  | None => Raise IndexError
  | Some e =>
      match misc_get (e_misc e) "art_deps" with
      | PBool true => Raise AttributeError
      | PStr s =>
          if truthy (PStr s) then
            match split "%:%" s with
            | [dep; rel] =>
                empty_parent ←
                  match art_mapping !! dep with
                  | Some j => Ok (REmpty j, t)
                  | None =>
                      if bool_decide (dep = "0")
                      then Ok (RNode root_id,
                               logging DEBUG (DepsRootZero i) t)
                      else match int_of_str dep with
                           | None => Raise ValueError
                           | Some k =>
                               match nodes_with_ord t k with
                               | [] => Raise IndexError
                               | r :: _ => Ok (r, t)
                               end
                           end
                  end ;
                Ok (set_empty empty_parent.2 i
                      (append_empty_dep e empty_parent.1 rel))
            | _ => Raise ValueError
            end
          else Ok (logging ERROR (WrongDeps i) t)
      | PBool false => Ok (logging ERROR (WrongDeps i) t)
      end
  end.

(** The body of the loop over the ordinary nodes in the post-pass. *)
Definition resolve_node (art_mapping : gmap string nat) (n : nat)
  (t : Root) : result Root :=
  match get_misc t n "art_deps" with
  | PBool true => Raise AttributeError
  | PStr s =>
      if truthy (PStr s) then
        match split ":" s with
        | [dep_head; dep_rel] =>
            match art_mapping !! dep_head with
            | Some j => Ok (append_dep t n (REmpty j) dep_rel)
            | None => Ok t
            end
        | _ => Raise ValueError
        end
      else Ok t
  | PBool false => Ok t
  end.

(** The enhanced part of [process_tree] that runs after the rewriting. *)
Definition resolve (t : Root) : result Root :=
  let remaining_arts := filter (λ n, is_artificial t n = true) (descendants t) in
  t ← copy_to_empty remaining_arts t ;
  let art_mapping := art_mapping_of (empty_nodes t) in
  match remaining_arts with
  | [] => Ok t
  | _ =>
      t ← for_each (resolve_empty art_mapping)
                   (seq 0 (length (empty_nodes t))) t ;
      for_each (resolve_node art_mapping) (descendants t) t
  end.

(** [SubTreeConverter(with_enhanced).process_tree(tree)] *)
Definition process_tree (with_enhanced : bool) (t : Root) : result Root :=
  let subtrees := get_subtree_depth t in
  let arts := filter (λ n, is_artificial t n = true) (descendants t) in
  t ← (if with_enhanced then
         t ← write_deps_in_misc t ;
         Ok (foldl (λ t a, set_misc t a "original_ord"
                             (PStr (str_of_nat (ord t a)))) t arts)
       else Ok t) ;
  t ← for_each (λ sd t, process_subtree sd.1 t) subtrees t ;
  if with_enhanced then resolve t else Ok t.

End Converter.

(** * Properties *)

Open Scope list_scope.
Open Scope nat_scope.

(** ** The store *)

Lemma node_set_node t n nd x :
  node (set_node t n nd) x = if decide (x = n) then nd else node t x.
Proof.
  unfold node, set_node; simpl. destruct (decide (x = n)) as [->|Hne].
  - apply lookup_total_insert_eq.
  - apply lookup_total_insert_ne. congruence.
Qed.

Lemma get_parent_set_node t n nd x :
  get_parent (set_node t n nd) x
  = if decide (x = n) then parent nd else get_parent t x.
Proof. unfold get_parent. rewrite node_set_node. by destruct (decide (x = n)). Qed.

(** Two sentences with the same tokens and the same parent pointers. *)
Definition same_shape (t t' : Root) : Prop :=
  descendants t' = descendants t ∧ ∀ x, get_parent t' x = get_parent t x.

Lemma same_shape_refl t : same_shape t t.
Proof. by split. Qed.

Lemma same_shape_trans t1 t2 t3 :
  same_shape t1 t2 → same_shape t2 t3 → same_shape t1 t3.
Proof.
  intros [Hd1 Hp1] [Hd2 Hp2]. split; [congruence|].
  intros x. by rewrite Hp2, Hp1.
Qed.

Lemma same_shape_set_node t n nd :
  parent nd = get_parent t n → same_shape t (set_node t n nd).
Proof.
  intros Hp. split; [done|]. intros x. rewrite get_parent_set_node.
  destruct (decide (x = n)); congruence.
Qed.

Lemma same_shape_set_deprel t n d : same_shape t (set_deprel t n d).
Proof. by apply same_shape_set_node. Qed.

Lemma same_shape_set_misc t n k v : same_shape t (set_misc t n k v).
Proof. by apply same_shape_set_node. Qed.

Lemma same_shape_append_dep t n r rel : same_shape t (append_dep t n r rel).
Proof. by apply same_shape_set_node. Qed.

Lemma same_shape_logging lv m t : same_shape t (logging lv m t).
Proof. by split. Qed.

Lemma same_shape_create_empty_child t e : same_shape t (create_empty_child t e).
Proof. by split. Qed.

Lemma same_shape_set_empty t i e : same_shape t (set_empty t i e).
Proof. by split. Qed.

Lemma filter_ext_elem {A} (P Q : A → Prop) `{!∀ x, Decision (P x)}
  `{!∀ x, Decision (Q x)} (l : list A) :
  (∀ x, x ∈ l → P x ↔ Q x) → filter P l = filter Q l.
Proof.
  induction l as [|a l IH]; intros Hext; [done|].
  rewrite !filter_cons. rewrite IH by (intros; apply Hext; by right).
  assert (P a ↔ Q a) as Ha by (apply Hext; by left).
  destruct (decide (P a)), (decide (Q a)); tauto.
Qed.

Lemma same_shape_children t t' n :
  same_shape t t' → children t' n = children t n.
Proof.
  intros [Hd Hp]. unfold children. rewrite Hd.
  apply filter_ext_elem. intros x _. by rewrite Hp.
Qed.

Lemma same_shape_ord t t' n : same_shape t t' → ord t' n = ord t n.
Proof. intros [Hd _]. unfold ord. by rewrite Hd. Qed.

Lemma deprel_set_deprel t n d x :
  deprel (node (set_deprel t n d) x) = if decide (x = n) then d else deprel (node t x).
Proof. unfold set_deprel. rewrite node_set_node. by destruct (decide (x = n)). Qed.

Lemma deprel_set_misc t n k v x :
  deprel (node (set_misc t n k v) x) = deprel (node t x).
Proof. unfold set_misc. rewrite node_set_node. by destruct (decide (x = n)) as [->|]. Qed.

Lemma elem_of_children t n c :
  c ∈ children t n ↔ c ∈ descendants t ∧ get_parent t c = Some n.
Proof. unfold children. rewrite list_elem_of_filter. tauto. Qed.

(** ** Results and loops *)

Lemma bind_Ok {A B} (r : result A) (k : A → result B) b :
  r ≫= k = Ok b ↔ ∃ a, r = Ok a ∧ k a = Ok b.
Proof.
  destruct r as [a|e]; simpl.
  - split; [eauto|]. by intros (? & [= <-] & ?).
  - split; [done|]. by intros (? & ? & ?).
Qed.

Lemma for_each_inv {A S} (P : S → Prop) (body : A → S → result S) xs s s' :
  (∀ x a b, x ∈ xs → P a → body x a = Ok b → P b) →
  P s → for_each body xs s = Ok s' → P s'.
Proof.
  revert s. induction xs as [|x xs IH]; intros s Hstep Hs Hrun; simpl in Hrun.
  - by injection Hrun as <-.
  - apply bind_Ok in Hrun as (s1 & H1 & H2).
    apply (IH s1); [|by eapply Hstep; [left| |]|done].
    intros y a b Hy. apply Hstep. by right.
Qed.

(** ** Parent chains *)

(** [chain t n l]: [l] lists the successive governors of [n], up to and
    including the technical root. *)
Inductive chain (t : Root) : nat → list nat → Prop :=
| chain_root : chain t root_id []
| chain_step n p l :
    get_parent t n = Some p → chain t p l → chain t n (p :: l).

Definition live (t : Root) (x : nat) : Prop :=
  x = root_id ∨ x ∈ descendants t.

(** The invariant of the tree model: the tokens are distinct, the
    technical root is not a token and has no parent, and the governors of
    every token are nodes of the sentence and lead to the root. *)
Record tree_ok (t : Root) : Prop := {
  ok_nodup : NoDup (descendants t);
  ok_root : root_id ∉ descendants t;
  ok_root_parent : get_parent t root_id = None;
  ok_chain : ∀ n, n ∈ descendants t →
             ∃ l, chain t n l ∧ Forall (live t) l
}.

Section Chains.
Variable t : Root.
Hypothesis Hroot : get_parent t root_id = None.

Lemma chain_det n l l' : chain t n l → chain t n l' → l = l'.
Proof.
  intros H. revert l'. induction H as [|n p l Hp _ IH]; intros l' H'.
  - inversion H' as [|? ? ? Hp' ?]; [done|]. fold root_id in Hp'. congruence.
  - inversion H' as [Heq|? p' l0 Hp' Hc]; subst.
    + fold root_id in Hp. congruence.
    + assert (p' = p) as -> by congruence. f_equal. by apply IH.
Qed.

Lemma chain_split n l x :
  chain t n l → x ∈ l → ∃ l1 l2, l = l1 ++ x :: l2 ∧ chain t x l2.
Proof.
  induction 1 as [|n p l Hp Hc IH]; intros Hx.
  - by apply elem_of_nil in Hx.
  - destruct (decide (x = p)) as [->|Hne].
    + by exists [], l.
    + apply elem_of_cons in Hx as [?|Hx]; [done|].
      destruct (IH Hx) as (l1 & l2 & -> & Hc2). by exists (p :: l1), l2.
Qed.

Lemma chain_not_in n l : chain t n l → n ∉ l.
Proof.
  intros Hc Hin. destruct (chain_split _ _ _ Hc Hin) as (l1 & l2 & Heq & Hc2).
  pose proof (chain_det _ _ _ Hc Hc2) as Hl. subst l.
  apply (f_equal length) in Hl. rewrite length_app in Hl. simpl in Hl. lia.
Qed.

Lemma chain_NoDup n l : chain t n l → NoDup (n :: l).
Proof.
  intros Hc. apply NoDup_cons. split; [by apply chain_not_in|].
  induction Hc as [|n p l Hp Hc IH]; [apply NoDup_nil_2|].
  apply NoDup_cons. split; [by apply chain_not_in|done].
Qed.

Lemma chain_governed n l x :
  chain t n l → x ∈ l → ∃ y, y ∈ n :: l ∧ get_parent t y = Some x.
Proof.
  induction 1 as [|n p l Hp Hc IH]; intros Hx.
  - by apply elem_of_nil in Hx.
  - apply elem_of_cons in Hx as [->|Hx].
    + exists n. split; [left|done].
    + destruct (IH Hx) as (y & Hy & Hpy). exists y. split; [by right|done].
Qed.

(** With enough fuel the climb decides membership in the chain. *)
Lemma climb_chain fuel x l target :
  chain t x l → length l < fuel →
  climb t fuel (Some x) target = Some (bool_decide (target ∈ x :: l)).
Proof.
  intros Hc. revert fuel.
  induction Hc as [|n p l Hp Hc IH]; intros [|fuel] Hf;
    try (simpl in Hf; lia); cbn [climb].
  - rewrite Hroot. replace (climb t fuel None target) with (Some false)
      by (by destruct fuel).
    destruct (decide (root_id = target)) as [<-|Hx].
    + rewrite !bool_decide_eq_true_2; [done|apply elem_of_cons; by left|done].
    + rewrite !bool_decide_eq_false_2; [done| |done].
      intros [?|?%elem_of_nil]%elem_of_cons; [|done]. by subst.
  - rewrite Hp. destruct (decide (n = target)) as [<-|Hx].
    + rewrite !bool_decide_eq_true_2; [done|apply elem_of_cons; by left|done].
    + rewrite (bool_decide_eq_false_2 (n = target)) by done.
      rewrite IH by (simpl in Hf; lia). f_equal.
      apply bool_decide_ext. rewrite (elem_of_cons (p :: l)).
      split; [by right|]. by intros [?|?].
Qed.

End Chains.

Lemma chain_same_shape t t' n l : same_shape t t' → chain t n l → chain t' n l.
Proof.
  intros [_ Hp]. induction 1 as [|n p l Hn _ IH]; [constructor|].
  apply chain_step; [by rewrite Hp|done].
Qed.

Lemma live_same_shape t t' x : same_shape t t' → live t x → live t' x.
Proof. intros [Hd _]. unfold live. by rewrite Hd. Qed.

Lemma tree_ok_same_shape t t' : same_shape t t' → tree_ok t → tree_ok t'.
Proof.
  intros Hs [H1 H2 H3 H4]. pose proof Hs as [Hd Hp]. split.
  - by rewrite Hd.
  - by rewrite Hd.
  - by rewrite Hp.
  - intros n Hn. rewrite Hd in Hn. destruct (H4 n Hn) as (l & Hc & Hl).
    exists l. split; [by eapply chain_same_shape|].
    eapply Forall_impl; [done|]. intros x. by apply live_same_shape.
Qed.

(** Two sentences whose nodes differ at most in their parent pointers. *)
Definition same_labels (t t' : Root) : Prop :=
  ∀ x, with_parent (node t' x) None = with_parent (node t x) None.

Lemma same_labels_refl t : same_labels t t.
Proof. by intros x. Qed.

Lemma same_labels_trans t1 t2 t3 :
  same_labels t1 t2 → same_labels t2 t3 → same_labels t1 t3.
Proof. intros H1 H2 x. by rewrite H2, H1. Qed.

Lemma same_labels_deprel t t' x :
  same_labels t t' → deprel (node t' x) = deprel (node t x).
Proof. intros H. apply (f_equal deprel (H x)). Qed.

Lemma same_labels_misc t t' x k :
  same_labels t t' → get_misc t' x k = get_misc t x k.
Proof. intros H. unfold get_misc. f_equal. apply (f_equal misc (H x)). Qed.

Lemma same_labels_udeprel t t' x :
  same_labels t t' → udeprel t' x = udeprel t x.
Proof. intros H. unfold udeprel. by rewrite (same_labels_deprel _ _ _ H). Qed.

(** [reparented t n p t']: [t'] is [t] with the parent pointer of [n] set
    to [p], and nothing else changed. *)
Definition reparented (t : Root) (n p : nat) (t' : Root) : Prop :=
  descendants t' = descendants t
  ∧ empty_nodes t' = empty_nodes t
  ∧ log t' = log t
  ∧ (∀ x, get_parent t' x = if decide (x = n) then Some p else get_parent t x)
  ∧ same_labels t t'.

Lemma reparented_set_node t n p :
  reparented t n p (set_node t n (with_parent (node t n) (Some p))).
Proof.
  repeat split; try done.
  - intros x. by rewrite get_parent_set_node.
  - intros x. rewrite node_set_node. by destruct (decide (x = n)) as [->|].
Qed.

Lemma reparented_id t n p : get_parent t n = Some p → reparented t n p t.
Proof.
  intros Hp. repeat split; try done.
  intros x. destruct (decide (x = n)); congruence.
Qed.

(** What a successful assignment [n.parent = po] has done. *)
Lemma set_parent_Ok t n po t' :
  set_parent t n po = Ok t' →
  (t' = t ∧ get_parent t n = po)
  ∨ ∃ p, po = Some p ∧ n ≠ p ∧ is_Some (get_parent t n)
         ∧ is_descendant_of t p n ≠ Some true
         ∧ (children t n = [] ∨ is_descendant_of t p n = Some false)
         ∧ t' = set_node t n (with_parent (node t n) (Some p)).
Proof.
  unfold set_parent. case_bool_decide as Hsame.
  { intros [= <-]. by left. }
  destruct po as [p|]; [|done]. case_bool_decide as Hnp; [done|].
  intros H. right. exists p.
  destruct (children t n) as [|c cs] eqn:Hch.
  - destruct (get_parent t n) eqn:Hg; [|done]. injection H as <-.
    repeat split; eauto. unfold is_descendant_of. by rewrite Hch.
  - destruct (is_descendant_of t p n) as [[]|] eqn:Hd; try done.
    destruct (get_parent t n) eqn:Hg; [|done]. injection H as <-.
    repeat split; eauto.
Qed.

Lemma set_parent_reparented t n p t' :
  set_parent t n (Some p) = Ok t' → reparented t n p t'.
Proof.
  intros [[-> Hp]|(p' & [= <-] & _ & _ & _ & _ & ->)]%set_parent_Ok.
  - by apply reparented_id.
  - apply reparented_set_node.
Qed.

Lemma set_parent_descendants t n po t' :
  set_parent t n po = Ok t' → descendants t' = descendants t.
Proof.
  intros [[-> Hp]|(p' & _ & _ & _ & _ & _ & ->)]%set_parent_Ok; done.
Qed.

Section TreeOk.
Variable t : Root.
Hypothesis Hok : tree_ok t.

Lemma live_chain x : live t x → ∃ l, chain t x l ∧ Forall (live t) l.
Proof.
  intros [->|Hx]; [|by apply ok_chain].
  exists []. split; [constructor|done].
Qed.

Lemma parent_live n :
  n ∈ descendants t → ∃ p, get_parent t n = Some p ∧ live t p.
Proof.
  intros Hn. destruct (ok_chain _ Hok n Hn) as (l & Hc & Hl).
  inversion Hc as [Heq|? p l' Hp Hc']; subst.
  - by destruct (ok_root _ Hok).
  - exists p. split; [done|]. by apply Forall_cons in Hl as [? _].
Qed.

Lemma chain_live x l : live t x → chain t x l → Forall (live t) l.
Proof.
  intros Hx Hc. destruct (live_chain x Hx) as (l' & Hc' & Hl).
  by rewrite (chain_det t (ok_root_parent _ Hok) _ _ _ Hc Hc').
Qed.

Lemma root_chain l : chain t root_id l → l = [].
Proof.
  intros Hc. apply (chain_det t (ok_root_parent _ Hok) _ _ _ Hc). constructor.
Qed.

Lemma live_with_parent y p : live t y → get_parent t y = Some p → y ∈ descendants t.
Proof.
  intros [->|Hy] Hp; [|done]. rewrite (ok_root_parent _ Hok) in Hp. done.
Qed.

Lemma chain_length x l :
  live t x → chain t x l → List.length l ≤ List.length (descendants t).
Proof.
  intros Hx Hc. pose proof (chain_live _ _ Hx Hc) as Hl.
  pose proof (chain_NoDup t (ok_root_parent _ Hok) _ _ Hc) as Hnd.
  assert (List.length (x :: l) ≤ List.length (root_id :: descendants t)) as Hlen.
  { apply submseteq_length, NoDup_submseteq; [done|].
    intros y [->|Hy]%elem_of_cons.
    - destruct Hx as [->|Hx]; [left|by right].
    - rewrite Forall_forall in Hl. destruct (Hl y Hy) as [->|?]; [left|by right]. }
  simpl in Hlen. lia.
Qed.

Lemma climb_ok x l target :
  live t x → chain t x l →
  climb t (S (length (descendants t))) (Some x) target
  = Some (bool_decide (target ∈ x :: l)).
Proof.
  intros Hx Hc. apply climb_chain; [apply Hok|done|].
  pose proof (chain_length _ _ Hx Hc). lia.
Qed.

(** On a well-formed tree [self.is_descendant_of(target)] tells whether
    [target] is among the governors of [self]. *)
Lemma is_descendant_of_ok self target l :
  live t self → chain t self l →
  is_descendant_of t self target = Some (bool_decide (target ∈ l)).
Proof.
  intros Hs Hc. unfold is_descendant_of.
  destruct (children t target) as [|c cs] eqn:Hch.
  - f_equal. symmetry. apply bool_decide_eq_false_2. intros Hin.
    destruct (chain_governed _ _ _ _ Hc Hin) as (y & Hy & Hpy).
    assert (live t y) as Hly.
    { apply elem_of_cons in Hy as [->|Hy]; [done|].
      pose proof (chain_live _ _ Hs Hc) as Hl. rewrite Forall_forall in Hl. auto. }
    assert (y ∈ children t target) as Hyc
      by (apply elem_of_children; eauto using live_with_parent).
    rewrite Hch in Hyc. by apply elem_of_nil in Hyc.
  - inversion Hc as [Heq|? p l' Hp Hc']; subst.
    + fold root_id. by rewrite (ok_root_parent _ Hok).
    + rewrite Hp. apply climb_ok; [|done].
      pose proof (chain_live _ _ Hs Hc) as Hl. by apply Forall_cons in Hl as [? _].
Qed.

End TreeOk.

(** ** Re-attaching one node *)

Section Reparent.
Variables (t t' : Root) (n p : nat) (lp : list nat).
Hypothesis Hre : reparented t n p t'.
Hypothesis Hp : chain t p lp.
Hypothesis Hn : n ∉ p :: lp.

Lemma chain_reparented_avoid x l :
  chain t x l → n ∉ x :: l → chain t' x l.
Proof.
  destruct Hre as (_ & _ & _ & Hpar & _).
  induction 1 as [|x q l Hq Hc IH]; intros Hx; [constructor|].
  apply not_elem_of_cons in Hx as [Hxn Hx]. apply chain_step; [|by apply IH].
  rewrite Hpar. by destruct (decide (x = n)).
Qed.

Lemma chain_reparented_self : chain t' n (p :: lp).
Proof.
  apply chain_step; [|by apply chain_reparented_avoid].
  destruct Hre as (_ & _ & _ & Hpar & _). rewrite Hpar.
  by destruct (decide (n = n)).
Qed.

Lemma chain_reparented x l :
  chain t x l →
  ∃ l', chain t' x l' ∧ (∀ y, y ∈ l' → y ∈ l ∨ y ∈ p :: lp).
Proof.
  induction 1 as [|x q l Hq Hc IH].
  - exists []. split; [constructor|]. by intros y ?%elem_of_nil.
  - destruct (decide (x = n)) as [->|Hxn].
    + exists (p :: lp). split; [apply chain_reparented_self|]. by right.
    + destruct IH as (l' & Hc' & Hl'). exists (q :: l'). split.
      * apply chain_step; [|done].
        destruct Hre as (_ & _ & _ & Hpar & _). rewrite Hpar.
        by destruct (decide (x = n)).
      * intros y [->|Hy]%elem_of_cons; [left; left|].
        destruct (Hl' y Hy); [left; by right|by right].
Qed.

Lemma tree_ok_reparented :
  tree_ok t → n ∈ descendants t → live t p → tree_ok t'.
Proof.
  intros Hok Hnd Hlp. destruct Hre as (Hd & _ & _ & Hpar & _). split.
  - rewrite Hd. apply Hok.
  - rewrite Hd. apply Hok.
  - rewrite Hpar. destruct (decide (root_id = n)) as [<-|]; [|apply Hok].
    by destruct (ok_root _ Hok).
  - intros x Hx. rewrite Hd in Hx.
    destruct (ok_chain _ Hok x Hx) as (l & Hc & Hl).
    destruct (chain_reparented x l Hc) as (l' & Hc' & Hl').
    exists l'. split; [done|]. apply Forall_forall. intros y Hy.
    unfold live. rewrite Hd. rewrite Forall_forall in Hl.
    destruct (Hl' y Hy) as [Hyl|Hyp]; [by apply Hl|].
    apply elem_of_cons in Hyp as [->|Hyp]; [done|].
    pose proof (chain_live t Hok p lp Hlp Hp) as Hlive.
    rewrite Forall_forall in Hlive. by apply Hlive.
Qed.

End Reparent.

(** A completed assignment of a parent leaves a well-formed tree. *)
Lemma set_parent_tree_ok t n po t' :
  tree_ok t → (∀ p, po = Some p → live t p) →
  set_parent t n po = Ok t' → tree_ok t'.
Proof.
  intros Hok Hlive Hset. pose proof Hset as Hset'.
  apply set_parent_Ok in Hset
    as [[-> _]|(p & -> & Hnp & [g Hg] & Hnd & _ & ->)]; [done|].
  assert (live t p) as Hlp by by apply Hlive.
  destruct (live_chain t Hok p Hlp) as (lp & Hc & Hl).
  rewrite (is_descendant_of_ok t Hok p n lp Hlp Hc) in Hnd.
  assert (n ∉ lp) as Hnl.
  { intros Hin. apply Hnd. by rewrite bool_decide_eq_true_2. }
  destruct (decide (n ∈ descendants t)) as [Hin|Hout].
  - eapply (tree_ok_reparented t _ n p lp); eauto using reparented_set_node.
    by apply not_elem_of_cons.
  - assert (n ≠ root_id) as Hnr.
    { intros ->. rewrite (ok_root_parent _ Hok) in Hg. done. }
    destruct Hok as [H1 H2 H3 H4]. split; simpl; try done.
    + rewrite get_parent_set_node. by destruct (decide (root_id = n)).
    + intros x Hx. destruct (H4 x Hx) as (l & Hcx & Hlx). exists l.
      split; [|done].
      eapply (chain_reparented_avoid t _ n p); [apply reparented_set_node|done|].
      intros [->|Hnx]%elem_of_cons; [done|].
      rewrite Forall_forall in Hlx. destruct (Hlx n Hnx); done.
Qed.

(** On a well-formed tree the assignment goes through as soon as the new
    parent is a node of the sentence that is not below the node. *)
Lemma set_parent_succeeds t n p lp :
  tree_ok t → n ∈ descendants t → live t p → chain t p lp → n ∉ p :: lp →
  ∃ t', set_parent t n (Some p) = Ok t' ∧ reparented t n p t'
        ∧ tree_ok t' ∧ chain t' n (p :: lp).
Proof.
  intros Hok Hn Hlp Hc Hnot.
  assert (∃ t', set_parent t n (Some p) = Ok t') as [t' Hset].
  { unfold set_parent. case_bool_decide; [eauto|].
    apply not_elem_of_cons in Hnot as [Hnp Hnl].
    rewrite bool_decide_eq_false_2 by done.
    rewrite (is_descendant_of_ok t Hok p n lp Hlp Hc).
    rewrite bool_decide_eq_false_2 by done.
    destruct (parent_live t Hok n Hn) as (g & -> & _).
    destruct (children t n); eauto. }
  exists t'. pose proof (set_parent_reparented _ _ _ _ Hset) as Hre.
  split; [done|]. split; [done|]. split.
  - eapply set_parent_tree_ok; [done| |done]. by intros ? [= <-].
  - by eapply chain_reparented_self.
Qed.

Lemma chain_head_live t x q l :
  tree_ok t → live t x → chain t x (q :: l) → live t q.
Proof.
  intros Hok Hx Hc. pose proof (chain_live t Hok _ _ Hx Hc) as Hl.
  by apply Forall_cons in Hl as [? _].
Qed.

(** ** Removing a node *)

Lemma rehang_fold po cs t :
  let t1 := foldl (λ s c, set_node s c (with_parent (node s c) po)) t cs in
  descendants t1 = descendants t
  ∧ empty_nodes t1 = empty_nodes t
  ∧ log t1 = log t
  ∧ (∀ x, get_parent t1 x = if bool_decide (x ∈ cs) then po else get_parent t x)
  ∧ same_labels t t1.
Proof.
  revert t. induction cs as [|c cs IH]; intros t; simpl.
  - repeat split; try done.
  - destruct (IH (set_node t c (with_parent (node t c) po)))
      as (Hd & He & Hl & Hp & Hs).
    split; [done|]. split; [done|]. split; [done|]. split.
    + intros x. rewrite Hp, get_parent_set_node.
      destruct (decide (x = c)) as [->|Hxc].
      * rewrite (bool_decide_eq_true_2 (c ∈ c :: cs)) by left.
        by case_bool_decide.
      * rewrite (bool_decide_ext (x ∈ c :: cs) (x ∈ cs)); [done|].
        rewrite elem_of_cons. split; [by intros [?|?]|by right].
    + eapply same_labels_trans; [|done].
      intros x. rewrite node_set_node. by destruct (decide (x = c)) as [->|].
Qed.

Lemma remove_rehang_Ok t n t' :
  remove t n Rehang = Ok t' →
  n ∈ descendants t
  ∧ descendants t' = filter (λ x, x ≠ n) (descendants t)
  ∧ empty_nodes t' = lower_empty t [n] <$> empty_nodes t
  ∧ log t' = log t
  ∧ (∀ x, get_parent t' x
          = if bool_decide (x ∈ children t n) then get_parent t n
            else get_parent t x)
  ∧ same_labels t t'.
Proof.
  unfold remove. case_bool_decide as Hn; [|done]. intros [= <-].
  destruct (rehang_fold (get_parent t n) (children t n) t)
    as (Hd & He & Hl & Hp & Hs).
  simpl. rewrite Hd, He. done.
Qed.

Lemma in_subtree_ok t n x l :
  tree_ok t → live t x → chain t x l →
  in_subtree t n x = bool_decide (n ∈ x :: l).
Proof.
  intros Hok Hx Hc. unfold in_subtree.
  destruct (decide (x = n)) as [->|Hxn].
  { rewrite !bool_decide_eq_true_2; [done|left|done]. }
  rewrite (bool_decide_eq_false_2 (x = n)) by done. cbn [orb].
  inversion Hc as [Heq|? q l' Hq Hc']; subst.
  - fold root_id. rewrite (ok_root_parent _ Hok). simpl.
    symmetry. apply bool_decide_eq_false_2.
    intros [?|?%elem_of_nil]%elem_of_cons; [|done]. by subst.
  - rewrite Hq. rewrite (climb_ok t Hok q l' n); [|by eapply chain_head_live|done].
    simpl. apply bool_decide_ext. rewrite (elem_of_cons (q :: l')).
    split; [by right|]. by intros [?|?].
Qed.

Lemma remove_warn_Ok t n t' :
  remove t n Warn = Ok t' →
  n ∈ descendants t
  ∧ descendants t' = filter (λ x, in_subtree t n x = false) (descendants t)
  ∧ empty_nodes t'
    = lower_empty t (filter (λ x, in_subtree t n x = true) (descendants t))
        <$> empty_nodes t
  ∧ nodes t' = nodes t.
Proof.
  unfold remove. case_bool_decide as Hn; [|done]. intros [= <-].
  by destruct (children t n).
Qed.

Lemma remove_rehang_tree_ok t n t' :
  tree_ok t → remove t n Rehang = Ok t' → tree_ok t'.
Proof.
  intros Hok (Hn & Hd & _ & _ & Hp & _)%remove_rehang_Ok.
  destruct (parent_live t Hok n Hn) as (g & Hg & Hlg).
  assert (Hroot := ok_root_parent _ Hok).
  assert (g ≠ n) as Hgn.
  { intros ->. destruct (live_chain t Hok n (or_intror Hn)) as (l & Hc & _).
    apply (chain_not_in t Hroot n l Hc).
    inversion Hc; subst; [by destruct (ok_root _ Hok)|].
    assert (p = n) as -> by congruence. left. }
  assert (∀ x, live t x → x ≠ n → live t' x) as Hlive.
  { intros x [->|Hx] Hxn; [by left|right].
    rewrite Hd. by apply list_elem_of_filter. }
  assert (∀ k x l, List.length l ≤ k → live t x → x ≠ n → chain t x l →
          chain t' x (filter (λ y, y ≠ n) l)) as Hchain.
  { induction k as [|k IH]; intros x l Hk Hx Hxn Hc.
    - destruct l; [|simpl in Hk; lia].
      inversion Hc; subst. constructor.
    - inversion Hc as [Heq|? q l' Hq Hc']; subst; [constructor|].
      assert (live t q) as Hlq by (by eapply chain_head_live).
      assert (x ∈ descendants t) as Hxd by eauto using live_with_parent.
      simpl in Hk. destruct (decide (q = n)) as [->|Hqn].
      + rewrite filter_cons_False by (by intros ?).
        inversion Hc' as [Heq|? g' l'' Hg' Hc'']; subst;
          [by destruct (ok_root _ Hok)|].
        assert (g' = g) as -> by congruence.
        rewrite filter_cons_True by done. apply chain_step.
        * rewrite Hp, bool_decide_eq_true_2; [done|].
          by apply elem_of_children.
        * apply IH; [simpl in Hk; lia|done|done|done].
      + rewrite filter_cons_True by done. apply chain_step.
        * rewrite Hp, bool_decide_eq_false_2; [done|].
          rewrite elem_of_children. intros [_ ?]. congruence.
        * apply IH; [lia|done|done|done]. }
  split.
  - rewrite Hd. apply NoDup_filter, Hok.
  - rewrite Hd. intros [_ Hr]%list_elem_of_filter. by destruct (ok_root _ Hok).
  - rewrite Hp, bool_decide_eq_false_2; [done|].
    rewrite elem_of_children. intros [Hr _]. by destruct (ok_root _ Hok).
  - intros x. rewrite Hd. intros [Hxn Hx]%list_elem_of_filter.
    destruct (ok_chain _ Hok x Hx) as (l & Hc & Hl).
    exists (filter (λ y, y ≠ n) l). split.
    + apply (Hchain (List.length l)); [done|by right|done|done].
    + apply Forall_forall. intros y [Hyn Hy]%list_elem_of_filter.
      rewrite Forall_forall in Hl. auto.
Qed.

Lemma remove_warn_tree_ok t n t' :
  tree_ok t → remove t n Warn = Ok t' → tree_ok t'.
Proof.
  intros Hok (Hn & Hd & _ & Hnodes)%remove_warn_Ok.
  assert (Hroot := ok_root_parent _ Hok).
  assert (∀ x, get_parent t' x = get_parent t x) as Hp.
  { intros x. unfold get_parent, node. by rewrite Hnodes. }
  split.
  - rewrite Hd. apply NoDup_filter, Hok.
  - rewrite Hd. intros [_ Hr]%list_elem_of_filter. by destruct (ok_root _ Hok).
  - rewrite Hp. apply Hok.
  - intros x. rewrite Hd. intros [Hsub Hx]%list_elem_of_filter.
    destruct (ok_chain _ Hok x Hx) as (l & Hc & Hl). exists l. split.
    + clear Hsub Hl Hx. induction Hc; [constructor|].
      apply chain_step; [by rewrite Hp|done].
    + rewrite (in_subtree_ok t n x l Hok (or_intror Hx) Hc) in Hsub.
      apply bool_decide_eq_false in Hsub.
      apply Forall_forall. intros y Hy. rewrite Forall_forall in Hl.
      destruct (Hl y Hy) as [->|Hyd]; [by left|right].
      rewrite Hd. apply list_elem_of_filter. split; [|done].
      destruct (chain_split t _ _ _ Hc Hy) as (l1 & l2 & -> & Hc2).
      rewrite (in_subtree_ok t n y l2 Hok (or_intror Hyd) Hc2).
      apply bool_decide_eq_false_2. intros Hin. apply Hsub.
      right. apply elem_of_app. by right.
Qed.

(** ** The tree invariant along the rewriting *)

(** [shape_kept t s]: [s] is a well-formed tree over the tokens of [t]. *)
Definition shape_kept (t s : Root) : Prop :=
  tree_ok s ∧ descendants s = descendants t.

Lemma shape_kept_refl t : tree_ok t → shape_kept t t.
Proof. by split. Qed.

Lemma shape_kept_same_shape t s s' :
  shape_kept t s → same_shape s s' → shape_kept t s'.
Proof.
  intros [Hok Hd] Hs. split; [by eapply tree_ok_same_shape|].
  destruct Hs as [-> _]. done.
Qed.

Lemma shape_kept_set_parent t s n po s' :
  shape_kept t s → (∀ p, po = Some p → live t p) →
  set_parent s n po = Ok s' → shape_kept t s'.
Proof.
  intros [Hok Hd] Hl Hset. split.
  - eapply set_parent_tree_ok; [done| |done].
    intros p Hp. unfold live. rewrite Hd. by apply Hl.
  - by rewrite (set_parent_descendants _ _ _ _ Hset).
Qed.

Lemma children_live t n c : c ∈ children t n → live t c.
Proof. intros [? _]%elem_of_children. by right. Qed.

Lemma children_parent_live t n c :
  tree_ok t → c ∈ children t n → live t n.
Proof.
  intros Hok [Hc Hp]%elem_of_children.
  destruct (parent_live t Hok c Hc) as (p & Hp' & Hl). congruence.
Qed.

Lemma live_parent_live t n p :
  tree_ok t → live t n → get_parent t n = Some p → live t p.
Proof.
  intros Hok Hn Hp.
  destruct (parent_live t Hok n (live_with_parent t Hok n p Hn Hp))
    as (p' & Hp' & Hl). congruence.
Qed.

Lemma same_shape_pass_misc k src dst t : same_shape t (pass_misc k src dst t).
Proof.
  unfold pass_misc. destruct (truthy _);
    [apply same_shape_set_misc|apply same_shape_refl].
Qed.

Lemma redraw_subtree_shape_kept new_head current_head t t' :
  tree_ok t → new_head ∈ children t current_head →
  redraw_subtree new_head current_head t = Ok t' → shape_kept t t'.
Proof.
  intros Hok Hnew Hrun. unfold redraw_subtree in Hrun.
  pose proof (children_live _ _ _ Hnew) as Hln.
  pose proof (children_parent_live _ _ _ Hok Hnew) as Hlc.
  apply bind_Ok in Hrun as (t1 & H1 & Hrun).
  apply bind_Ok in Hrun as (t2 & H2 & Hrun).
  assert (shape_kept t t1) as Hk1.
  { eapply shape_kept_set_parent; [by apply shape_kept_refl| |done].
    intros p Hp. by eapply live_parent_live. }
  assert (shape_kept t t2) as Hk2.
  { eapply shape_kept_set_parent; [done| |done]. by intros p [= <-]. }
  revert Hrun. apply for_each_inv.
  2:{ do 2 (eapply shape_kept_same_shape; [|apply same_shape_pass_misc]). done. }
  intros c a b _ Ha Hb. case_bool_decide.
  - eapply shape_kept_set_parent; [done| |done]. by intros p [= <-].
  - by injection Hb as <-.
Qed.

Lemma filterM_elem {A} (p : A → result bool) xs r x :
  filterM p xs = Ok r → x ∈ r → x ∈ xs.
Proof.
  revert r. induction xs as [|a xs IH]; intros r Hrun Hx; simpl in Hrun.
  - injection Hrun as <-. done.
  - apply bind_Ok in Hrun as (b & _ & Hrun).
    apply bind_Ok in Hrun as (r' & Hr' & Hrun). injection Hrun as <-.
    destruct b.
    + apply elem_of_cons in Hx as [->|Hx]; [left|right; eauto].
    + right. eauto.
Qed.

Lemma attach_right_tree_ok element attr val t t' :
  tree_ok t → attach_right element attr val t = Ok t' →
  tree_ok t' ∧ descendants t' = descendants t.
Proof.
  intros Hok. unfold attach_right.
  destruct (get_parent t element) as [h|]; [|done].
  assert (∀ bros, (∀ b, b ∈ bros → live t b) →
          attach_right_loop element attr val bros t = Ok t' →
          tree_ok t' ∧ descendants t' = descendants t) as Hloop.
  { induction bros as [|b bros IH]; intros Hl Hrun; simpl in Hrun.
    - by injection Hrun as <-.
    - case_bool_decide.
      + split; [|by eapply set_parent_descendants].
        eapply set_parent_tree_ok; [done| |done].
        intros p [= <-]. apply Hl. left.
      + apply IH; [|done]. intros b' Hb'. apply Hl. by right. }
  apply Hloop. intros b [_ Hb]%list_elem_of_filter. by eapply children_live.
Qed.

Section ConverterInvariant.
Variables (is_prague_bridge_subtree is_coord_subtree is_apos_subtree
           is_copula_subtree is_ellipsis_subtree : Root → nat → bool).
Variable get_subtree_depth : Root → list (nat * nat).
Variable recursion_limit : nat.

Lemma rewrite_bridge_tree_ok subtree t t' :
  tree_ok t → rewrite_bridge subtree t = Ok t' → tree_ok t'.
Proof.
  intros Hok Hrun. unfold rewrite_bridge in Hrun.
  apply bind_Ok in Hrun as (ch & Hch & Hrun).
  destruct ch as [|newh [|? ?]]; try (injection Hrun as <-;
    by eapply tree_ok_same_shape; [apply same_shape_logging|]).
  eapply redraw_subtree_shape_kept; [done| |done].
  eapply filterM_elem; [done|left].
Qed.

Lemma remove_warn_if_tree_ok (b : bool) subtree t t' :
  tree_ok t → (if b then remove t subtree Warn else Ok t) = Ok t' →
  tree_ok t'.
Proof.
  intros Hok. destruct b; [by apply remove_warn_tree_ok|by intros [= <-]].
Qed.

Lemma rewrite_coord_tree_ok subtree t t' :
  tree_ok t → rewrite_coord subtree t = Ok t' → tree_ok t'.
Proof.
  intros Hok Hrun. unfold rewrite_coord in Hrun.
  destruct (filter _ (children t subtree)) as [|first members] eqn:Hm.
  { injection Hrun as <-.
    by eapply tree_ok_same_shape; [apply same_shape_logging|]. }
  assert (first ∈ children t subtree) as Hfirst.
  { eapply (proj1 (list_elem_of_filter _ _ _)). rewrite Hm. left. }
  pose proof (children_live _ _ _ Hfirst) as Hlf.
  pose proof (children_parent_live _ _ _ Hok Hfirst) as Hls.
  apply bind_Ok in Hrun as (t1 & H1 & Hrun).
  apply bind_Ok in Hrun as (t2 & H2 & Hrun).
  apply bind_Ok in Hrun as (t3 & H3 & Hrun).
  apply bind_Ok in Hrun as (t4 & H4 & Hrun).
  apply bind_Ok in Hrun as (t5 & H5 & Hrun).
  assert (shape_kept t t1) as Hk1.
  { eapply shape_kept_set_parent; [by apply shape_kept_refl| |done].
    intros p Hp. by eapply live_parent_live. }
  assert (shape_kept t t2) as Hk2.
  { revert H2. apply for_each_inv; [|done]. intros m a b _ Ha Hb.
    apply bind_Ok in Hb as (a' & Ha' & [= <-]).
    eapply shape_kept_same_shape; [|apply same_shape_set_deprel].
    eapply shape_kept_set_parent; [done| |done]. by intros p [= <-]. }
  assert (shape_kept t t3) as Hk3.
  { eapply shape_kept_set_parent; [done| |done]. by intros p [= <-]. }
  assert (shape_kept t t4) as Hk4.
  { revert H4. apply for_each_inv; [|done]. intros m a b _ Ha Hb.
    apply bind_Ok in Hb as (a' & Ha' & [= <-]).
    assert (shape_kept t a') as Hka'
      by (eapply shape_kept_set_parent; [done| |done]; by intros p [= <-]).
    destruct (_ && _); [|done].
    eapply shape_kept_same_shape; [done|apply same_shape_set_deprel]. }
  assert (tree_ok t5) as Hk5 by (eapply remove_warn_if_tree_ok; [apply Hk4|done]).
  revert Hrun. apply for_each_inv; [|done]. intros c a b _ Ha Hb.
  destruct (_ && _); [|by injection Hb as <-].
  by eapply attach_right_tree_ok.
Qed.

Lemma rewrite_apos_tree_ok subtree t t' :
  tree_ok t → rewrite_apos subtree t = Ok t' → tree_ok t'.
Proof.
  intros Hok Hrun. unfold rewrite_apos in Hrun.
  destruct (filter _ (children t subtree)) as [|first members] eqn:Hm.
  { injection Hrun as <-.
    by eapply tree_ok_same_shape; [apply same_shape_logging|]. }
  assert (first ∈ children t subtree) as Hfirst.
  { eapply (proj1 (list_elem_of_filter _ _ _)). rewrite Hm. left. }
  pose proof (children_live _ _ _ Hfirst) as Hlf.
  pose proof (children_parent_live _ _ _ Hok Hfirst) as Hls.
  apply bind_Ok in Hrun as (t1 & H1 & Hrun).
  apply bind_Ok in Hrun as (t2 & H2 & Hrun).
  apply bind_Ok in Hrun as (t3 & H3 & Hrun).
  assert (shape_kept t t1) as Hk1.
  { eapply shape_kept_set_parent; [by apply shape_kept_refl| |done].
    intros p Hp. by eapply live_parent_live. }
  assert (shape_kept t t2) as Hk2.
  { revert H2. apply for_each_inv; [|done]. intros m a b _ Ha Hb.
    apply bind_Ok in Hb as (a' & Ha' & [= <-]).
    eapply shape_kept_same_shape; [|apply same_shape_set_deprel].
    eapply shape_kept_set_parent; [done| |done]. by intros p [= <-]. }
  assert (shape_kept t t3) as Hk3.
  { revert H3. apply for_each_inv; [|done]. intros m a b _ Ha Hb.
    eapply shape_kept_set_parent; [done| |done]. by intros p [= <-]. }
  destruct (is_artificial t3 subtree).
  - eapply remove_warn_tree_ok; [apply Hk3|done].
  - apply bind_Ok in Hrun as (t4 & H4 & [= <-]).
    eapply tree_ok_same_shape; [apply same_shape_set_deprel|].
    eapply shape_kept_set_parent; [done| |done]. by intros p [= <-].
Qed.

Lemma rewrite_copula_tree_ok subtree t t' :
  tree_ok t → rewrite_copula subtree t = Ok t' → tree_ok t'.
Proof.
  intros Hok Hrun. unfold rewrite_copula in Hrun.
  destruct (filter _ (children t subtree)) as [|pnom others] eqn:Hm.
  { injection Hrun as <-.
    by eapply tree_ok_same_shape; [apply same_shape_logging|]. }
  assert (pnom ∈ children t subtree) as Hpnom.
  { eapply (proj1 (list_elem_of_filter _ _ _)). rewrite Hm. left. }
  apply bind_Ok in Hrun as (t1 & H1 & Hrun).
  pose proof (same_shape_set_deprel t pnom (deprel (node t subtree))) as Hs0.
  apply redraw_subtree_shape_kept in H1 as [Hk1 Hd1];
    [|by eapply tree_ok_same_shape
     |by rewrite (same_shape_children _ _ _ Hs0)].
  destruct (is_artificial t1 subtree).
  - apply bind_Ok in Hrun as (t2 & H2 & [= <-]).
    eapply tree_ok_same_shape; [apply same_shape_logging|].
    by eapply remove_warn_tree_ok.
  - apply bind_Ok in Hrun as (t2 & H2 & [= <-]).
    eapply tree_ok_same_shape; [apply same_shape_set_deprel|].
    eapply set_parent_tree_ok; [done| |done]. intros p [= <-].
    pose proof (children_live _ _ _ Hpnom) as Hl.
    unfold live in *. rewrite Hd1. exact Hl.
Qed.

Lemma get_first_in_priority_elem t chs priority c :
  get_first_in_priority t chs priority = Some c → c ∈ chs.
Proof.
  induction priority as [|lab rest IH]; [done|]. simpl.
  destruct (List.find _ chs) as [c'|] eqn:Hf; [|done].
  intros [= <-]. apply find_some in Hf as [Hin _].
  by apply list_elem_of_In.
Qed.

Lemma rewrite_ellipsis_tree_ok subtree t t' :
  tree_ok t → rewrite_ellipsis subtree t = Ok t' → tree_ok t'.
Proof.
  intros Hok Hrun. unfold rewrite_ellipsis in Hrun.
  destruct (get_first_in_priority _ _ _) as [newhead|] eqn:Hg.
  - apply get_first_in_priority_elem in Hg.
    pose proof (same_shape_set_deprel t newhead (deprel (node t subtree))) as Hs0.
    eapply redraw_subtree_shape_kept; [|
      by rewrite (same_shape_children _ _ _ Hs0)|done].
    by eapply tree_ok_same_shape.
  - injection Hrun as <-.
    by eapply tree_ok_same_shape; [apply same_shape_logging|].
Qed.

Lemma process_subtree_tree_ok subtree t t' :
  tree_ok t →
  process_subtree is_prague_bridge_subtree is_coord_subtree is_apos_subtree
                  is_copula_subtree is_ellipsis_subtree subtree t = Ok t' →
  tree_ok t'.
Proof.
  intros Hok. unfold process_subtree.
  destruct (is_prague_bridge_subtree t subtree);
    [by apply rewrite_bridge_tree_ok|].
  destruct (is_coord_subtree t subtree); [by apply rewrite_coord_tree_ok|].
  destruct (is_apos_subtree t subtree); [by apply rewrite_apos_tree_ok|].
  destruct (is_copula_subtree t subtree); [by apply rewrite_copula_tree_ok|].
  destruct (is_ellipsis_subtree t subtree); [by apply rewrite_ellipsis_tree_ok|].
  by intros [= <-].
Qed.

End ConverterInvariant.

Lemma write_deps_in_misc_same_shape t t' :
  write_deps_in_misc t = Ok t' → same_shape t t'.
Proof.
  unfold write_deps_in_misc. apply for_each_inv; [|apply same_shape_refl].
  intros n a b _ Ha Hb. destruct (get_parent a n); [|done].
  destruct (_ || _); injection Hb as <-; [|done].
  eapply same_shape_trans; [done|apply same_shape_set_misc].
Qed.

Lemma stamp_original_ord_same_shape arts t :
  same_shape t (foldl (λ t a, set_misc t a "original_ord"
                                (PStr (str_of_nat (ord t a)))) t arts).
Proof.
  revert t. induction arts as [|a arts IH]; intros t; [apply same_shape_refl|].
  simpl. eapply same_shape_trans; [apply same_shape_set_misc|apply IH].
Qed.

Lemma copy_one_tree_ok recursion_limit art t t' :
  tree_ok t → copy_one recursion_limit art t = Ok t' → tree_ok t'.
Proof.
  intros Hok Hrun. unfold copy_one in Hrun.
  apply bind_Ok in Hrun as (ord_id & _ & Hrun).
  eapply remove_rehang_tree_ok; [|done].
  eapply tree_ok_same_shape; [apply same_shape_logging|].
  by eapply tree_ok_same_shape; [apply same_shape_create_empty_child|].
Qed.

Lemma resolve_empty_same_shape m i t t' :
  resolve_empty m i t = Ok t' → same_shape t t'.
Proof.
  unfold resolve_empty. destruct (empty_nodes t !! i) as [e|]; [|done].
  destruct (misc_get _ _) as [s|[]]; try done.
  2: { intros [= <-]. apply same_shape_logging. }
  destruct (truthy _); [|intros [= <-]; apply same_shape_logging].
  destruct (split _ _) as [|dep [|rel [|]]]; try done.
  intros (ep & Hep & [= <-])%bind_Ok.
  eapply same_shape_trans; [|apply same_shape_set_empty].
  destruct (m !! dep).
  { injection Hep as <-. apply same_shape_refl. }
  case_bool_decide.
  { injection Hep as <-. apply same_shape_logging. }
  destruct (int_of_str dep); [|done].
  destruct (nodes_with_ord t _); [done|].
  injection Hep as <-. apply same_shape_refl.
Qed.

Lemma resolve_node_same_shape m n t t' :
  resolve_node m n t = Ok t' → same_shape t t'.
Proof.
  unfold resolve_node. destruct (get_misc _ _ _) as [s|[]]; try done.
  2: { intros [= <-]. apply same_shape_refl. }
  destruct (truthy _); [|intros [= <-]; apply same_shape_refl].
  destruct (split _ _) as [|dep [|rel [|]]]; try done.
  destruct (m !! dep); intros [= <-];
    [apply same_shape_append_dep|apply same_shape_refl].
Qed.

Lemma resolve_tree_ok recursion_limit t t' :
  tree_ok t → resolve recursion_limit t = Ok t' → tree_ok t'.
Proof.
  intros Hok Hrun. unfold resolve in Hrun.
  apply bind_Ok in Hrun as (t1 & H1 & Hrun).
  assert (tree_ok t1) as Hok1.
  { revert H1. apply for_each_inv; [|done].
    intros art a b _. apply copy_one_tree_ok. }
  destruct (filter _ (descendants t)); [by injection Hrun as <-|].
  apply bind_Ok in Hrun as (t2 & H2 & Hrun).
  assert (tree_ok t2) as Hok2.
  { revert H2. apply for_each_inv; [|done]. intros i a b _ Ha Hb.
    eapply tree_ok_same_shape; [by eapply resolve_empty_same_shape|done]. }
  revert Hrun. apply for_each_inv; [|done]. intros i a b _ Ha Hb.
  eapply tree_ok_same_shape; [by eapply resolve_node_same_shape|done].
Qed.

(** Well-formedness, spelled out: every token has a chain of governors
    without repetition that ends in the technical root, and it is the
    child of exactly one node. *)
Lemma tree_ok_chains t n :
  tree_ok t → n ∈ descendants t →
  (∃ l, chain t n l ∧ NoDup (n :: l) ∧ last l = Some root_id
        ∧ Forall (live t) l)
  ∧ (∃ p, n ∈ children t p ∧ ∀ q, n ∈ children t q → q = p).
Proof.
  intros Hok Hn. split.
  - destruct (ok_chain _ Hok n Hn) as (l & Hc & Hl). exists l.
    split; [done|]. split; [by eapply chain_NoDup; [apply Hok|]|].
    split; [|done]. clear Hl.
    assert (n ≠ root_id) as Hne by (intros ->; by destruct (ok_root _ Hok)).
    induction Hc as [|n p l Hp Hc IH]; [done|].
    destruct (decide (p = root_id)) as [->|Hpr].
    + by rewrite (root_chain t Hok l Hc).
    + destruct l as [|q l]; [by inversion Hc|].
      rewrite last_cons_cons. apply IH; [|done].
      eapply live_with_parent; [done| |by inversion Hc].
      eapply live_parent_live; [done|by right|done].
  - destruct (parent_live t Hok n Hn) as (p & Hp & _). exists p. split.
    + by apply elem_of_children.
    + intros q [_ Hq]%elem_of_children. congruence.
Qed.

(** C1. For every well-formed input tree, once [process_tree] has
    completed, in enhanced or in plain mode and whatever failures the
    branches have logged, the primary parent relation is again a tree
    with a single root: the technical root has no parent, and every token
    reaches the root by a chain of governors without repetition and is the
    child of exactly one node. *)
Theorem process_tree_keeps_single_rooted_tree
  (is_prague_bridge_subtree is_coord_subtree is_apos_subtree
   is_copula_subtree is_ellipsis_subtree : Root → nat → bool)
  (get_subtree_depth : Root → list (nat * nat)) (recursion_limit : nat)
  (with_enhanced : bool) (t t' : Root) :
  tree_ok t →
  process_tree is_prague_bridge_subtree is_coord_subtree is_apos_subtree
               is_copula_subtree is_ellipsis_subtree get_subtree_depth
               recursion_limit with_enhanced t = Ok t' →
  get_parent t' root_id = None
  ∧ ∀ n, n ∈ descendants t' →
      (∃ l, chain t' n l ∧ NoDup (n :: l) ∧ last l = Some root_id
            ∧ Forall (live t') l)
      ∧ (∃ p, n ∈ children t' p ∧ ∀ q, n ∈ children t' q → q = p).
Proof.
  intros Hok Hrun. assert (tree_ok t') as Hok'.
  { unfold process_tree in Hrun.
    apply bind_Ok in Hrun as (t1 & H1 & Hrun).
    apply bind_Ok in Hrun as (t2 & H2 & Hrun).
    assert (tree_ok t1) as Hok1.
    { destruct with_enhanced; [|by injection H1 as <-].
      apply bind_Ok in H1 as (t0 & H0 & [= <-]).
      eapply tree_ok_same_shape; [apply stamp_original_ord_same_shape|].
      eapply tree_ok_same_shape; [by apply write_deps_in_misc_same_shape|done]. }
    assert (tree_ok t2) as Hok2.
    { revert H2. apply for_each_inv; [|done]. intros sd a b _.
      apply process_subtree_tree_ok. }
    destruct with_enhanced; [by eapply resolve_tree_ok|by injection Hrun as <-]. }
  split; [apply Hok'|]. intros n Hn. by apply tree_ok_chains.
Qed.

(** ** Sample sentences *)

(** A decision procedure for [tree_ok], to check concrete sentences. *)
Fixpoint reaches_root (t : Root) (fuel n : nat) : bool :=
  match fuel with
  | O => false
  | S f =>
      match get_parent t n with
      | None => false
      | Some p =>
          bool_decide (p = root_id)
          || (bool_decide (p ∈ descendants t) && reaches_root t f p)
      end
  end.

Definition tree_okb (t : Root) : bool :=
  bool_decide (NoDup (descendants t))
  && bool_decide (root_id ∉ descendants t)
  && bool_decide (get_parent t root_id = None)
  && forallb (reaches_root t (S (List.length (descendants t)))) (descendants t).

Lemma reaches_root_chain t fuel n :
  reaches_root t fuel n = true → ∃ l, chain t n l ∧ Forall (live t) l.
Proof.
  revert n. induction fuel as [|fuel IH]; intros n; [done|]. simpl.
  destruct (get_parent t n) as [p|] eqn:Hp; [|done].
  intros [Hr|[Hd Hrec]%andb_true_iff]%orb_true_iff.
  - apply bool_decide_eq_true in Hr as ->. exists [root_id]. split.
    + apply chain_step; [done|constructor].
    + apply Forall_cons. split; [by left|done].
  - apply bool_decide_eq_true in Hd. destruct (IH p Hrec) as (l & Hc & Hl).
    exists (p :: l). split; [by apply chain_step|].
    apply Forall_cons. split; [by right|done].
Qed.

Lemma tree_okb_ok t : tree_okb t = true → tree_ok t.
Proof.
  unfold tree_okb. rewrite !andb_true_iff, !bool_decide_eq_true.
  intros [[[H1 H2] H3] H4]. split; try done.
  intros n Hn. rewrite forallb_forall in H4.
  eapply reaches_root_chain, H4. by apply list_elem_of_In.
Qed.

(** A token given by its form, tags, relation, metadata and governor. *)
Definition tok (form upos xpos deprel : string) (m : list (string * PyVal))
  (p : nat) : Node :=
  mkNode form "" upos xpos "" deprel (list_to_map m) [] (Some p).

(** The sentence made of the given tokens: the [i]-th token is the object
    [i], the technical root is the object [root_id]. *)
Definition sentence (toks : list Node) : Root :=
  mkRoot (<[root_id := inhabitant]> (list_to_map (imap (λ i nd, (S i, nd)) toks)))
         (seq 1 (List.length toks)) [] [].

(** A classifier in the style of the treebank: the construction is read
    off the original relation of the subtree root. *)
Definition original_dep_is (d : string) (t : Root) (n : nat) : bool :=
  bool_decide (get_misc t n "original_dep" = PStr d).

Definition run_with (schedule : list (nat * nat)) (with_enhanced : bool)
  (t : Root) : result Root :=
  process_tree (original_dep_is "AuxP") (original_dep_is "COORD")
               (original_dep_is "APOS") (original_dep_is "PRED_COP")
               (original_dep_is "ExD_HEAD") (λ _, schedule) 1000
               with_enhanced t.

Definition or_else (r : result Root) (t : Root) : Root :=
  match r with
  | Ok t' => t'
  | Raise _ => t
  end.

(** "Caesar et Brutus veniunt in urbem [0] cras": a coordination headed by
    "et", a preposition, and an artificial verb governing "cras". *)
Definition veniunt : Root :=
  sentence
    [ tok "Caesar" "PROPN" "n" "nsubj"
          [("original_dep", PStr "SBJ_CO"); ("CoordMember", PBool true)] 2;
      tok "et" "CCONJ" "c" "cc" [("original_dep", PStr "COORD")] 4;
      tok "Brutus" "PROPN" "n" "nsubj"
          [("original_dep", PStr "SBJ_CO"); ("CoordMember", PBool true)] 2;
      tok "veniunt" "VERB" "v" "root" [("original_dep", PStr "PRED")] 0;
      tok "in" "ADP" "r" "case" [("original_dep", PStr "AuxP")] 4;
      tok "urbem" "NOUN" "n" "obl" [("original_dep", PStr "ADV")] 5;
      tok "[0]" "VERB" "v" "advcl"
          [("original_dep", PStr "ExD"); ("NodeType", PStr "Artificial")] 4;
      tok "cras" "ADV" "d" "advmod" [("original_dep", PStr "ADV")] 7 ].

Definition veniunt_schedule : list (nat * nat) :=
  [(2, 1); (5, 1); (7, 1); (4, 2)].

Definition veniunt_enhanced : Root :=
  or_else (run_with veniunt_schedule true veniunt) veniunt.

(** The sample run in enhanced mode: a coordination, a bridge and an
    artificial node turned into an empty node. *)
Lemma process_tree_keeps_single_rooted_tree_witness :
  tree_ok veniunt
  ∧ run_with veniunt_schedule true veniunt = Ok veniunt_enhanced
  ∧ get_parent veniunt_enhanced root_id = None
  ∧ ∀ n, n ∈ descendants veniunt_enhanced →
      (∃ l, chain veniunt_enhanced n l ∧ NoDup (n :: l)
            ∧ last l = Some root_id ∧ Forall (live veniunt_enhanced) l)
      ∧ (∃ p, n ∈ children veniunt_enhanced p
              ∧ ∀ q, n ∈ children veniunt_enhanced q → q = p).
Proof.
  assert (tree_ok veniunt) as Hok by (apply tree_okb_ok; vm_compute; reflexivity).
  assert (run_with veniunt_schedule true veniunt = Ok veniunt_enhanced) as Hrun
    by (vm_compute; reflexivity).
  split; [exact Hok|]. split; [exact Hrun|].
  unfold run_with in Hrun.
  exact (process_tree_keeps_single_rooted_tree _ _ _ _ _ _ _ _ _ _ Hok Hrun).
Defined.

(** ** Loops that always go through *)

(** A loop rule for total correctness: [I done s] holds of the state [s]
    reached after the elements [done] have been handled. *)
Lemma for_each_total {A S} (I : list A → S → Prop)
  (body : A → S → result S) xs s0 :
  I [] s0 →
  (∀ done c s, I done s → c ∈ xs →
     ∃ s', body c s = Ok s' ∧ I (done ++ [c]) s') →
  ∃ s', for_each body xs s0 = Ok s' ∧ I xs s'.
Proof.
  intros H0 Hstep.
  assert (∀ rest done s, I done s → (∀ c, c ∈ rest → c ∈ xs) →
          ∃ s', for_each body rest s = Ok s' ∧ I (done ++ rest) s') as Hgen.
  { induction rest as [|c rest IH]; intros done s Hs Hsub.
    - exists s. rewrite app_nil_r. by split.
    - destruct (Hstep done c s Hs) as (s1 & Hb & H1); [apply Hsub; left|].
      destruct (IH (done ++ [c]) s1 H1) as (s' & Hr & H');
        [intros; apply Hsub; by right|].
      exists s'. simpl. rewrite Hb. simpl. rewrite <- app_assoc in H'. by split. }
  apply (Hgen xs [] s0); done.
Qed.

Definition same_deprels (t t' : Root) : Prop :=
  ∀ x, deprel (node t' x) = deprel (node t x).

Lemma same_deprels_refl t : same_deprels t t.
Proof. by intros x. Qed.

Lemma same_deprels_trans t1 t2 t3 :
  same_deprels t1 t2 → same_deprels t2 t3 → same_deprels t1 t3.
Proof. intros H1 H2 x. by rewrite H2, H1. Qed.

Lemma same_labels_same_deprels t t' : same_labels t t' → same_deprels t t'.
Proof. intros H x. by apply same_labels_deprel. Qed.

Lemma same_deprels_set_misc t n k v : same_deprels t (set_misc t n k v).
Proof. intros x. apply deprel_set_misc. Qed.

Lemma same_deprels_pass_misc k src dst t : same_deprels t (pass_misc k src dst t).
Proof.
  unfold pass_misc. destruct (truthy _);
    [apply same_deprels_set_misc|apply same_deprels_refl].
Qed.

Lemma same_deprels_udeprel t t' x :
  same_deprels t t' → udeprel t' x = udeprel t x.
Proof. intros H. unfold udeprel. by rewrite H. Qed.

(** The loop that hands the nodes [cs] satisfying [keep] over to [p]. *)
Lemma reparent_loop (keep : nat → Prop) `{!∀ c, Decision (keep c)}
  (body : nat → Root → result Root) p lp cs t0 :
  tree_ok t0 → live t0 p → chain t0 p lp →
  (∀ c, c ∈ cs → c ∈ descendants t0 ∧ c ∉ p :: lp) →
  (∀ c s, same_deprels t0 s → c ∈ cs →
     body c s = if decide (keep c) then set_parent s c (Some p) else Ok s) →
  ∃ t', for_each body cs t0 = Ok t'
        ∧ tree_ok t' ∧ descendants t' = descendants t0
        ∧ chain t' p lp ∧ same_labels t0 t'
        ∧ empty_nodes t' = empty_nodes t0 ∧ log t' = log t0
        ∧ (∀ x, x ∈ cs → keep x → get_parent t' x = Some p)
        ∧ (∀ x, ¬ (x ∈ cs ∧ keep x) → get_parent t' x = get_parent t0 x).
Proof.
  intros Hok Hlp Hc Hcs Hbody.
  apply (for_each_total (λ done s,
    tree_ok s ∧ descendants s = descendants t0 ∧ chain s p lp
    ∧ same_labels t0 s ∧ empty_nodes s = empty_nodes t0 ∧ log s = log t0
    ∧ (∀ x, x ∈ done → keep x → get_parent s x = Some p)
    ∧ (∀ x, ¬ (x ∈ done ∧ keep x) → get_parent s x = get_parent t0 x))).
  { split; [done|]. split; [done|]. split; [done|].
    split; [apply same_labels_refl|]. split; [done|]. split; [done|].
    split; [by intros x ?%elem_of_nil|done]. }
  intros done c s (Hoks & Hds & Hcs' & Hls & Hes & Hlogs & Hps1 & Hps2) Hin.
  rewrite Hbody; [|by apply same_labels_same_deprels|done].
  destruct (Hcs c Hin) as [Hcd Hcp].
  destruct (decide (keep c)) as [Hk|Hk].
  - destruct (set_parent_succeeds s c p lp) as (s' & Hset & Hre & Hok' & _);
      try done.
    { by rewrite Hds. } { unfold live. by rewrite Hds. }
    exists s'. split; [done|]. destruct Hre as (Hd' & He' & Hl' & Hp' & Hlab').
    split; [done|]. split; [congruence|]. split.
    { eapply (chain_reparented_avoid s s' c p); [|done|done].
      by repeat split. }
    split; [by eapply same_labels_trans|].
    split; [congruence|]. split; [congruence|]. split.
    + intros x Hx Hkx. rewrite Hp'. destruct (decide (x = c)); [done|].
      apply Hps1; [|done]. apply elem_of_app in Hx as [?|Hx]; [done|].
      by apply list_elem_of_singleton in Hx.
    + intros x Hx. rewrite Hp'. destruct (decide (x = c)) as [->|Hxc].
      * destruct Hx. split; [|done]. apply elem_of_app. right. left.
      * apply Hps2. intros [Hxd Hkx]. apply Hx. split; [|done].
        apply elem_of_app. by left.
  - exists s. split; [done|]. split; [done|]. split; [done|]. split; [done|].
    split; [done|]. split; [done|]. split; [done|]. split.
    + intros x Hx Hkx. apply Hps1; [|done].
      apply elem_of_app in Hx as [?|Hx]; [done|].
      apply list_elem_of_singleton in Hx. by subst.
    + intros x Hx. apply Hps2. intros [Hxd Hkx]. apply Hx. split; [|done].
      apply elem_of_app. by left.
Qed.

(** ** Promotion *)

Lemma get_misc_set_misc_ne t n k v x k' :
  x ≠ n → get_misc (set_misc t n k v) x k' = get_misc t x k'.
Proof.
  intros Hx. unfold get_misc, set_misc. rewrite node_set_node.
  by destruct (decide (x = n)).
Qed.

Lemma get_misc_pass_misc_ne k src dst t x k' :
  x ≠ dst → get_misc (pass_misc k src dst t) x k' = get_misc t x k'.
Proof.
  intros Hx. unfold pass_misc. destruct (truthy _); [|done].
  by apply get_misc_set_misc_ne.
Qed.

Lemma empty_nodes_pass_misc k src dst t :
  empty_nodes (pass_misc k src dst t) = empty_nodes t
  ∧ log (pass_misc k src dst t) = log t.
Proof. unfold pass_misc. by destruct (truthy _). Qed.

(** The governors of a child and of its parent, on a well-formed tree. *)
Lemma child_chains t old new :
  tree_ok t → new ∈ children t old → old ∈ descendants t →
  ∃ g lg, get_parent t old = Some g ∧ live t g ∧ chain t g lg
          ∧ chain t old (g :: lg) ∧ chain t new (old :: g :: lg)
          ∧ NoDup (new :: old :: g :: lg).
Proof.
  intros Hok [Hnd Hnp]%elem_of_children Hold.
  destruct (ok_chain _ Hok old Hold) as (l & Hc & Hl).
  inversion Hc as [Heq|? g lg Hg Hcg]; subst; [by destruct (ok_root _ Hok)|].
  exists g, lg. split; [done|]. split; [by apply Forall_cons in Hl as [? _]|].
  split; [done|]. split; [done|].
  assert (chain t new (old :: g :: lg)) as Hcn by (by apply chain_step).
  split; [done|]. by eapply chain_NoDup; [apply Hok|].
Qed.

(** What [redraw_subtree] does when the new head is a child of the
    current head: it always goes through; the new head takes the place of
    the current head under the former governor; the current head and its
    other children hang from the new head, except the children attached
    by [goeswith], which stay; no relation label changes. *)
Lemma redraw_subtree_total new old t :
  tree_ok t → old ∈ descendants t → new ∈ children t old →
  ∃ t', redraw_subtree new old t = Ok t'
    ∧ tree_ok t' ∧ descendants t' = descendants t
    ∧ empty_nodes t' = empty_nodes t ∧ log t' = log t
    ∧ same_deprels t t'
    ∧ (∀ x k, x ≠ new → get_misc t' x k = get_misc t x k)
    ∧ get_parent t' new = get_parent t old
    ∧ get_parent t' old = Some new
    ∧ (∀ c, c ∈ children t old → c ≠ new →
         get_parent t' c
         = if decide (udeprel t c = "goeswith") then Some old else Some new)
    ∧ (∀ x, x ≠ old → get_parent t x ≠ Some old →
         get_parent t' x = get_parent t x)
    ∧ (∀ l, chain t old l → chain t' new l).
Proof.
  intros Hok Hold Hnew.
  destruct (child_chains t old new Hok Hnew Hold)
    as (g & lg & Hg & Hlg & Hcg & Hco & Hcn & Hnd).
  pose proof Hnew as [Hnewd Hnewp]%elem_of_children.
  apply NoDup_cons in Hnd as [Hn1 Hnd]. apply NoDup_cons in Hnd as [Hn2 Hnd].
  apply not_elem_of_cons in Hn1 as [Hno Hn1].
  (* the new head goes under the former governor *)
  destruct (set_parent_succeeds t new g lg) as (t1 & H1 & Hre1 & Hok1 & Hc1);
    try done.
  pose proof Hre1 as (Hd1 & He1 & Hl1 & Hp1 & Hlab1).
  (* the current head goes under the new head *)
  destruct (set_parent_succeeds t1 old new (g :: lg))
    as (t2 & H2 & Hre2 & Hok2 & Hc2); try done.
  { by rewrite Hd1. } { right. by rewrite Hd1. }
  { apply not_elem_of_cons. split; [done|]. done. }
  pose proof Hre2 as (Hd2 & He2 & Hl2 & Hp2 & Hlab2).
  assert (chain t2 new (g :: lg)) as Hc2n.
  { eapply (chain_reparented_avoid t1 t2 old new); [done|done|].
    apply not_elem_of_cons. split; [done|]. done. }
  set (t4 := pass_misc "CoordMember" old new (pass_misc "AposMember" old new t2)).
  assert (same_shape t2 t4) as Hs4
    by (eapply same_shape_trans; apply same_shape_pass_misc).
  assert (same_deprels t2 t4) as Hdp4
    by (eapply same_deprels_trans; apply same_deprels_pass_misc).
  assert (same_deprels t t4) as Hdp.
  { eapply same_deprels_trans; [|done].
    apply same_labels_same_deprels. by eapply same_labels_trans. }
  assert (∀ x, get_parent t4 x
               = if decide (x = old) then Some new
                 else if decide (x = new) then Some g else get_parent t x)
    as Hp4.
  { intros x. destruct Hs4 as [_ ->]. rewrite Hp2, Hp1. done. }
  assert (children t4 old = filter (λ c, c ≠ new) (children t old)) as Hch.
  { unfold children. destruct Hs4 as [-> _]. rewrite Hd2, Hd1.
    rewrite list_filter_filter. apply filter_ext_elem. intros x Hx.
    rewrite Hp4. destruct (decide (x = old)) as [->|Hxo].
    - split; [intros [= ->]; done|]. intros [_ Hp].
      destruct Hn2. rewrite Hg in Hp. injection Hp as <-. left.
    - destruct (decide (x = new)) as [->|Hxn].
      + split; [|by intros [? _]]. intros [= ->]. destruct Hn2. left.
      + tauto. }
  destruct (reparent_loop (λ c, udeprel t c ≠ "goeswith")
              (λ c t, if bool_decide (udeprel t c ≠ "goeswith")
                      then set_parent t c (Some new) else Ok t)
              new (g :: lg) (children t4 old) t4)
    as (t' & Hrun & Hok' & Hd' & Hc' & Hlab' & He' & Hl' & Hq1 & Hq2).
  { by eapply tree_ok_same_shape. }
  { right. destruct Hs4 as [-> _]. by rewrite Hd2, Hd1. }
  { by eapply chain_same_shape. }
  { intros c. rewrite Hch. intros [Hcn' [Hcd Hcp]%elem_of_children]%list_elem_of_filter.
    split; [destruct Hs4 as [-> _]; by rewrite Hd2, Hd1|].
    apply not_elem_of_cons. split; [done|].
    assert (chain t c (old :: g :: lg)) as Hcc by (by apply chain_step).
    pose proof (chain_NoDup t (ok_root_parent _ Hok) _ _ Hcc) as Hndc.
    apply NoDup_cons in Hndc as [Hndc _].
    intros Hin. apply Hndc. by right. }
  { intros c s Hs Hc. rewrite (same_deprels_udeprel _ _ _ Hs).
    rewrite (same_deprels_udeprel _ _ _ Hdp).
    by destruct (decide (udeprel t c ≠ "goeswith"));
      [rewrite bool_decide_eq_true_2|rewrite bool_decide_eq_false_2]. }
  exists t'. split.
  { unfold redraw_subtree. rewrite Hg, H1. simpl. rewrite H2. simpl.
    exact Hrun. }
  assert (new ∉ children t4 old) as Hnotnew.
  { rewrite Hch. intros [? _]%list_elem_of_filter. done. }
  assert (old ∉ children t4 old) as Hnotold.
  { rewrite Hch. intros [_ [_ Hp]%elem_of_children]%list_elem_of_filter.
    destruct Hn2. rewrite Hg in Hp. injection Hp as <-. left. }
  split; [done|]. split; [destruct Hs4 as [Hd4 _]; congruence|].
  destruct (empty_nodes_pass_misc "AposMember" old new t2) as [Hea Hla].
  destruct (empty_nodes_pass_misc "CoordMember" old new
              (pass_misc "AposMember" old new t2)) as [Hec Hlc].
  split; [subst t4; congruence|]. split; [subst t4; congruence|].
  split; [eapply same_deprels_trans; [done|by apply same_labels_same_deprels]|].
  split.
  { intros x k Hx. rewrite (same_labels_misc _ _ _ _ Hlab'). subst t4.
    rewrite !get_misc_pass_misc_ne by done.
    rewrite (same_labels_misc _ _ _ _ Hlab2).
    apply (same_labels_misc _ _ _ _ Hlab1). }
  split.
  { rewrite Hq2 by (by intros [? _]). rewrite Hp4.
    destruct (decide (new = old)); [done|]. by rewrite decide_True. }
  split.
  { rewrite Hq2 by (by intros [? _]). rewrite Hp4. by rewrite decide_True. }
  split.
  - intros c Hc Hcn'.
    assert (c ∈ children t4 old) as Hc4
      by (rewrite Hch; by apply list_elem_of_filter).
    destruct (decide (udeprel t c = "goeswith")) as [Hgw|Hgw].
    + rewrite Hq2 by (intros [_ ?]; done). rewrite Hp4.
      apply elem_of_children in Hc as [_ Hcp].
      destruct (decide (c = old)) as [->|]; [by destruct Hnotold|].
      by rewrite decide_False.
    + by apply Hq1.
  - split.
    + intros x Hxo Hxp. rewrite Hq2.
      * rewrite Hp4. rewrite decide_False by done.
        destruct (decide (x = new)) as [->|]; [congruence|done].
      * intros [Hx _]. rewrite Hch in Hx.
        apply list_elem_of_filter in Hx as [_ [_ ?]%elem_of_children]. done.
    + intros l Hl.
      by rewrite (chain_det t (ok_root_parent _ Hok) _ _ _ Hl Hco).
Qed.

(** Decidable facts about concrete sentences are settled by evaluation. *)
Ltac by_compute :=
  match goal with
  | |- ?P => apply (bool_decide_eq_true_1 P); vm_compute; reflexivity
  end.

(** "venit in ter urbem ,": the preposition "in" governs its orthographic
    continuation "ter" (by [goeswith]), the noun and a comma. *)
Definition inter_urbem : Root :=
  sentence
    [ tok "venit" "VERB" "v" "root" [("original_dep", PStr "PRED")] 0;
      tok "in" "ADP" "r" "case" [("original_dep", PStr "AuxP")] 1;
      tok "ter" "X" "r" "goeswith" [("original_dep", PStr "AuxY")] 2;
      tok "urbem" "NOUN" "n" "obl" [("original_dep", PStr "ADV")] 2;
      tok "," "PUNCT" "u" "punct" [("original_dep", PStr "AuxX")] 2 ].

Definition inter_urbem_promoted : Root :=
  or_else (redraw_subtree 4 2 inter_urbem) inter_urbem.

(** C4, as stated, fails: promoting "urbem" over "in", directly or through
    the bridge branch, leaves "urbem" with its own label "obl"; it does not
    take over "case", the former label of "in". *)
Lemma promoted_head_keeps_its_label :
  redraw_subtree 4 2 inter_urbem = Ok inter_urbem_promoted
  ∧ rewrite_bridge 2 inter_urbem = Ok inter_urbem_promoted
  ∧ get_parent inter_urbem_promoted 4 = get_parent inter_urbem 2
  ∧ deprel (node inter_urbem 2) = "case"
  ∧ deprel (node inter_urbem_promoted 4) = "obl"
  ∧ deprel (node inter_urbem_promoted 4) ≠ deprel (node inter_urbem 2).
Proof. vm_compute. repeat split; try reflexivity. discriminate. Qed.

(** C4, amended. [redraw_subtree new_head current_head], for a new head
    that is a child of the current head, and in particular for the single
    candidate of a bridge subtree, always goes through. It makes the new
    head a child of the former parent of the current head, makes the
    current head a child of the new head, and hands the other children of
    the current head over to the new head, except those attached by
    [goeswith], which stay where they are. It changes no relation label:
    the new head keeps its own. *)
Theorem redraw_subtree_promotes (new_head current_head : nat) (t : Root) :
  tree_ok t → current_head ∈ descendants t →
  new_head ∈ children t current_head →
  ∃ t', redraw_subtree new_head current_head t = Ok t'
    ∧ (filterM (bridge_candidate t) (children t current_head) = Ok [new_head]
       → rewrite_bridge current_head t = Ok t')
    ∧ get_parent t' new_head = get_parent t current_head
    ∧ get_parent t' current_head = Some new_head
    ∧ (∀ c, c ∈ children t current_head → c ≠ new_head →
         udeprel t c ≠ "goeswith" → get_parent t' c = Some new_head)
    ∧ (∀ c, c ∈ children t current_head → c ≠ new_head →
         udeprel t c = "goeswith" → get_parent t' c = Some current_head)
    ∧ (∀ x, deprel (node t' x) = deprel (node t x)).
Proof.
  intros Hok Hold Hnew.
  destruct (redraw_subtree_total new_head current_head t Hok Hold Hnew)
    as (t' & Hrun & _ & _ & _ & _ & Hdp & _ & Hpn & Hpo & Hpc & _ & _).
  exists t'. split; [done|]. split.
  { intros Hch. unfold rewrite_bridge. rewrite Hch. simpl. done. }
  split; [done|]. split; [done|]. split; [|split].
  - intros c Hc Hcn Hgw. rewrite (Hpc c Hc Hcn). by rewrite decide_False.
  - intros c Hc Hcn Hgw. rewrite (Hpc c Hc Hcn). by rewrite decide_True.
  - exact Hdp.
Qed.

(** The promotion of "urbem" over "in". *)
Lemma redraw_subtree_promotes_witness :
  tree_ok inter_urbem
  ∧ ∃ t', redraw_subtree 4 2 inter_urbem = Ok t'
    ∧ (filterM (bridge_candidate inter_urbem) (children inter_urbem 2) = Ok [4]
       → rewrite_bridge 2 inter_urbem = Ok t')
    ∧ get_parent t' 4 = get_parent inter_urbem 2
    ∧ get_parent t' 2 = Some 4
    ∧ (∀ c, c ∈ children inter_urbem 2 → c ≠ 4 →
         udeprel inter_urbem c ≠ "goeswith" → get_parent t' c = Some 4)
    ∧ (∀ c, c ∈ children inter_urbem 2 → c ≠ 4 →
         udeprel inter_urbem c = "goeswith" → get_parent t' c = Some 2)
    ∧ (∀ x, deprel (node t' x) = deprel (node inter_urbem x)).
Proof.
  assert (tree_ok inter_urbem) as Hok
    by (apply tree_okb_ok; vm_compute; reflexivity).
  split; [exact Hok|].
  apply (redraw_subtree_promotes 4 2 inter_urbem Hok).
  - by_compute.
  - by_compute.
Defined.

(** Promotion preceded by the assignment of the label of the current head
    to the new head, as the copula and ellipsis branches do it. *)
Lemma promote_with_label new old t :
  tree_ok t → old ∈ descendants t → new ∈ children t old →
  ∃ t', redraw_subtree new old (set_deprel t new (deprel (node t old))) = Ok t'
    ∧ tree_ok t' ∧ descendants t' = descendants t
    ∧ empty_nodes t' = empty_nodes t ∧ log t' = log t
    ∧ get_parent t' new = get_parent t old
    ∧ deprel (node t' new) = deprel (node t old)
    ∧ get_parent t' old = Some new
    ∧ (∀ x, x ≠ new → deprel (node t' x) = deprel (node t x))
    ∧ (∀ x k, x ≠ new → get_misc t' x k = get_misc t x k)
    ∧ (∀ l, chain t old l → chain t' new l).
Proof.
  intros Hok Hold Hnew.
  set (t0 := set_deprel t new (deprel (node t old))).
  pose proof (same_shape_set_deprel t new (deprel (node t old))) as Hs0.
  fold t0 in Hs0.
  destruct (redraw_subtree_total new old t0)
    as (t' & Hrun & Hok' & Hd' & He' & Hl' & Hdp & Hmisc & Hpn & Hpo & _ & _ & Hch).
  { by eapply tree_ok_same_shape. }
  { by destruct Hs0 as [-> _]. }
  { by rewrite (same_shape_children _ _ _ Hs0). }
  exists t'. split; [done|]. split; [done|]. split; [done|].
  split; [done|]. split; [done|].
  split; [rewrite Hpn; by destruct Hs0 as [_ ->]|].
  split; [rewrite Hdp; subst t0; rewrite deprel_set_deprel; by rewrite decide_True|].
  split; [done|]. split.
  { intros x Hx. rewrite Hdp. subst t0. rewrite deprel_set_deprel.
    by rewrite decide_False. }
  split.
  { intros x k Hx. rewrite Hmisc by done. unfold get_misc, t0, set_deprel.
    rewrite node_set_node. by destruct (decide (x = new)). }
  intros l Hl. apply Hch. by eapply chain_same_shape.
Qed.

Lemma get_first_in_priority_best t chs priority w :
  get_first_in_priority t chs priority = Some w →
  w ∈ chs
  ∧ ∃ i, priority !! i = Some (deprel (node t w))
         ∧ ∀ c j, c ∈ chs → priority !! j = Some (deprel (node t c)) → i ≤ j.
Proof.
  induction priority as [|lab rest IH]; [done|]. simpl.
  destruct (List.find _ chs) as [c'|] eqn:Hf.
  - intros [= <-]. apply find_some in Hf as [Hin Hlab].
    apply bool_decide_eq_true in Hlab. split; [by apply list_elem_of_In|].
    exists 0. split; [by rewrite Hlab|]. intros; lia.
  - intros Hw. destruct (IH Hw) as (Hin & i & Hi & Hbest).
    split; [done|]. exists (S i). split; [done|].
    intros c [|j] Hc Hj; simpl in Hj.
    + injection Hj as ->. apply list_elem_of_In in Hc.
      pose proof (find_none _ _ Hf c Hc) as Hn. simpl in Hn.
      by rewrite bool_decide_eq_true_2 in Hn.
    + pose proof (Hbest c j Hc Hj). lia.
Qed.

Lemma get_first_in_priority_None t chs priority :
  get_first_in_priority t chs priority = None ↔
  ∀ c, c ∈ chs → deprel (node t c) ∉ priority.
Proof.
  induction priority as [|lab rest IH]; simpl.
  - split; [|done]. intros _ c _. apply not_elem_of_nil.
  - destruct (List.find _ chs) as [c'|] eqn:Hf.
    + split; [done|]. intros Hall. apply find_some in Hf as [Hin Hlab].
      apply bool_decide_eq_true in Hlab. apply list_elem_of_In in Hin.
      destruct (Hall c' Hin). rewrite Hlab. left.
    + rewrite IH. split.
      * intros Hall c Hc [Heq|Hin]%elem_of_cons; [|by apply (Hall c Hc)].
        apply list_elem_of_In in Hc.
        pose proof (find_none _ _ Hf c Hc) as Hn. simpl in Hn.
        by rewrite bool_decide_eq_true_2 in Hn.
      * intros Hall c Hc Hin. apply (Hall c Hc). by right.
Qed.

Lemma rewrite_ellipsis_total subtree t w :
  tree_ok t → subtree ∈ descendants t →
  get_first_in_priority t (children t subtree) order_list = Some w →
  ∃ t', rewrite_ellipsis subtree t = Ok t'
    ∧ log t' = log t
    ∧ get_parent t' w = get_parent t subtree
    ∧ deprel (node t' w) = deprel (node t subtree)
    ∧ get_parent t' subtree = Some w.
Proof.
  intros Hok Hs Hw. pose proof (get_first_in_priority_elem _ _ _ _ Hw) as Hin.
  destruct (promote_with_label w subtree t Hok Hs Hin)
    as (t' & Hrun & _ & _ & _ & Hl & Hp & Hd & Hps & _).
  exists t'. unfold rewrite_ellipsis. rewrite Hw. done.
Qed.

Lemma rewrite_copula_total subtree t pnom others :
  tree_ok t → subtree ∈ descendants t →
  filter (λ c, get_misc t c "original_dep" = PStr "PNOM") (children t subtree)
  = pnom :: others →
  ∃ t', rewrite_copula subtree t = Ok t'
    ∧ get_parent t' pnom = get_parent t subtree
    ∧ deprel (node t' pnom) = deprel (node t subtree)
    ∧ pnom ∈ descendants t'
    ∧ (is_artificial t subtree = false →
         get_parent t' subtree = Some pnom
         ∧ deprel (node t' subtree) = "cop"
         ∧ log t' = log t)
    ∧ (is_artificial t subtree = true → subtree ∉ descendants t')
    ∧ (∀ m, (ERROR, m) ∈ log t' → (ERROR, m) ∈ log t).
Proof.
  intros Hok Hs Hf.
  assert (pnom ∈ children t subtree) as Hin.
  { eapply (proj1 (list_elem_of_filter _ _ _)). rewrite Hf. left. }
  destruct (promote_with_label pnom subtree t Hok Hs Hin)
    as (t1 & Hrun & Hok1 & Hd1 & _ & Hl1 & Hp1 & Hdp1 & Hps1 & Hdo1 & Hm1 & Hch1).
  assert (pnom ≠ subtree) as Hne.
  { intros ->. destruct (child_chains t subtree subtree Hok Hin Hs)
      as (g & lg & _ & _ & _ & _ & _ & Hnd).
    apply NoDup_cons in Hnd as [Hnd _]. apply Hnd. left. }
  assert (is_artificial t1 subtree = is_artificial t subtree) as Hart.
  { unfold is_artificial. by rewrite Hm1. }
  unfold rewrite_copula. rewrite Hf. cbn zeta. rewrite Hrun. simpl.
  rewrite Hart. destruct (is_artificial t subtree) eqn:Ha.
  - destruct (remove t1 subtree Warn) as [t2|e] eqn:Hrm.
    2: { unfold remove in Hrm. rewrite bool_decide_eq_true_2 in Hrm by congruence.
         done. }
    pose proof Hrm as Hrm'. apply remove_warn_Ok in Hrm' as (_ & Hd2 & _ & Hn2).
    assert (∀ x, node t2 x = node t1 x) as Hnode
      by (intros x; unfold node; by rewrite Hn2).
    destruct (child_chains t subtree pnom Hok Hin Hs)
      as (g & lg & Hg & Hlg & Hcg & Hco & Hcn & Hnd).
    pose proof (Hch1 _ Hco) as Hc1.
    assert (in_subtree t1 subtree pnom = false) as Hsub.
    { rewrite (in_subtree_ok t1 subtree pnom (g :: lg) Hok1); [|right|done].
      - apply bool_decide_eq_false_2. apply NoDup_cons in Hnd as [_ Hnd].
        apply NoDup_cons in Hnd as [Hnd _].
        intros [?|?]%elem_of_cons; [done|]. done.
      - rewrite Hd1. by apply elem_of_children in Hin as [? _]. }
    exists (logging INFO (RemovingNode subtree) t2).
    assert (∀ x, node (logging INFO (RemovingNode subtree) t2) x = node t1 x)
      as Hnode3 by (intros x; unfold node; simpl; by rewrite Hn2).
    split; [done|]. unfold get_parent. rewrite !Hnode3.
    split; [done|]. split; [done|]. simpl. split.
    { rewrite Hd2. apply list_elem_of_filter. split; [done|].
      rewrite Hd1. by apply elem_of_children in Hin as [? _]. }
    split; [done|]. split.
    { intros _. rewrite Hd2. intros [Hsub' _]%list_elem_of_filter.
      unfold in_subtree in Hsub'. by rewrite bool_decide_eq_true_2 in Hsub'. }
    intros m Hm. apply elem_of_app in Hm as [Hm|Hm].
    + unfold remove in Hrm. rewrite bool_decide_eq_true_2 in Hrm by congruence.
      injection Hrm as <-. simpl in Hm. rewrite <- Hl1.
      destruct (children t1 subtree); [done|]. simpl in Hm.
      apply elem_of_app in Hm as [Hm|Hm]; [done|].
      apply list_elem_of_singleton in Hm. done.
    + apply list_elem_of_singleton in Hm. done.
  - assert (set_parent t1 subtree (Some pnom) = Ok t1) as ->.
    { unfold set_parent. by rewrite bool_decide_eq_true_2. }
    simpl. eexists. split; [done|].
    pose proof (same_shape_set_deprel t1 subtree "cop") as [_ Hsp].
    rewrite !Hsp, !deprel_set_deprel.
    rewrite decide_False by done. rewrite decide_True by done.
    split; [done|]. split; [done|]. split; [simpl; by rewrite Hd1;
      apply elem_of_children in Hin as [? _]|].
    split; [done|]. split; [done|]. simpl. by rewrite Hl1.
Qed.

(** ** Ellipsis *)

(** "venit [0] cras Romae Caesaris": an elided predicate governing an
    adverb, an oblique and a nominal modifier. *)
Definition romae : Root :=
  sentence
    [ tok "venit" "VERB" "v" "root" [("original_dep", PStr "PRED")] 0;
      tok "[0]" "VERB" "v" "conj" [("original_dep", PStr "ExD_HEAD")] 1;
      tok "cras" "ADV" "d" "advmod" [("original_dep", PStr "ADV")] 2;
      tok "Romae" "NOUN" "n" "obl" [("original_dep", PStr "ADV")] 2;
      tok "Caesaris" "NOUN" "n" "nmod" [("original_dep", PStr "ATR")] 2 ].

(** C6. In the ellipsis branch the promoted child is a child whose
    relation label comes first in the priority list
    nsubj > obj > iobj > obl > advmod > csubj > xcomp > ccomp > advcl >
    dislocated > vocative > nmod: no child bears a label that stands
    earlier in the list; the rewrite goes through and the promoted child
    takes the former parent and the former label of the subtree head. A
    child is promoted as soon as some child bears a label of the list. For
    children labelled obl, advmod and nmod, in any order, the obl child is
    the one promoted. If no child bears a label of the list, the outcome
    is the sentence as it was, with one error record appended to the
    log. *)
Theorem rewrite_ellipsis_promotes_by_priority (subtree : nat) (t : Root) :
  tree_ok t → subtree ∈ descendants t →
  (∀ w, get_first_in_priority t (children t subtree) order_list = Some w →
     w ∈ children t subtree
     ∧ (∃ i, order_list !! i = Some (deprel (node t w))
             ∧ ∀ c j, c ∈ children t subtree →
                      order_list !! j = Some (deprel (node t c)) → i ≤ j)
     ∧ ∃ t', rewrite_ellipsis subtree t = Ok t'
             ∧ get_parent t' w = get_parent t subtree
             ∧ deprel (node t' w) = deprel (node t subtree)
             ∧ get_parent t' subtree = Some w)
  ∧ ((∃ c, c ∈ children t subtree ∧ deprel (node t c) ∈ order_list) →
     is_Some (get_first_in_priority t (children t subtree) order_list))
  ∧ (∀ a b c, children t subtree ≡ₚ [a; b; c] →
       deprel (node t a) = "obl" → deprel (node t b) = "advmod" →
       deprel (node t c) = "nmod" →
       get_first_in_priority t (children t subtree) order_list = Some a)
  ∧ ((∀ c, c ∈ children t subtree → deprel (node t c) ∉ order_list) →
     rewrite_ellipsis subtree t
     = Ok (logging ERROR (NoPromotionCandidates subtree) t)).
Proof.
  intros Hok Hs. split; [|split; [|split]].
  - intros w Hw.
    destruct (get_first_in_priority_best _ _ _ _ Hw) as (Hin & Hbest).
    destruct (rewrite_ellipsis_total subtree t w Hok Hs Hw)
      as (t' & Hrun & _ & Hp & Hd & Hps).
    split; [done|]. split; [done|]. by exists t'.
  - intros (c & Hc & Hlab).
    destruct (get_first_in_priority t _ _) eqn:Hg; [done|].
    rewrite get_first_in_priority_None in Hg. by destruct (Hg c Hc).
  - intros a b c Hperm Ha Hb Hc.
    destruct (get_first_in_priority t _ _) as [w|] eqn:Hg.
    + destruct (get_first_in_priority_best _ _ _ _ Hg) as (Hin & i & Hi & Hbest).
      assert (i ≤ 3) as Hi3.
      { apply (Hbest a); [rewrite Hperm; left|by rewrite Ha]. }
      rewrite Hperm in Hin.
      apply elem_of_cons in Hin as [->|Hin]; [done|].
      exfalso. apply elem_of_cons in Hin as [->|Hin].
      * rewrite Hb in Hi. by destruct i as [|[|[|[|?]]]]; try lia.
      * apply list_elem_of_singleton in Hin as ->.
        rewrite Hc in Hi. by destruct i as [|[|[|[|?]]]]; try lia.
    + rewrite get_first_in_priority_None in Hg.
      destruct (Hg a); [rewrite Hperm; left|]. rewrite Ha. by_compute.
  - intros Hnone. apply get_first_in_priority_None in Hnone.
    unfold rewrite_ellipsis. by rewrite Hnone.
Qed.

(** "Romae", the oblique, is promoted over "cras" and "Caesaris". *)
Lemma rewrite_ellipsis_promotes_by_priority_witness :
  tree_ok romae ∧ 2 ∈ descendants romae
  ∧ get_first_in_priority romae (children romae 2) order_list = Some 4
  ∧ ∃ t', rewrite_ellipsis 2 romae = Ok t'
          ∧ get_parent t' 4 = get_parent romae 2
          ∧ deprel (node t' 4) = deprel (node romae 2)
          ∧ get_parent t' 2 = Some 4.
Proof.
  assert (tree_ok romae) as Hok by (apply tree_okb_ok; vm_compute; reflexivity).
  assert (2 ∈ descendants romae) as Hin by by_compute.
  destruct (rewrite_ellipsis_promotes_by_priority 2 romae Hok Hin)
    as (Hbest & _ & Hobl & _).
  assert (get_first_in_priority romae (children romae 2) order_list = Some 4)
    as Hw by (apply (Hobl 4 3 5); by_compute).
  destruct (Hbest 4 Hw) as (_ & _ & Hrun).
  split; [exact Hok|]. split; [exact Hin|]. split; [exact Hw|exact Hrun].
Defined.

(** ** Copula *)

(** "Caesar est consul imperator": a copula with two predicate
    nominals. *)
Definition consul : Root :=
  sentence
    [ tok "Caesar" "PROPN" "n" "nsubj" [("original_dep", PStr "SBJ")] 2;
      tok "est" "AUX" "v" "root" [("original_dep", PStr "PRED_COP")] 0;
      tok "consul" "NOUN" "n" "xcomp" [("original_dep", PStr "PNOM")] 2;
      tok "imperator" "NOUN" "n" "xcomp" [("original_dep", PStr "PNOM")] 2 ].

Definition consul_rewritten : Root :=
  or_else (rewrite_copula 2 consul) consul.

Definition romae_rewritten : Root :=
  or_else (rewrite_ellipsis 2 romae) romae.

(** C8, as stated, fails: the copula with two predicate nominals is
    rewritten (the first one is promoted to the root) and nothing is
    logged; likewise the ellipsis with three eligible children. *)
Lemma ambiguous_subtrees_are_rewritten :
  filter (λ c, get_misc consul c "original_dep" = PStr "PNOM")
         (children consul 2) = [3; 4]
  ∧ rewrite_copula 2 consul = Ok consul_rewritten
  ∧ get_parent consul 3 = Some 2
  ∧ get_parent consul_rewritten 3 = Some 0
  ∧ get_parent consul_rewritten 2 = Some 3
  ∧ log consul_rewritten = []
  ∧ rewrite_ellipsis 2 romae = Ok romae_rewritten
  ∧ get_parent romae 4 = Some 2
  ∧ get_parent romae_rewritten 4 = Some 1
  ∧ log romae_rewritten = [].
Proof. vm_compute. repeat split; reflexivity. Qed.

(** C8, amended. More than one candidate is not a failure in the copula
    and ellipsis branches. A copula subtree with one or more predicate
    nominals promotes the first of them in word order: the rewrite goes
    through, the promoted child takes the former parent and label of the
    subtree head, and no error is logged (nothing at all when the head is
    not artificial). An ellipsis subtree with an eligible child promotes
    the child chosen by priority and logs nothing. Only a subtree without
    any candidate is left as it was, with one error record logged. *)
Theorem several_candidates_first_is_promoted (subtree : nat) (t : Root) :
  tree_ok t → subtree ∈ descendants t →
  (∀ pnom others,
     filter (λ c, get_misc t c "original_dep" = PStr "PNOM")
            (children t subtree) = pnom :: others →
     ∃ t', rewrite_copula subtree t = Ok t'
           ∧ get_parent t' pnom = get_parent t subtree
           ∧ deprel (node t' pnom) = deprel (node t subtree)
           ∧ (is_artificial t subtree = false →
                get_parent t' subtree = Some pnom ∧ log t' = log t)
           ∧ (∀ m, (ERROR, m) ∈ log t' → (ERROR, m) ∈ log t))
  ∧ (∀ w, get_first_in_priority t (children t subtree) order_list = Some w →
     ∃ t', rewrite_ellipsis subtree t = Ok t'
           ∧ get_parent t' w = get_parent t subtree
           ∧ deprel (node t' w) = deprel (node t subtree)
           ∧ log t' = log t)
  ∧ (filter (λ c, get_misc t c "original_dep" = PStr "PNOM")
            (children t subtree) = [] →
     rewrite_copula subtree t = Ok (logging ERROR (NoPNOM subtree) t))
  ∧ (get_first_in_priority t (children t subtree) order_list = None →
     rewrite_ellipsis subtree t
     = Ok (logging ERROR (NoPromotionCandidates subtree) t)).
Proof.
  intros Hok Hs. split; [|split; [|split]].
  - intros pnom others Hf.
    destruct (rewrite_copula_total subtree t pnom others Hok Hs Hf)
      as (t' & Hrun & Hp & Hd & _ & Hna & _ & Hlog).
    exists t'. split; [done|]. split; [done|]. split; [done|].
    split; [|done]. intros Ha. by destruct (Hna Ha) as (? & _ & ?).
  - intros w Hw.
    destruct (rewrite_ellipsis_total subtree t w Hok Hs Hw)
      as (t' & Hrun & Hl & Hp & Hd & _).
    by exists t'.
  - intros Hf. unfold rewrite_copula. by rewrite Hf.
  - intros Hg. unfold rewrite_ellipsis. by rewrite Hg.
Qed.

(** "consul", the first of two predicate nominals, is promoted. *)
Lemma several_candidates_first_is_promoted_witness :
  tree_ok consul ∧ 2 ∈ descendants consul
  ∧ ∃ t', rewrite_copula 2 consul = Ok t'
          ∧ get_parent t' 3 = get_parent consul 2
          ∧ deprel (node t' 3) = deprel (node consul 2)
          ∧ (is_artificial consul 2 = false →
               get_parent t' 2 = Some 3 ∧ log t' = log consul)
          ∧ (∀ m, (ERROR, m) ∈ log t' → (ERROR, m) ∈ log consul).
Proof.
  assert (tree_ok consul) as Hok by (apply tree_okb_ok; vm_compute; reflexivity).
  assert (2 ∈ descendants consul) as Hin by by_compute.
  destruct (several_candidates_first_is_promoted 2 consul Hok Hin)
    as (Hcop & _).
  split; [exact Hok|]. split; [exact Hin|].
  apply (Hcop 3 [4]). vm_compute. reflexivity.
Defined.

(** ** Coordination *)

Lemma get_misc_set_deprel t n d x k :
  get_misc (set_deprel t n d) x k = get_misc t x k.
Proof.
  unfold get_misc, set_deprel. rewrite node_set_node.
  by destruct (decide (x = n)) as [->|].
Qed.

(** The loop over the non-first members: each is attached to [p] and
    relabelled [lab]. *)
Lemma members_loop p lp lab cs t0 :
  tree_ok t0 → live t0 p → chain t0 p lp →
  (∀ c, c ∈ cs → c ∈ descendants t0 ∧ c ∉ p :: lp) →
  ∃ t', for_each (λ m t, t ← set_parent t m (Some p) ; Ok (set_deprel t m lab))
                 cs t0 = Ok t'
        ∧ tree_ok t' ∧ descendants t' = descendants t0
        ∧ chain t' p lp
        ∧ (∀ x k, get_misc t' x k = get_misc t0 x k)
        ∧ (∀ x, x ∈ cs → get_parent t' x = Some p ∧ deprel (node t' x) = lab)
        ∧ (∀ x, x ∉ cs → get_parent t' x = get_parent t0 x
                         ∧ deprel (node t' x) = deprel (node t0 x)).
Proof.
  intros Hok Hlp Hc Hcs.
  apply (for_each_total (λ done s,
    tree_ok s ∧ descendants s = descendants t0 ∧ chain s p lp
    ∧ (∀ x k, get_misc s x k = get_misc t0 x k)
    ∧ (∀ x, x ∈ done → get_parent s x = Some p ∧ deprel (node s x) = lab)
    ∧ (∀ x, x ∉ done → get_parent s x = get_parent t0 x
                        ∧ deprel (node s x) = deprel (node t0 x)))).
  { split; [done|]. split; [done|]. split; [done|]. split; [done|].
    split; [by intros x ?%elem_of_nil|done]. }
  intros done c s (Hoks & Hds & Hcs' & Hms & Hin & Hout) Hc'.
  destruct (Hcs c Hc') as [Hcd Hcp].
  destruct (set_parent_succeeds s c p lp) as (s1 & Hset & Hre & Hok1 & _);
    try done.
  { by rewrite Hds. } { unfold live. by rewrite Hds. }
  pose proof Hre as (Hd1 & _ & _ & Hp1 & Hlab1).
  exists (set_deprel s1 c lab). rewrite Hset. split; [done|].
  pose proof (same_shape_set_deprel s1 c lab) as Hss.
  split; [by eapply tree_ok_same_shape|].
  split; [destruct Hss as [-> _]; congruence|].
  split.
  { eapply chain_same_shape; [done|].
    by eapply (chain_reparented_avoid s s1 c p). }
  split.
  { intros x k. rewrite get_misc_set_deprel.
    rewrite (same_labels_misc _ _ _ _ Hlab1). apply Hms. }
  destruct Hss as [_ Hss]. split.
  - intros x Hx. rewrite Hss, Hp1, deprel_set_deprel.
    destruct (decide (x = c)) as [->|Hxc]; [done|].
    rewrite (same_labels_deprel _ _ _ Hlab1). apply Hin.
    apply elem_of_app in Hx as [?|Hx]; [done|].
    by apply list_elem_of_singleton in Hx.
  - intros x Hx. rewrite Hss, Hp1, deprel_set_deprel.
    assert (x ≠ c) as Hxc.
    { intros ->. apply Hx. apply elem_of_app. right. left. }
    rewrite !decide_False by done.
    rewrite (same_labels_deprel _ _ _ Hlab1). apply Hout.
    intros Hd. apply Hx. apply elem_of_app. by left.
Qed.

Lemma attach_right_loop_find element attr val bros t :
  attach_right_loop element attr val bros t
  = match filter (λ b, attr t b = val) bros with
    | [] => Ok t
    | b :: _ => set_parent t element (Some b)
    end.
Proof.
  induction bros as [|b bros IH]; [done|]. simpl. rewrite filter_cons.
  case_bool_decide; [by rewrite decide_True|by rewrite decide_False].
Qed.

(** The conjuncts to the right: the children of [first] labelled [conj]
    that do not precede [x], in word order. *)
Definition right_conjuncts (t : Root) (first x : nat) : list nat :=
  filter (λ b, udeprel t b = "conj" ∧ precedes t b x = false)
         (children t first).

(** The nodes the last pass of the coordination branch moves. *)
Definition trailing (t : Root) (first c : nat) : Prop :=
  (udeprel t c = "cc" ∨ udeprel t c = "punct") ∧ precedes t c first = false.

#[global] Instance trailing_dec t first c : Decision (trailing t first c).
Proof. unfold trailing. apply _. Defined.

(** The loop rule, with the position of the element at hand. *)
Lemma for_each_split {A S} (I : list A → S → Prop)
  (body : A → S → result S) xs s0 :
  I [] s0 →
  (∀ done c rest s, xs = done ++ c :: rest → I done s →
     ∃ s', body c s = Ok s' ∧ I (done ++ [c]) s') →
  ∃ s', for_each body xs s0 = Ok s' ∧ I xs s'.
Proof.
  intros H0 Hstep.
  assert (∀ rest done s, xs = done ++ rest → I done s →
          ∃ s', for_each body rest s = Ok s' ∧ I xs s') as Hgen.
  { induction rest as [|c rest IH]; intros done s Hxs Hs.
    - exists s. rewrite app_nil_r in Hxs. subst. by split.
    - destruct (Hstep done c rest s Hxs Hs) as (s1 & Hb & H1).
      destruct (IH (done ++ [c]) s1) as (s' & Hr & H');
        [by rewrite <- app_assoc|done|].
      exists s'. simpl. rewrite Hb. by split. }
  by apply (Hgen xs [] s0).
Qed.

Lemma precedes_same_descendants t t' a b :
  descendants t' = descendants t → precedes t' a b = precedes t a b.
Proof. intros Hd. unfold precedes, ord. by rewrite Hd. Qed.

Lemma children_NoDup t n : tree_ok t → NoDup (children t n).
Proof. intros Hok. apply NoDup_filter, Hok. Qed.

Lemma trailing_test t first c :
  (bool_decide (udeprel t c = "cc") || bool_decide (udeprel t c = "punct"))
  && bool_decide (precedes t c first = false)
  = bool_decide (trailing t first c).
Proof.
  symmetry. destruct (_ && _) eqn:E.
  - apply bool_decide_eq_true_2.
    apply andb_true_iff in E as [E1%orb_true_iff E2].
    rewrite !bool_decide_eq_true in E1. apply bool_decide_eq_true in E2.
    by split.
  - apply bool_decide_eq_false_2. intros [H1 H2].
    apply andb_false_iff in E as [E%orb_false_iff|E].
    + rewrite !bool_decide_eq_false in E. tauto.
    + by apply bool_decide_eq_false in E.
Qed.

(** The last pass of the coordination branch: every child of [first]
    labelled [cc] or [punct] that does not precede [first] goes to the
    first conjunct to its right, if there is one. *)
Lemma last_pass first lA t5 :
  tree_ok t5 → first ∈ descendants t5 → chain t5 first lA →
  ∃ t', for_each (λ c t,
                    if (bool_decide (udeprel t c = "cc")
                        || bool_decide (udeprel t c = "punct"))
                       && bool_decide (precedes t c first = false)
                    then attach_right c udeprel "conj" t
                    else Ok t)
                 (children t5 first) t5 = Ok t'
    ∧ tree_ok t' ∧ descendants t' = descendants t5 ∧ same_labels t5 t'
    ∧ (∀ x, x ∈ children t5 first → trailing t5 first x →
         get_parent t' x = Some (hd first (right_conjuncts t5 first x)))
    ∧ (∀ x, ¬ (x ∈ children t5 first ∧ trailing t5 first x) →
         get_parent t' x = get_parent t5 x)
    ∧ (∀ x, right_conjuncts t' first x = right_conjuncts t5 first x).
Proof.
  intros Hok Hfirst HcA.
  pose proof (children_NoDup t5 first Hok) as Hnd.
  set (I := λ (done : list nat) (s : Root),
    tree_ok s ∧ descendants s = descendants t5 ∧ same_labels t5 s
    ∧ chain s first lA
    ∧ (∀ x, x ∈ done → trailing t5 first x →
         get_parent s x = Some (hd first (right_conjuncts t5 first x)))
    ∧ (∀ x, ¬ (x ∈ done ∧ trailing t5 first x) →
         get_parent s x = get_parent t5 x)).
  assert (∀ done s x, I done s →
          right_conjuncts s first x = right_conjuncts t5 first x) as Hrc.
  { intros done s x (_ & Hds & Hls & _ & _ & Hout).
    unfold right_conjuncts, children. rewrite Hds, !list_filter_filter.
    apply filter_ext_elem. intros b Hb.
    rewrite (same_labels_udeprel _ _ _ Hls).
    rewrite (precedes_same_descendants _ _ _ _ Hds).
    split; intros [[Hconj Hpre] Hp]; (split; [done|]).
    - rewrite <- Hout; [done|]. intros [_ [[Hu|Hu] _]]; congruence.
    - rewrite Hout; [done|]. intros [_ [[Hu|Hu] _]]; congruence. }
  destruct (for_each_split I
    (λ c t, if (bool_decide (udeprel t c = "cc")
                || bool_decide (udeprel t c = "punct"))
               && bool_decide (precedes t c first = false)
            then attach_right c udeprel "conj" t else Ok t)
    (children t5 first) t5) as (t' & Hrun & HI).
  { split; [done|]. split; [done|]. split; [apply same_labels_refl|].
    split; [done|]. split; [by intros x ?%elem_of_nil|done]. }
  { intros done c rest s Hxs HIs. pose proof (Hrc _ _ c HIs) as Hrcc.
    pose proof HIs as (Hoks & Hds & Hls & Hcs & Hin & Hout).
    assert (c ∈ children t5 first) as Hc
      by (rewrite Hxs; apply elem_of_app; right; left).
    assert (c ∉ done) as Hcd.
    { rewrite Hxs in Hnd. apply NoDup_app in Hnd as (_ & Hnd & _).
      intros Hd. apply (Hnd c Hd). left. }
    assert (get_parent s c = Some first) as Hpc.
    { rewrite Hout by (by intros [? _]). by apply elem_of_children in Hc as [_ ?]. }
    assert (((bool_decide (udeprel s c = "cc")
              || bool_decide (udeprel s c = "punct"))
             && bool_decide (precedes s c first = false))
            = bool_decide (trailing t5 first c)) as ->.
    { rewrite (same_labels_udeprel _ _ _ Hls).
      rewrite (precedes_same_descendants _ _ _ _ Hds). apply trailing_test. }
    assert (∀ s', I done s' ∨ (get_parent s' c = Some (hd first (right_conjuncts t5 first c))
              ∧ trailing t5 first c ∧ tree_ok s' ∧ descendants s' = descendants t5
              ∧ same_labels t5 s' ∧ chain s' first lA
              ∧ ∀ x, x ≠ c → get_parent s' x = get_parent s x) →
            (trailing t5 first c → get_parent s' c
               = Some (hd first (right_conjuncts t5 first c))) →
            I (done ++ [c]) s') as Hext.
    { intros s' Hs' Htr.
      assert (tree_ok s' ∧ descendants s' = descendants t5
              ∧ same_labels t5 s' ∧ chain s' first lA
              ∧ ∀ x, x ≠ c → get_parent s' x = get_parent s x)
        as (Ho' & Hd' & Hl' & Hc' & Hp').
      { destruct Hs' as [(Ho' & Hd' & Hl' & Hc' & Hin' & Hout')|
                         (_ & _ & ? & ? & ? & ? & ?)]; [|done].
        split; [done|]. split; [done|]. split; [done|]. split; [done|].
        intros x Hxc. destruct (decide (x ∈ done ∧ trailing t5 first x))
          as [[Hxd Hxt]|Hn].
        - by rewrite Hin', Hin.
        - by rewrite Hout', Hout. }
      split; [done|]. split; [done|]. split; [done|]. split; [done|]. split.
      - intros x [Hx|Hx]%elem_of_app Hxt.
        + rewrite Hp' by (by intros ->). by apply Hin.
        + apply list_elem_of_singleton in Hx as ->. by apply Htr.
      - intros x Hx. destruct (decide (x = c)) as [->|Hxc].
        + destruct Hs' as [(_ & _ & _ & _ & _ & Hout')|(_ & Ht & _)].
          * apply Hout'. by intros [? _].
          * destruct Hx. split; [|done]. apply elem_of_app. right. left.
        + rewrite Hp' by done. apply Hout. intros [Hxd Hxt]. apply Hx.
          split; [|done]. apply elem_of_app. by left. }
    case_bool_decide as Htr.
    2: { exists s. split; [done|]. apply Hext; [by left|done]. }
    unfold attach_right. rewrite Hpc, attach_right_loop_find.
    rewrite list_filter_filter.
    assert (filter (λ b, udeprel s b = "conj" ∧ precedes s b c = false)
                   (children s first) = right_conjuncts t5 first c) as ->
      by exact Hrcc.
    destruct (right_conjuncts t5 first c) as [|b K] eqn:HK.
    { exists s. split; [done|]. apply Hext; [by left|by intros _]. }
    assert (b ∈ right_conjuncts s first c) as Hb by (rewrite Hrcc; left).
    apply list_elem_of_filter in Hb as [[Hbconj _] [Hbd Hbp]%elem_of_children].
    assert (chain s c (first :: lA)) as Hcc by (by apply chain_step).
    pose proof (chain_NoDup s (ok_root_parent _ Hoks) _ _ Hcc) as Hndc.
    apply NoDup_cons in Hndc as [Hndc _].
    destruct (set_parent_succeeds s c b (first :: lA))
      as (s' & Hset & Hre & Hok' & _); try done.
    { rewrite Hds. by apply elem_of_children in Hc as [? _]. }
    { by right. } { by apply chain_step. }
    { apply not_elem_of_cons. split; [|done]. intros ->.
      destruct Htr as [[Hu|Hu] _]; rewrite (same_labels_udeprel _ _ _ Hls) in Hbconj;
        congruence. }
    exists s'. split; [done|]. pose proof Hre as (Hd' & _ & _ & Hp' & Hl').
    apply Hext; [|intros _; rewrite Hp'; by rewrite decide_True].
    right. split; [rewrite Hp'; by rewrite decide_True|]. split; [done|].
    split; [done|]. split; [congruence|].
    split; [by eapply same_labels_trans|]. split.
    - by eapply (chain_reparented_avoid s s' c b).
    - intros x Hxc. rewrite Hp'. by rewrite decide_False. }
  exists t'. split; [done|]. pose proof (Hrc _ _ first HI) as _.
  pose proof HI as (Ho' & Hd' & Hl' & _ & Hin' & Hout').
  split; [done|]. split; [done|]. split; [done|]. split; [done|].
  split; [done|]. intros x. by apply (Hrc _ _ x HI).
Qed.

Lemma Ok_bind {A B} (a : A) (k : A → result B) : Ok a ≫= k = k a.
Proof. reflexivity. Qed.

Lemma chain_parent_ext t t' n l :
  (∀ x, get_parent t' x = get_parent t x) → chain t n l → chain t' n l.
Proof.
  intros Hp. induction 1 as [|n p l Hn _ IH]; [constructor|].
  apply chain_step; [by rewrite Hp|done].
Qed.

(** "Caesar Brutus et Cicero veniunt": three coordinated subjects under
    the coordinator "et". *)
Definition tres : Root :=
  sentence
    [ tok "Caesar" "PROPN" "n" "nsubj"
          [("original_dep", PStr "SBJ_CO"); ("CoordMember", PBool true)] 3;
      tok "Brutus" "PROPN" "n" "nsubj"
          [("original_dep", PStr "SBJ_CO"); ("CoordMember", PBool true)] 3;
      tok "et" "CCONJ" "c" "cc" [("original_dep", PStr "COORD")] 5;
      tok "Cicero" "PROPN" "n" "nsubj"
          [("original_dep", PStr "SBJ_CO"); ("CoordMember", PBool true)] 3;
      tok "veniunt" "VERB" "v" "root" [("original_dep", PStr "PRED")] 0 ].

Definition tres_rewritten : Root := or_else (rewrite_coord 3 tres) tres.

(** C3, as stated, fails: "Caesar" moves under the verb but keeps its own
    label "nsubj" instead of "cc", the former label of "et"; and "et",
    which is not artificial, ends up under "Cicero", not under
    "Caesar". *)
Lemma first_conjunct_keeps_label_head_moves_right :
  children tres 3 = [1; 2; 4]
  ∧ is_artificial tres 3 = false
  ∧ rewrite_coord 3 tres = Ok tres_rewritten
  ∧ get_parent tres_rewritten 1 = get_parent tres 3
  ∧ deprel (node tres 3) = "cc"
  ∧ deprel (node tres_rewritten 1) = "nsubj"
  ∧ get_parent tres_rewritten 3 = Some 4
  ∧ ¬ (deprel (node tres_rewritten 1) = deprel (node tres 3)
       ∧ get_parent tres_rewritten 3 = Some 1).
Proof.
  vm_compute. repeat split; try reflexivity. intros [? _]. discriminate.
Qed.

(** C3, amended. For a coordination head [S] with exactly three children
    [A], [B], [C] in word order, all flagged [CoordMember], the rewrite
    goes through and afterwards: [A] has the former parent of [S] and
    keeps its own relation label; [B] and [C] have parent [A] and the
    label [conj]; an artificial [S] is deleted; a non-artificial [S] is
    a child of [A], unless it is labelled [cc] or [punct] and does not
    precede [A]: then the last pass has moved it to the first child of
    [A] labelled [conj] that does not precede [S] (to [A] itself if there
    is none). *)
Theorem rewrite_coord_three_members (S A B C : nat) (t : Root) :
  tree_ok t → S ∈ descendants t → children t S = [A; B; C] →
  get_misc t A "CoordMember" = PBool true →
  get_misc t B "CoordMember" = PBool true →
  get_misc t C "CoordMember" = PBool true →
  ∃ t', rewrite_coord S t = Ok t'
    ∧ get_parent t' A = get_parent t S
    ∧ deprel (node t' A) = deprel (node t A)
    ∧ get_parent t' B = Some A ∧ deprel (node t' B) = "conj"
    ∧ get_parent t' C = Some A ∧ deprel (node t' C) = "conj"
    ∧ (is_artificial t S = true → S ∉ descendants t')
    ∧ (is_artificial t S = false → ¬ trailing t A S →
         get_parent t' S = Some A)
    ∧ (is_artificial t S = false → trailing t A S →
         get_parent t' S = Some (hd A (right_conjuncts t' A S))).
Proof.
  intros Hok HS Hch HmA HmB HmC.
  assert (A ∈ children t S) as HA by (rewrite Hch; left).
  assert (B ∈ children t S) as HB by (rewrite Hch; right; left).
  assert (C ∈ children t S) as HC by (rewrite Hch; right; right; left).
  pose proof (children_NoDup t S Hok) as Hnd3. rewrite Hch in Hnd3.
  apply NoDup_cons in Hnd3 as [HAn Hnd3]. apply NoDup_cons in Hnd3 as [HBn _].
  apply not_elem_of_cons in HAn as [HAB HAC%not_elem_of_cons].
  destruct HAC as [HAC _]. apply not_elem_of_cons in HBn as [HBC _].
  destruct (child_chains t S A Hok HA HS)
    as (g & lg & Hg & Hlg & Hcg & HcS & HcA & HndA).
  destruct (child_chains t S B Hok HB HS)
    as (g' & lg' & Hg' & _ & _ & HcS' & _ & HndB).
  pose proof (chain_det t (ok_root_parent _ Hok) _ _ _ HcS' HcS) as [= -> ->].
  destruct (child_chains t S C Hok HC HS)
    as (g' & lg' & _ & _ & _ & HcS'' & _ & HndC).
  pose proof (chain_det t (ok_root_parent _ Hok) _ _ _ HcS'' HcS) as [= -> ->].
  clear Hg' HcS' HcS''.
  apply NoDup_cons in HndA as [HA1 HndS]. apply NoDup_cons in HndB as [HB1 _].
  apply NoDup_cons in HndC as [HC1 _]. apply NoDup_cons in HndS as [HS1 _].
  apply not_elem_of_cons in HA1 as [HAS HA1].
  apply not_elem_of_cons in HB1 as [HBS HB1].
  apply not_elem_of_cons in HC1 as [HCS HC1].
  pose proof HA as [HAd _]%elem_of_children.
  pose proof HB as [HBd _]%elem_of_children.
  pose proof HC as [HCd _]%elem_of_children.
  (* the first conjunct takes the place of the head *)
  destruct (set_parent_succeeds t A g lg) as (t1 & H1 & Hre1 & Hok1 & Hc1);
    try done.
  pose proof Hre1 as (Hd1 & _ & _ & Hp1 & Hlab1).
  (* the other conjuncts *)
  destruct (members_loop A (g :: lg) "conj" [B; C] t1)
    as (t2 & H2 & Hok2 & Hd2 & Hc2 & Hm2 & Hin2 & Hout2); try done.
  { right. by rewrite Hd1. }
  { intros c [->|[->|?%elem_of_nil]%elem_of_cons]%elem_of_cons; [| |done];
      (split; [by rewrite Hd1|]); apply not_elem_of_cons; split; congruence. }
  assert (B ∈ [B; C]) as HB2 by left.
  assert (C ∈ [B; C]) as HC2 by (right; left).
  assert (A ∉ [B; C]) as HA2.
  { intros [->|[->|?%elem_of_nil]%elem_of_cons]%elem_of_cons; done. }
  assert (S ∉ [B; C]) as HS2.
  { intros [->|[->|?%elem_of_nil]%elem_of_cons]%elem_of_cons; done. }
  (* the head goes under the first conjunct *)
  destruct (set_parent_succeeds t2 S A (g :: lg))
    as (t3 & H3 & Hre3 & Hok3 & Hc3S); try done.
  { by rewrite Hd2, Hd1. } { right. by rewrite Hd2, Hd1. }
  { apply not_elem_of_cons. split; [congruence|done]. }
  pose proof Hre3 as (Hd3 & _ & _ & Hp3 & Hlab3).
  assert (chain t3 A (g :: lg)) as Hc3.
  { eapply (chain_reparented_avoid t2 t3 S A); [done|done|].
    apply not_elem_of_cons. split; [congruence|done]. }
  assert (∀ x, get_parent t3 x
               = if decide (x = S) then Some A
                 else if decide (x ∈ [B; C]) then Some A
                 else if decide (x = A) then Some g else get_parent t x) as HP3.
  { intros x. rewrite Hp3. destruct (decide (x = S)); [done|].
    destruct (decide (x ∈ [B; C])) as [Hx|Hx].
    - by destruct (Hin2 x Hx) as [-> _].
    - destruct (Hout2 x Hx) as [-> _]. by rewrite Hp1. }
  assert (∀ x, deprel (node t3 x)
               = if decide (x ∈ [B; C]) then "conj" else deprel (node t x))
    as HD3.
  { intros x. rewrite (same_labels_deprel _ _ _ Hlab3).
    destruct (decide (x ∈ [B; C])) as [Hx|Hx].
    - by destruct (Hin2 x Hx) as [_ ->].
    - destruct (Hout2 x Hx) as [_ ->]. by rewrite (same_labels_deprel _ _ _ Hlab1). }
  assert (∀ x k, get_misc t3 x k = get_misc t x k) as HM3.
  { intros x k. rewrite (same_labels_misc _ _ _ _ Hlab3), Hm2.
    apply (same_labels_misc _ _ _ _ Hlab1). }
  assert (descendants t3 = descendants t) as HD by congruence.
  assert (children t3 S = []) as Hch3.
  { apply elem_of_nil_inv. intros c [Hcd Hcp]%elem_of_children.
    rewrite HP3 in Hcp. destruct (decide (c = S)); [congruence|].
    destruct (decide (c ∈ [B; C])); [congruence|].
    destruct (decide (c = A)) as [->|HcA'].
    - injection Hcp as ->. apply HS1. left.
    - assert (c ∈ children t S) as Hc by (apply elem_of_children; by rewrite <- HD).
      rewrite Hch in Hc. apply elem_of_cons in Hc as [?|?]; done. }
  assert (is_artificial t3 S = is_artificial t S) as Hart
    by (unfold is_artificial; by rewrite HM3).
  (* the artificial head is deleted *)
  assert (∃ t5, (if is_artificial t3 S then remove t3 S Warn else Ok t3) = Ok t5
                ∧ tree_ok t5 ∧ nodes t5 = nodes t3
                ∧ A ∈ descendants t5
                ∧ (is_artificial t S = true → S ∉ descendants t5)
                ∧ (is_artificial t S = false → descendants t5 = descendants t))
    as (t5 & H5 & Hok5 & Hn5 & HA5 & HS5 & HD5).
  { rewrite Hart. destruct (is_artificial t S) eqn:Ha.
    - destruct (remove t3 S Warn) as [t5|e] eqn:Hrm.
      2: { unfold remove in Hrm. rewrite bool_decide_eq_true_2 in Hrm by congruence.
           done. }
      exists t5. split; [done|]. split; [by eapply remove_warn_tree_ok|].
      apply remove_warn_Ok in Hrm as (_ & Hd5 & _ & Hn5).
      split; [done|]. split; [|split; [|done]].
      + rewrite Hd5. apply list_elem_of_filter. split; [|congruence].
        rewrite (in_subtree_ok t3 S A (g :: lg) Hok3); [|right; congruence|done].
        apply bool_decide_eq_false_2.
        intros [?|?]%elem_of_cons; [congruence|done].
      + intros _. rewrite Hd5. intros [Hsub _]%list_elem_of_filter.
        unfold in_subtree in Hsub. by rewrite bool_decide_eq_true_2 in Hsub.
    - exists t3. split; [done|]. split; [done|]. split; [done|].
      split; [congruence|]. split; [done|]. by intros _. }
  assert (∀ x, node t5 x = node t3 x) as Hnode5
    by (intros x; unfold node; by rewrite Hn5).
  assert (∀ x, get_parent t5 x = get_parent t3 x) as HP5
    by (intros x; unfold get_parent; by rewrite Hnode5).
  (* trailing coordinators and punctuation go to the right conjunct *)
  destruct (last_pass A (g :: lg) t5)
    as (t' & H6 & Hok' & Hd' & Hlab' & Hin' & Hout' & Hrc'); try done.
  { by apply (chain_parent_ext t3). }
  exists t'. split.
  { unfold rewrite_coord. rewrite Hch.
    rewrite !filter_cons_True by done. rewrite filter_nil.
    rewrite Hg, H1, Ok_bind, H2, Ok_bind, H3, Ok_bind, Hch3.
    cbn [for_each]. rewrite Ok_bind, H5, Ok_bind. exact H6. }
  assert (∀ x, udeprel t5 x = "conj" → get_parent t' x = get_parent t3 x)
    as Hconj.
  { intros x Hx. rewrite Hout', HP5; [done|].
    intros [_ [[Hu|Hu] _]]; congruence. }
  assert (∀ x, x ∈ [B; C] → udeprel t5 x = "conj") as Hu5.
  { intros x Hx. unfold udeprel. rewrite Hnode5, HD3.
    by rewrite decide_True. }
  assert (∀ x, deprel (node t' x) = deprel (node t3 x)) as HD'.
  { intros x. rewrite (same_labels_deprel _ _ _ Hlab'). by rewrite Hnode5. }
  split.
  { rewrite Hout', HP5, HP3.
    - rewrite decide_False by done. rewrite decide_False by done.
      by rewrite decide_True.
    - intros [[_ Hp]%elem_of_children _]. rewrite HP5, HP3 in Hp.
      rewrite decide_False in Hp by done. rewrite decide_False in Hp by done.
      rewrite decide_True in Hp by done. injection Hp as ->.
      apply HA1. left. }
  split; [rewrite HD', HD3; by rewrite decide_False|].
  split; [rewrite Hconj, HP3 by auto; rewrite decide_False by done;
          by rewrite decide_True|].
  split; [rewrite HD', HD3; by rewrite decide_True|].
  split; [rewrite Hconj, HP3 by auto; rewrite decide_False by done;
          by rewrite decide_True|].
  split; [rewrite HD', HD3; by rewrite decide_True|].
  split; [intros Ha; rewrite Hd'; by apply HS5|].
  assert (∀ x y, is_artificial t S = false →
          precedes t5 x y = precedes t x y) as Hprec.
  { intros x y Ha. apply precedes_same_descendants. by apply HD5. }
  assert (udeprel t5 S = udeprel t S) as HuS.
  { unfold udeprel. rewrite Hnode5, HD3. by rewrite decide_False. }
  assert (is_artificial t S = false → trailing t5 A S ↔ trailing t A S) as Htr.
  { intros Ha. unfold trailing. by rewrite HuS, (Hprec _ _ Ha). }
  split.
  - intros Ha Hnt. rewrite Hout', HP5, HP3; [by rewrite decide_True|].
    intros [_ Ht]. by apply Hnt, Htr.
  - intros Ha Ht. rewrite Hrc'. apply Hin'; [|by apply Htr].
    apply elem_of_children. split.
    + rewrite (HD5 Ha). done.
    + rewrite HP5, HP3. by rewrite decide_True.
Qed.

(** The three coordinated subjects of "veniunt". *)
Lemma rewrite_coord_three_members_witness :
  tree_ok tres
  ∧ ∃ t', rewrite_coord 3 tres = Ok t'
    ∧ get_parent t' 1 = get_parent tres 3
    ∧ deprel (node t' 1) = deprel (node tres 1)
    ∧ get_parent t' 2 = Some 1 ∧ deprel (node t' 2) = "conj"
    ∧ get_parent t' 4 = Some 1 ∧ deprel (node t' 4) = "conj"
    ∧ (is_artificial tres 3 = true → 3 ∉ descendants t')
    ∧ (is_artificial tres 3 = false → ¬ trailing tres 1 3 →
         get_parent t' 3 = Some 1)
    ∧ (is_artificial tres 3 = false → trailing tres 1 3 →
         get_parent t' 3 = Some (hd 1 (right_conjuncts t' 1 3))).
Proof.
  assert (tree_ok tres) as Hok by (apply tree_okb_ok; vm_compute; reflexivity).
  split; [exact Hok|].
  apply (rewrite_coord_three_members 3 1 2 4 tres Hok).
  - by_compute.
  - vm_compute. reflexivity.
  - vm_compute. reflexivity.
  - vm_compute. reflexivity.
  - vm_compute. reflexivity.
Defined.

(** ** Ordinals of empty nodes *)

Lemma ndigits_go_bound fuel n : n ≤ fuel → n < 10 ^ ndigits_go fuel n.
Proof.
  revert n. induction fuel as [|fuel IH]; intros n Hn; cbn [ndigits_go].
  - simpl. lia.
  - destruct (Nat.ltb_spec n 10) as [Hlt|Hge]; [simpl; lia|].
    assert (n / 10 ≤ fuel) as Hdiv.
    { pose proof (Nat.div_lt n 10). lia. }
    specialize (IH _ Hdiv).
    pose proof (Nat.div_mod_eq n 10). pose proof (Nat.mod_upper_bound n 10).
    rewrite Nat.pow_succ_r'. lia.
Qed.

Lemma ndigits_bound n : n < 10 ^ ndigits n.
Proof. by apply ndigits_go_bound. Qed.

Lemma pow10_pos d : 10 ^ d ≠ 0.
Proof. apply Nat.pow_nonzero. lia. Qed.

Lemma Zpos_of_nat n : n ≠ 0 → Z.pos (Pos.of_nat n) = Z.of_nat n.
Proof.
  intros Hn. rewrite <- positive_nat_Z. by rewrite Nat2Pos.id.
Qed.

Lemma float_of_decimal_eq p i j :
  (float_of_decimal p i == float_of_decimal p j)%Q
  ↔ i * 10 ^ ndigits j = j * 10 ^ ndigits i.
Proof.
  unfold float_of_decimal, Qeq. simpl.
  rewrite !Pos.mul_1_l, !Zpos_of_nat by apply pow10_pos.
  split; intros H.
  - apply Nat2Z.inj. rewrite !Nat2Z.inj_mul. nia.
  - apply (f_equal Z.of_nat) in H. rewrite !Nat2Z.inj_mul in H. nia.
Qed.

Lemma float_of_decimal_between p i :
  1 ≤ i →
  (inject_Z (Z.of_nat p) < float_of_decimal p i)%Q
  ∧ (float_of_decimal p i < inject_Z (Z.of_nat (S p)))%Q.
Proof.
  intros Hi. pose proof (ndigits_bound i) as Hb.
  unfold float_of_decimal, Qlt. simpl.
  rewrite ?Pos.mul_1_l, !Zpos_of_nat by apply pow10_pos.
  apply inj_lt in Hb. apply inj_le in Hi.
  split; nia.
Qed.

(** Candidates ending in the digit 1 have pairwise distinct values. *)
Lemma ones_injective m m' a b :
  (10 * m + 1) * 10 ^ a = (10 * m' + 1) * 10 ^ b → m = m'.
Proof.
  revert b. induction a as [|a IH]; intros [|b]; rewrite ?Nat.pow_succ_r';
    rewrite ?Nat.pow_0_r; intros H; try lia.
  apply (IH b). lia.
Qed.

Section EmptyOrd.
Variables (t : Root) (n prev : nat).
Hypothesis Hprev : prev_node t n = Some prev.

(** Is the value of [iter] already the ordinal of an empty node? *)
Definition used (iter : nat) : bool :=
  existsb (Qeq_bool (float_of_decimal (ord t prev) iter))
          (map e_ord (empty_nodes t)).

Lemma set_empty_ord_search fuel iter :
  (∃ j, iter ≤ j ≤ iter + fuel ∧ used j = false) →
  ∃ j, iter ≤ j ∧ used j = false
       ∧ set_empty_ord fuel n t iter = Ok (float_of_decimal (ord t prev) j).
Proof.
  revert iter. induction fuel as [|fuel IH]; intros iter (j & Hj & Hu).
  - assert (j = iter) as -> by lia. exists iter. split; [done|]. split; [done|].
    simpl. rewrite Hprev. fold (used iter). by rewrite Hu.
  - destruct (used iter) eqn:Hi.
    + destruct (IH (S iter)) as (j' & Hj' & Hu' & Hrun).
      { exists j. split; [|done]. destruct (decide (j = iter)) as [->|];
          [congruence|lia]. }
      exists j'. split; [lia|]. split; [done|].
      cbn [set_empty_ord]. rewrite Hprev. fold (used iter). by rewrite Hi.
    + exists iter. split; [done|]. split; [done|].
      cbn [set_empty_ord]. rewrite Hprev. fold (used iter). by rewrite Hi.
Qed.

Lemma used_Qred iter :
  used iter = true →
  Qred (float_of_decimal (ord t prev) iter)
  ∈ map Qred (map e_ord (empty_nodes t)).
Proof.
  unfold used. rewrite existsb_exists. intros (x & Hx & Heq).
  apply Qeq_bool_iff, Qred_complete in Heq. rewrite Heq.
  apply list_elem_of_In, in_map, Hx.
Qed.

(** Among the candidates 1, 11, 21, ... one more than there are empty
    nodes, one is unused. *)
Lemma unused_candidate :
  ∃ m, m ≤ List.length (empty_nodes t) ∧ used (10 * m + 1) = false.
Proof.
  set (k := List.length (empty_nodes t)).
  set (cands := (λ m, 10 * m + 1) <$> seq 0 (S k)).
  destruct (forallb used cands) eqn:Hall.
  - exfalso. rewrite forallb_forall in Hall.
    set (vals := (λ c, Qred (float_of_decimal (ord t prev) c)) <$> cands).
    assert (NoDup vals) as Hnd.
    { unfold vals, cands. rewrite <- list_fmap_compose.
      apply NoDup_fmap_2_strong; [|apply NoDup_seq].
      intros a b _ _ Heq. unfold compose in Heq.
      assert (float_of_decimal (ord t prev) (10 * a + 1)
              == float_of_decimal (ord t prev) (10 * b + 1))%Q as Hq.
      { etransitivity; [symmetry; apply Qred_correct|].
        rewrite Heq. apply Qred_correct. }
      apply float_of_decimal_eq in Hq. by eapply ones_injective. }
    assert (List.length vals ≤ List.length (map Qred (map e_ord (empty_nodes t))))
      as Hlen.
    { apply submseteq_length, NoDup_submseteq; [done|].
      intros x (c & -> & Hc)%list_elem_of_fmap.
      apply used_Qred, Hall. by apply list_elem_of_In. }
    unfold vals, cands in Hlen.
    rewrite ?length_fmap, ?length_map, ?length_seq in Hlen.
    rewrite ?length_fmap, ?length_map in Hlen. lia.
  - assert (∃ c, c ∈ cands ∧ used c = false) as (c & Hc & Hu).
    { clear -Hall. induction cands as [|c cs IH]; [done|]. simpl in Hall.
      destruct (used c) eqn:Hc.
      - destruct (IH Hall) as (c' & ? & ?). exists c'. split; [by right|done].
      - exists c. split; [left|done]. }
    apply list_elem_of_fmap in Hc as (m & -> & Hm).
    apply elem_of_seq in Hm. exists m. split; [lia|done].
Qed.

(** With a recursion limit of ten times the number of empty nodes the
    search ends, on a value that no empty node bears and that lies
    strictly between the ordinal of the preceding token and the next
    integer. *)
Lemma set_empty_ord_total fuel :
  10 * List.length (empty_nodes t) ≤ fuel →
  ∃ iter, 1 ≤ iter
    ∧ set_empty_ord fuel n t 1 = Ok (float_of_decimal (ord t prev) iter)
    ∧ used iter = false.
Proof.
  intros Hfuel. destruct unused_candidate as (m & Hm & Hu).
  destruct (set_empty_ord_search fuel 1) as (j & Hj & Huj & Hrun).
  { exists (10 * m + 1). split; [lia|done]. }
  by exists j.
Qed.

End EmptyOrd.

Lemma position_elem n l :
  n ∈ l → ∃ i, position n l = Some i ∧ i < List.length l.
Proof.
  induction l as [|x l IH]; [by intros ?%elem_of_nil|]. simpl.
  case_bool_decide as Hx.
  - intros _. exists 0. split; [done|lia].
  - intros [?|Hin]%elem_of_cons; [congruence|].
    destruct (IH Hin) as (i & -> & Hi). exists (S i). split; [done|lia].
Qed.

Lemma prev_node_elem t n :
  n ∈ descendants t → ∃ p, prev_node t n = Some p.
Proof.
  intros Hn. destruct (position_elem n _ Hn) as (i & Hi & Hlt).
  unfold prev_node, ord. rewrite Hi. destruct i as [|i]; [by eexists|].
  apply lookup_lt_is_Some. lia.
Qed.

Lemma no_self_parent t n : tree_ok t → n ∈ descendants t → get_parent t n ≠ Some n.
Proof.
  intros Hok Hn Hp. destruct (ok_chain _ Hok n Hn) as (l & Hc & _).
  apply (chain_not_in t (ok_root_parent _ Hok) n l Hc).
  inversion Hc as [|? p l' Hp' _]; subst; [by destruct (ok_root _ Hok)|].
  assert (p = n) as -> by congruence. left.
Qed.

Lemma filter_all {A} (P : A → Prop) `{!∀ x, Decision (P x)} (l : list A) :
  (∀ x, x ∈ l → P x) → filter P l = l.
Proof.
  induction l as [|a l IH]; intros Hall; [done|].
  rewrite filter_cons_True by (apply Hall; left).
  f_equal. apply IH. intros x Hx. apply Hall. by right.
Qed.

Lemma filter_none {A} (P : A → Prop) `{!∀ x, Decision (P x)} (l : list A) :
  (∀ x, x ∈ l → ¬ P x) → filter P l = [].
Proof.
  induction l as [|a l IH]; intros Hall; [done|].
  rewrite filter_cons_False by (apply Hall; left).
  apply IH. intros x Hx. apply Hall. by right.
Qed.

Lemma position_app_l x l1 l2 :
  x ∈ l1 → ∃ i, position x (l1 ++ l2) = Some i ∧ i < List.length l1.
Proof.
  induction l1 as [|a l1 IH]; [by intros ?%elem_of_nil|]. simpl.
  case_bool_decide as Hx.
  - intros _. exists 0. split; [done|lia].
  - intros [?|Hin]%elem_of_cons; [congruence|].
    destruct (IH Hin) as (i & -> & Hi). exists (S i). split; [done|lia].
Qed.

Lemma position_app_r x l1 l2 :
  x ∉ l1 → position x (l1 ++ x :: l2) = Some (List.length l1).
Proof.
  induction l1 as [|a l1 IH]; simpl.
  - intros _. by rewrite bool_decide_eq_true_2.
  - intros [Hxa Hx]%not_elem_of_cons.
    rewrite bool_decide_eq_false_2 by congruence. by rewrite IH.
Qed.

Lemma position_lookup n l i : position n l = Some i → l !! i = Some n.
Proof.
  revert i. induction l as [|x l IH]; intros i; [done|]. simpl.
  case_bool_decide as Hx; [by intros [= <-]; subst|].
  destruct (position n l) as [j|]; [|done]. intros [= <-]. by apply IH.
Qed.

Lemma lookup_position n l i :
  NoDup l → l !! i = Some n → position n l = Some i.
Proof.
  intros Hnd. revert i. induction Hnd as [|x l Hx Hnd IH]; intros i; [done|].
  destruct i as [|i]; simpl.
  - intros [= ->]. by rewrite bool_decide_eq_true_2.
  - intros Hi. rewrite bool_decide_eq_false_2.
    + by rewrite (IH i Hi).
    + intros ->. apply Hx. by eapply list_elem_of_lookup_2.
Qed.

Lemma position_None n l : n ∉ l → position n l = None.
Proof.
  induction l as [|x l IH]; [done|]. intros [Hnx Hn]%not_elem_of_cons.
  simpl. rewrite bool_decide_eq_false_2 by congruence. by rewrite IH.
Qed.


(** A token comes right after the node before it. *)
Lemma prev_node_ord t a p :
  tree_ok t → prev_node t a = Some p → ord t a = S (ord t p).
Proof.
  intros Hok. unfold prev_node, ord at 1 2.
  destruct (position a (descendants t)) as [i|] eqn:Hi; [|done].
  destruct i as [|i].
  - intros [= <-]. unfold ord.
    by rewrite (position_None root_id _ (ok_root _ Hok)).
  - intros Hp. unfold ord.
    by rewrite (lookup_position p _ i (ok_nodup _ Hok) Hp).
Qed.


(** ** The empty nodes across a removal *)

(** An empty node without its ordinal. *)
Definition unnumbered (e : EmptyNode) : EmptyNode := with_ord e 0.

Lemma unnumbered_lower_empty t gone e :
  unnumbered (lower_empty t gone e) = unnumbered e.
Proof. unfold lower_empty. by destruct (List.length _). Qed.

Lemma lower_empty_ext t t' gone e :
  descendants t' = descendants t →
  lower_empty t' gone e = lower_empty t gone e.
Proof. intros Hd. unfold lower_empty, ord. by rewrite Hd. Qed.

(** An empty node that stands before every removed token keeps its
    ordinal. *)
Lemma lower_empty_untouched t gone e :
  (∀ x, x ∈ gone → (e_ord e <= inject_Z (Z.of_nat (ord t x)))%Q) →
  lower_empty t gone e = e.
Proof.
  intros H. unfold lower_empty. rewrite filter_none; [done|].
  intros x Hx. unfold before_empty.
  by rewrite (proj2 (Qle_bool_iff _ _) (H x Hx)).
Qed.

(** One turn of the loop of [copy_to_empty]: it goes through when the
    recursion limit leaves room for the search of the ordinal; the copy
    is appended to the empty nodes, the artificial node leaves the tree,
    its children go to its parent, and the empty nodes behind it are
    renumbered. The copy itself stands before the artificial node and
    keeps the ordinal it was given. *)
Lemma copy_one_total L art t :
  tree_ok t → art ∈ descendants t → 10 * List.length (empty_nodes t) ≤ L →
  ∃ prev iter e t',
    prev_node t art = Some prev ∧ 1 ≤ iter ∧ used t prev iter = false
    ∧ set_empty_ord L art t 1 = Ok (e_ord e)
    ∧ e_ord e = float_of_decimal (ord t prev) iter
    ∧ copy_one L art t = Ok t'
    ∧ empty_nodes t' = (lower_empty t [art] <$> empty_nodes t) ++ [e]
    ∧ descendants t' = filter (λ x, x ≠ art) (descendants t)
    ∧ (∀ x, get_parent t' x
            = if bool_decide (x ∈ children t art) then get_parent t art
              else get_parent t x)
    ∧ same_labels t t'.
Proof.
  intros Hok Hart HL. destruct (prev_node_elem t art Hart) as (prev & Hprev).
  destruct (set_empty_ord_total t art prev Hprev L HL) as (iter & Hi & Hrun & Hu).
  set (q := float_of_decimal (ord t prev) iter) in *.
  set (e := mkEmpty q ("E" ++ str_of_float q)%string
                    (or_none (lemma (node t art))) (or_none (upos (node t art)))
                    (or_none (xpos (node t art))) (or_none (feats (node t art)))
                    (empty_misc (misc (node t art))) []).
  set (t0 := logging DEBUG (CreatingEmpty ("E" ++ str_of_float q)%string)
                     (create_empty_child t e)).
  assert (same_shape t t0) as Hs0 by (by split).
  destruct (remove t0 art Rehang) as [t'|ex] eqn:Hrm.
  2: { unfold remove in Hrm. by rewrite bool_decide_eq_true_2 in Hrm. }
  exists prev, iter, e, t'. split; [done|]. split; [done|]. split; [done|].
  split; [done|]. split; [done|]. split.
  { unfold copy_one. rewrite Hrun. exact Hrm. }
  apply remove_rehang_Ok in Hrm as (_ & Hd & He & _ & Hp & Hl).
  split.
  { assert (lower_empty t0 [art] e = e) as Hun.
    { apply lower_empty_untouched. intros x ->%list_elem_of_singleton.
      rewrite (same_shape_ord _ _ _ Hs0), (prev_node_ord t art prev Hok Hprev).
      apply Qlt_le_weak.
      by destruct (float_of_decimal_between (ord t prev) iter Hi). }
    rewrite He. change (empty_nodes t0) with (empty_nodes t ++ [e]).
    rewrite fmap_app. cbn [fmap list_fmap]. by rewrite Hun. }
  split; [done|]. split; [|done].
  intros x. rewrite Hp. by rewrite (same_shape_children _ _ _ Hs0).
Qed.

(** "venit [0] [0]": two artificial nodes in a row after one token. *)
Definition duo : Root :=
  sentence
    [ tok "venit" "VERB" "v" "root" [("original_dep", PStr "PRED")] 0;
      tok "[0]" "VERB" "v" "conj"
          [("original_dep", PStr "ExD"); ("NodeType", PStr "Artificial")] 1;
      tok "[1]" "VERB" "v" "conj"
          [("original_dep", PStr "ExD"); ("NodeType", PStr "Artificial")] 1 ].

Lemma unnumbered_lower_empties t gone (es : list EmptyNode) :
  unnumbered <$> (lower_empty t gone <$> es) = unnumbered <$> es.
Proof.
  rewrite <- list_fmap_compose. apply list_fmap_ext. intros i e _.
  apply unnumbered_lower_empty.
Qed.

(** "venit [0] [0]" with a thousand and one empty nodes after "venit",
    which bear the decimals .1, .2, .3, ... that the search tries. *)
Definition plenus : Root :=
  mkRoot (nodes duo) (descendants duo)
         ((λ i, mkEmpty (float_of_decimal 1 i) "E" None None None None ∅ [])
            <$> seq 1 1001)
         [].

(** C7, as stated, fails: the search does not always end on an unused
    value. With the recursion limit of a thousand and every decimal it
    can try in use, it raises [RecursionError], and so does the copy. *)
Lemma retry_loop_exhausts_recursion_limit :
  set_empty_ord 1000 2 plenus 1 = Raise RecursionError
  ∧ copy_to_empty 1000 [2; 3] plenus = Raise RecursionError.
Proof. vm_compute. split; reflexivity. Qed.



(** ** Deleting an artificial node *)

(** "venit [0] i tur": an artificial node governing an orthographic
    continuation (by [goeswith]) and a modifier. *)
Definition vestigium : Root :=
  sentence
    [ tok "venit" "VERB" "v" "root" [("original_dep", PStr "PRED")] 0;
      tok "[0]" "VERB" "v" "conj"
          [("original_dep", PStr "ExD"); ("NodeType", PStr "Artificial")] 1;
      tok "i" "X" "-" "goeswith" [("original_dep", PStr "AuxY")] 2;
      tok "tur" "NOUN" "n" "nmod" [("original_dep", PStr "ATR")] 2 ].

Definition vestigium_copied : Root :=
  or_else (copy_one 1000 2 vestigium) vestigium.

(** C9, as stated, fails: the child attached by [goeswith] does not keep
    its attachment; it is rehung onto the parent of the deleted node like
    every other child. *)
Lemma goeswith_child_is_rehung_too :
  copy_one 1000 2 vestigium = Ok vestigium_copied
  ∧ udeprel vestigium 3 = "goeswith"
  ∧ get_parent vestigium 3 = Some 2
  ∧ get_parent vestigium 2 = Some 1
  ∧ get_parent vestigium_copied 3 = Some 1
  ∧ get_parent vestigium_copied 3 ≠ get_parent vestigium 3.
Proof. vm_compute. repeat split; try reflexivity. discriminate. Qed.

(** C9, amended. When the resolver deletes an artificial node after
    copying it to an empty node, every current child of that node,
    whatever its relation, [goeswith] included, is rehung onto the parent
    of the node and stays in the tree; the node itself leaves the tree;
    no other parent pointer and no relation label changes. *)
Theorem copy_one_rehangs_every_child (L art : nat) (t : Root) :
  tree_ok t → art ∈ descendants t →
  10 * List.length (empty_nodes t) ≤ L →
  ∃ t', copy_one L art t = Ok t'
    ∧ (art ∉ descendants t')
    ∧ (∀ c, c ∈ children t art →
         get_parent t' c = get_parent t art ∧ c ∈ descendants t')
    ∧ (∀ x, x ∉ children t art → get_parent t' x = get_parent t x)
    ∧ (∀ x, deprel (node t' x) = deprel (node t x)).
Proof.
  intros Hok Hart HL.
  destruct (copy_one_total L art t Hok Hart HL)
    as (p & i & e & t' & _ & _ & _ & _ & _ & Hrun & _ & Hd & Hp & Hl).
  exists t'. split; [done|]. split.
  { rewrite Hd. by intros [? _]%list_elem_of_filter. }
  split; [|split].
  - intros c Hc. rewrite Hp, bool_decide_eq_true_2 by done. split; [done|].
    rewrite Hd. apply elem_of_children in Hc as [Hcd Hcp].
    apply list_elem_of_filter. split; [|done]. intros ->.
    by apply (no_self_parent t art Hok).
  - intros x Hx. by rewrite Hp, bool_decide_eq_false_2.
  - intros x. by apply same_labels_deprel.
Qed.

(** The artificial node of "venit [0] i tur" and its two children. *)
Lemma copy_one_rehangs_every_child_witness :
  tree_ok vestigium
  ∧ ∃ t', copy_one 1000 2 vestigium = Ok t'
    ∧ (2 ∉ descendants t')
    ∧ (∀ c, c ∈ children vestigium 2 →
         get_parent t' c = get_parent vestigium 2 ∧ c ∈ descendants t')
    ∧ (∀ x, x ∉ children vestigium 2 →
         get_parent t' x = get_parent vestigium x)
    ∧ (∀ x, deprel (node t' x) = deprel (node vestigium x)).
Proof.
  assert (tree_ok vestigium) as Hok
    by (apply tree_okb_ok; vm_compute; reflexivity).
  split; [exact Hok|].
  apply (copy_one_rehangs_every_child 1000 2 vestigium Hok).
  - by_compute.
  - vm_compute. apply Nat.leb_le. vm_compute. reflexivity.
Defined.

(** ** The candidate filter of the bridge branch *)

(** "venit in urbem" with an empty fine-grained tag on the noun. *)
Definition sine_nota : Root :=
  sentence
    [ tok "venit" "VERB" "v" "root" [("original_dep", PStr "PRED")] 0;
      tok "in" "ADP" "r" "case" [("original_dep", PStr "AuxP")] 1;
      tok "urbem" "NOUN" "" "obl" [("original_dep", PStr "ADV")] 2 ].

Definition run_sine_nota : result Root := run_with [(2, 1)] false sine_nota.

Lemma bridge_candidate_cases t c :
  (is_artificial t c = false ∧ xpos (node t c) = ""
   ∧ bridge_candidate t c = Raise IndexError)
  ∨ ((is_artificial t c = false → xpos (node t c) ≠ "")
     ∧ ∃ b, bridge_candidate t c = Ok b).
Proof.
  unfold bridge_candidate. destruct (is_artificial t c).
  - right. split; [done|by eexists].
  - destruct (xpos (node t c)); [by left|].
    right. split; [done|by eexists].
Qed.

Lemma bridge_filter_Ok t cs :
  (∀ c, c ∈ cs → is_artificial t c = false → xpos (node t c) ≠ "") →
  ∃ ch, filterM (bridge_candidate t) cs = Ok ch.
Proof.
  induction cs as [|x xs IH]; intros Hall; [by eexists|]. cbn [filterM].
  destruct (bridge_candidate_cases t x) as [(Ha & Hx & _)|(_ & b & ->)].
  { destruct (Hall x); [left|done|done]. }
  destruct IH as (r & ->); [intros; apply Hall; [by right|done]|].
  by eexists.
Qed.

Lemma bridge_filter_Raise t cs c :
  c ∈ cs → is_artificial t c = false → xpos (node t c) = "" →
  filterM (bridge_candidate t) cs = Raise IndexError.
Proof.
  induction cs as [|x xs IH]; intros Hc Ha Hx; [by apply elem_of_nil in Hc|].
  cbn [filterM].
  destruct (bridge_candidate_cases t x) as [(_ & _ & ->)|(Hok & b & ->)];
    [done|].
  apply elem_of_cons in Hc as [->|Hc]; [by destruct (Hok Ha)|].
  by rewrite IH.
Qed.

(** C10. The candidate filter of the bridge branch reads the first
    character of the fine-grained tag of every non-artificial child. It
    yields its list of candidates exactly when every non-artificial child
    of the subtree has a non-empty tag. As soon as one non-artificial
    child has an empty tag, the filter raises [IndexError], and so does
    the bridge branch: nothing is logged and the subtree is not skipped.
    On the sample sentence, whose noun has an empty tag, the error leaves
    [process_tree]. *)
Theorem bridge_filter_total_iff_tags_nonempty (subtree : nat) (t : Root) :
  ((∃ ch, filterM (bridge_candidate t) (children t subtree) = Ok ch)
   ↔ (∀ c, c ∈ children t subtree → is_artificial t c = false →
           xpos (node t c) ≠ ""))
  ∧ ((∃ c, c ∈ children t subtree ∧ is_artificial t c = false
           ∧ xpos (node t c) = "")
     ↔ filterM (bridge_candidate t) (children t subtree) = Raise IndexError)
  ∧ ((∃ c, c ∈ children t subtree ∧ is_artificial t c = false
           ∧ xpos (node t c) = "")
     → rewrite_bridge subtree t = Raise IndexError)
  ∧ run_sine_nota = Raise IndexError.
Proof.
  split; [|split; [|split]].
  - split.
    + intros (ch & Hch) c Hc Ha Hx.
      by rewrite (bridge_filter_Raise t _ c Hc Ha Hx) in Hch.
    + apply bridge_filter_Ok.
  - split.
    + intros (c & Hc & Ha & Hx). by eapply bridge_filter_Raise.
    + intros Hr.
      destruct (decide (Exists (λ c, is_artificial t c = false
                                     ∧ xpos (node t c) = "")
                               (children t subtree))) as [He|He].
      * apply Exists_exists in He as (c & Hc & Ha & Hx). by exists c.
      * destruct (bridge_filter_Ok t (children t subtree)) as (ch & Hch);
          [|congruence].
        intros c Hc Ha Hx. apply He, Exists_exists. by exists c.
  - intros (c & Hc & Ha & Hx). unfold rewrite_bridge.
    by rewrite (bridge_filter_Raise t _ c Hc Ha Hx).
  - vm_compute. reflexivity.
Qed.

(** ** The secondary edges of the post-pass *)

(** C2. In "Caesar et Brutus veniunt in urbem [0] cras", run in enhanced
    mode, the pre-pass records on "cras" its dependency on the artificial
    node 7, and the artificial node is replaced by the empty node 0, found
    under the key "7". The post-pass then splits the record of "cras" on
    ":" where the pre-pass wrote "%:%": the head it reads is "7%", which
    is no key, and "cras" receives no secondary edge. *)
Lemma ordinary_dependent_gets_no_secondary_edge :
  run_with veniunt_schedule true veniunt = Ok veniunt_enhanced
  ∧ get_misc veniunt_enhanced 8 "art_deps" = PStr "7%:%advmod"
  ∧ art_mapping_of (empty_nodes veniunt_enhanced) !! "7" = Some 0
  ∧ split "%:%" "7%:%advmod" = ["7"; "advmod"]
  ∧ split ":" "7%:%advmod" = ["7%"; "%advmod"]
  ∧ art_mapping_of (empty_nodes veniunt_enhanced) !! "7%" = None
  ∧ deps (node veniunt_enhanced 8) = [].
Proof. vm_compute. repeat split; reflexivity. Qed.

(** "[0] venit": an artificial subject before the verb that governs
    it. *)
Definition praecedit : Root :=
  sentence
    [ tok "[0]" "PRON" "p" "nsubj"
          [("original_dep", PStr "SBJ"); ("NodeType", PStr "Artificial")] 2;
      tok "venit" "VERB" "v" "root" [("original_dep", PStr "PRED")] 0 ].

(** "venit [0] cras", where "cras" bears a relation with a subtype. *)
Definition subtypus : Root :=
  sentence
    [ tok "venit" "VERB" "v" "root" [("original_dep", PStr "PRED")] 0;
      tok "[0]" "VERB" "v" "conj"
          [("original_dep", PStr "ExD"); ("NodeType", PStr "Artificial")] 1;
      tok "cras" "ADV" "d" "advmod:tmod" [("original_dep", PStr "ADV")] 2 ].

(** C5. In "[0] venit", run in enhanced mode, the pre-pass records the
    head ordinal 2 for the artificial node; once that node is deleted the
    verb is renumbered 1, so the ordinal 2 matches no empty node, is not
    0, and matches no token: the selection of the first match raises
    [IndexError], which leaves [process_tree]. In "venit [0] cras" the
    record of "cras" splits into three parts on ":", and the unpacking
    raises [ValueError], which leaves [process_tree] too. *)
Lemma unmatched_head_ordinal_raises :
  run_with [(2, 1)] true praecedit = Raise IndexError
  ∧ run_with [] true subtypus = Raise ValueError.
Proof. vm_compute. split; reflexivity. Qed.

(** * Further properties of the converter *)

(** ** More loop rules *)

(** A loop whose body changes nothing changes nothing. *)
Lemma for_each_same {A S} (body : A → S → result S) xs s :
  (∀ x, x ∈ xs → body x s = Ok s) → for_each body xs s = Ok s.
Proof.
  induction xs as [|x xs IH]; intros Hall; [done|]. simpl.
  rewrite Hall by left. simpl. apply IH. intros y Hy. apply Hall. by right.
Qed.

(** The partial-correctness rule with the elements already handled. *)
Lemma for_each_hist {A S} (I : list A → S → Prop)
  (body : A → S → result S) xs s0 s' :
  I [] s0 →
  (∀ done c rest a b, xs = done ++ c :: rest → I done a →
     body c a = Ok b → I (done ++ [c]) b) →
  for_each body xs s0 = Ok s' → I xs s'.
Proof.
  intros H0 Hstep.
  assert (∀ rest done s, xs = done ++ rest → I done s →
          for_each body rest s = Ok s' → I xs s') as Hgen.
  { induction rest as [|c rest IH]; intros done s Hxs Hs Hrun.
    - simpl in Hrun. injection Hrun as <-. rewrite app_nil_r in Hxs. by subst.
    - simpl in Hrun. apply bind_Ok in Hrun as (s1 & Hb & Hrun).
      apply (IH (done ++ [c]) s1); [by rewrite <- app_assoc| |done].
      by eapply Hstep. }
  by apply (Hgen xs [] s0).
Qed.

(** ** The search of an ordinal picks the first free value *)

Section FirstFree.
Variables (t : Root) (n prev : nat).
Hypothesis Hprev : prev_node t n = Some prev.

Lemma set_empty_ord_step fuel iter :
  set_empty_ord fuel n t iter
  = if used t prev iter
    then match fuel with
         | O => Raise RecursionError
         | S f => set_empty_ord f n t (S iter)
         end
    else Ok (float_of_decimal (ord t prev) iter).
Proof. destruct fuel; simpl; by rewrite Hprev. Qed.

Lemma set_empty_ord_Ok fuel iter q :
  set_empty_ord fuel n t iter = Ok q →
  ∃ j, iter ≤ j ≤ iter + fuel
       ∧ q = float_of_decimal (ord t prev) j
       ∧ used t prev j = false
       ∧ ∀ i, iter ≤ i < j → used t prev i = true.
Proof.
  revert iter. induction fuel as [|fuel IH]; intros iter;
    rewrite set_empty_ord_step; destruct (used t prev iter) eqn:Hu; try done.
  - intros [= <-]. exists iter. split; [lia|]. split; [done|]. split; [done|].
    intros; lia.
  - intros (j & Hj & Hq & Huj & Hall)%IH. exists j. split; [lia|].
    split; [done|]. split; [done|]. intros i Hi.
    destruct (decide (i = iter)) as [->|]; [done|]. apply Hall. lia.
  - intros [= <-]. exists iter. split; [lia|]. split; [done|]. split; [done|].
    intros; lia.
Qed.

Lemma set_empty_ord_Raise fuel iter e :
  set_empty_ord fuel n t iter = Raise e →
  e = RecursionError ∧ ∀ i, iter ≤ i ≤ iter + fuel → used t prev i = true.
Proof.
  revert iter. induction fuel as [|fuel IH]; intros iter;
    rewrite set_empty_ord_step; destruct (used t prev iter) eqn:Hu; try done.
  - intros [= <-]. split; [done|]. intros i Hi. by replace i with iter by lia.
  - intros [-> Hall]%IH. split; [done|]. intros i Hi.
    destruct (decide (i = iter)) as [->|]; [done|]. apply Hall. lia.
Qed.

End FirstFree.

(** X1. The search of [set_empty_ord] tries the decimals .1, .2, .3, ...
    in turn and returns the first whose value no empty node bears: every
    earlier decimal is taken. The only exception it can raise, once the
    artificial node has a predecessor, is [RecursionError], and then
    every decimal within the recursion depth is taken. *)
Theorem set_empty_ord_first_free (fuel n prev iter : nat) (t : Root) :
  prev_node t n = Some prev →
  (∀ q, set_empty_ord fuel n t iter = Ok q →
     ∃ j, iter ≤ j ≤ iter + fuel
          ∧ q = float_of_decimal (ord t prev) j
          ∧ used t prev j = false
          ∧ ∀ i, iter ≤ i < j → used t prev i = true)
  ∧ (∀ e, set_empty_ord fuel n t iter = Raise e →
       e = RecursionError
       ∧ ∀ i, iter ≤ i ≤ iter + fuel → used t prev i = true).
Proof.
  intros Hprev. split.
  - intros q. by apply set_empty_ord_Ok.
  - intros e. by apply set_empty_ord_Raise.
Qed.

Definition duo_copied : Root := or_else (copy_one 1000 2 duo) duo.

(** The second artificial node of "venit [0] [0]", once the first has
    been copied to the empty node 1.1. *)
Lemma set_empty_ord_first_free_witness :
  prev_node duo_copied 3 = Some 1
  ∧ (∀ q, set_empty_ord 1000 3 duo_copied 1 = Ok q →
       ∃ j, 1 ≤ j ≤ 1 + 1000
            ∧ q = float_of_decimal (ord duo_copied 1) j
            ∧ used duo_copied 1 j = false
            ∧ ∀ i, 1 ≤ i < j → used duo_copied 1 i = true)
  ∧ (∀ e, set_empty_ord 1000 3 duo_copied 1 = Raise e →
       e = RecursionError
       ∧ ∀ i, 1 ≤ i ≤ 1 + 1000 → used duo_copied 1 i = true).
Proof.
  assert (prev_node duo_copied 3 = Some 1) as Hprev by (vm_compute; reflexivity).
  split; [exact Hprev|].
  exact (set_empty_ord_first_free 1000 3 1 1 duo_copied Hprev).
Defined.

(** ** Sentences without anything to rewrite *)

Section Nothing.
Variables (is_prague_bridge_subtree is_coord_subtree is_apos_subtree
           is_copula_subtree is_ellipsis_subtree : Root → nat → bool).
Variable get_subtree_depth : Root → list (nat * nat).
Variable recursion_limit : nat.

(** No construction is recognised at [n]. *)
Definition unmatched (t : Root) (n : nat) : Prop :=
  is_prague_bridge_subtree t n = false ∧ is_coord_subtree t n = false
  ∧ is_apos_subtree t n = false ∧ is_copula_subtree t n = false
  ∧ is_ellipsis_subtree t n = false.

Lemma process_subtree_unmatched t n :
  unmatched t n →
  process_subtree is_prague_bridge_subtree is_coord_subtree is_apos_subtree
                  is_copula_subtree is_ellipsis_subtree n t = Ok t.
Proof.
  intros (H1 & H2 & H3 & H4 & H5). unfold process_subtree.
  by rewrite H1, H2, H3, H4, H5.
Qed.

End Nothing.

Lemma write_deps_in_misc_nothing t :
  tree_ok t → (∀ n, live t n → is_artificial t n = false) →
  write_deps_in_misc t = Ok t.
Proof.
  intros Hok Hart. unfold write_deps_in_misc. apply for_each_same.
  intros n Hn. destruct (parent_live t Hok n Hn) as (p & -> & Hp).
  rewrite (Hart n) by (by right). by rewrite (Hart p).
Qed.

Lemma no_artificial_filter t :
  (∀ n, live t n → is_artificial t n = false) →
  filter (λ n, is_artificial t n = true) (descendants t) = [].
Proof.
  intros Hart. apply elem_of_nil_inv. intros n [Ha Hn]%list_elem_of_filter.
  rewrite Hart in Ha by (by right). done.
Qed.

(** X2. On a well-formed sentence without artificial nodes, in which the
    classifier recognises no construction at any scheduled subtree root,
    [process_tree] returns the sentence exactly as it was, in plain and in
    enhanced mode: nothing is rewritten, recorded or logged. This covers
    the sentence with no tokens and the sentence that has already been
    rewritten. *)
Theorem process_tree_nothing_to_do
  (is_prague_bridge_subtree is_coord_subtree is_apos_subtree
   is_copula_subtree is_ellipsis_subtree : Root → nat → bool)
  (get_subtree_depth : Root → list (nat * nat)) (recursion_limit : nat)
  (with_enhanced : bool) (t : Root) :
  tree_ok t →
  (∀ n, live t n → is_artificial t n = false) →
  (∀ sd, sd ∈ get_subtree_depth t →
     unmatched is_prague_bridge_subtree is_coord_subtree is_apos_subtree
               is_copula_subtree is_ellipsis_subtree t sd.1) →
  process_tree is_prague_bridge_subtree is_coord_subtree is_apos_subtree
               is_copula_subtree is_ellipsis_subtree get_subtree_depth
               recursion_limit with_enhanced t = Ok t.
Proof.
  intros Hok Hart Hun. unfold process_tree.
  rewrite (no_artificial_filter t Hart).
  assert ((if with_enhanced
           then write_deps_in_misc t ≫= λ t0, Ok (foldl (λ t1 a,
                  set_misc t1 a "original_ord" (PStr (str_of_nat (ord t1 a))))
                  t0 [])
           else Ok t) = Ok t) as ->.
  { destruct with_enhanced; [|done].
    by rewrite write_deps_in_misc_nothing. }
  rewrite Ok_bind, for_each_same.
  - rewrite Ok_bind. destruct with_enhanced; [|done].
    unfold resolve. by rewrite (no_artificial_filter t Hart).
  - intros sd Hsd. by apply process_subtree_unmatched, Hun.
Qed.

(** "Caesar venit": nothing to rewrite. *)
Definition caesar_venit : Root :=
  sentence
    [ tok "Caesar" "PROPN" "n" "nsubj" [("original_dep", PStr "SBJ")] 2;
      tok "venit" "VERB" "v" "root" [("original_dep", PStr "PRED")] 0 ].

Lemma process_tree_nothing_to_do_witness :
  run_with [(2, 1)] true caesar_venit = Ok caesar_venit.
Proof.
  apply process_tree_nothing_to_do.
  - apply tree_okb_ok. vm_compute. reflexivity.
  - intros n [->|Hn]; [vm_compute; reflexivity|].
    apply list_elem_of_In in Hn. simpl in Hn.
    destruct Hn as [<-|[<-|[]]]; vm_compute; reflexivity.
  - intros sd Hsd. apply list_elem_of_singleton in Hsd as ->.
    vm_compute. repeat split; reflexivity.
Defined.

(** ** What the converter never touches *)

(** The columns of a token that the converter only reads. *)
Definition word (nd : Node) : string * string * string * string * string :=
  (form nd, lemma nd, upos nd, xpos nd, feats nd).

(** [frame plain K t t']: going from [t] to [t'], no token is added and
    the tokens left keep their order; messages are only added to the log;
    no token changes its form, lemma, tags or features, nor an entry of
    [misc] whose key is not in [K]; and, if [plain] holds, the empty nodes
    and the secondary dependencies are the same. *)
Record frame (plain : bool) (K : list string) (t t' : Root) : Prop := {
  frame_tokens : sublist (descendants t') (descendants t);
  frame_log : log t `prefix_of` log t';
  frame_word : ∀ x, word (node t' x) = word (node t x);
  frame_misc : ∀ x k, k ∉ K → get_misc t' x k = get_misc t x k;
  frame_empty :
    plain = true →
    unnumbered <$> empty_nodes t' = unnumbered <$> empty_nodes t;
  frame_empty_kept :
    plain = true → descendants t' = descendants t →
    empty_nodes t' = empty_nodes t;
  frame_deps : plain = true → ∀ x, deps (node t' x) = deps (node t x) }.

Definition member_keys : list string := ["AposMember"; "CoordMember"].

Definition written_keys : list string :=
  ["AposMember"; "CoordMember"; "art_deps"; "original_ord"].

Lemma member_keys_written : member_keys ⊆ written_keys.
Proof.
  intros k Hk. apply elem_of_cons in Hk as [->|Hk]; [by_compute|].
  apply elem_of_cons in Hk as [->|Hk]; [by_compute|].
  by apply elem_of_nil in Hk.
Qed.

Lemma frame_refl plain K t : frame plain K t t.
Proof. by split. Qed.

Lemma frame_trans plain K t1 t2 t3 :
  frame plain K t1 t2 → frame plain K t2 t3 → frame plain K t1 t3.
Proof.
  intros [Ht1 Hl1 Hw1 Hm1 He1 Hk1 Hd1] [Ht2 Hl2 Hw2 Hm2 He2 Hk2 Hd2]. split.
  - by etransitivity.
  - by etransitivity.
  - intros x. by rewrite Hw2.
  - intros x k Hk. by rewrite Hm2, Hm1.
  - intros Hp. by rewrite He2, He1.
  - intros Hp Heq.
    assert (descendants t2 = descendants t1) as H12.
    { apply (anti_symm sublist); [done|]. by rewrite <- Heq. }
    rewrite Hk2, Hk1; [done..|]. by rewrite H12.
  - intros Hp x. by rewrite Hd2, Hd1.
Qed.

Lemma frame_weaken plain plain' K K' t t' :
  (plain' = true → plain = true) → K ⊆ K' →
  frame plain K t t' → frame plain' K' t t'.
Proof.
  intros Hp HK [Ht Hl Hw Hm He Hs Hd]. split; [done|done|done| |auto|auto|auto].
  intros x k Hk. apply Hm. intros Hin. apply Hk, HK, Hin.
Qed.

(** A change of parent pointers, with tokens removed and the empty nodes
    renumbered. *)
Lemma frame_same_labels_renumbered plain K t t' :
  sublist (descendants t') (descendants t) → log t `prefix_of` log t' →
  unnumbered <$> empty_nodes t' = unnumbered <$> empty_nodes t →
  (descendants t' = descendants t → empty_nodes t' = empty_nodes t) →
  same_labels t t' →
  frame plain K t t'.
Proof.
  intros Ht Hl He Hk Hs. split; try done.
  - intros x. unfold word. pose proof (Hs x) as Hx.
    by injection Hx as -> -> -> -> -> _ _ _.
  - intros x k _. by apply same_labels_misc.
  - intros _ x. pose proof (Hs x) as Hx. by injection Hx.
Qed.

(** A change of parent pointers alone. *)
Lemma frame_same_labels plain K t t' :
  sublist (descendants t') (descendants t) → log t `prefix_of` log t' →
  empty_nodes t' = empty_nodes t → same_labels t t' →
  frame plain K t t'.
Proof.
  intros Ht Hl He Hs.
  apply frame_same_labels_renumbered; [done|done|by rewrite He|done|done].
Qed.

Lemma frame_set_deprel plain K t n d : frame plain K t (set_deprel t n d).
Proof.
  unfold set_deprel.
  split; try done; intros; try intros;
    unfold get_misc; rewrite node_set_node; by destruct (decide _) as [->|].
Qed.

Lemma frame_set_misc plain K t n k v :
  k ∈ K → frame plain K t (set_misc t n k v).
Proof.
  intros Hk. unfold set_misc. split; try done.
  - intros x. rewrite node_set_node. by destruct (decide _) as [->|].
  - intros x k' Hk'. unfold get_misc. rewrite node_set_node.
    destruct (decide _) as [->|]; [|done]. simpl.
    unfold misc_set, misc_get. assert (k ≠ k') as Hne by (by intros ->).
    case_bool_decide; [by rewrite lookup_delete_ne|by rewrite lookup_insert_ne].
  - intros _ x. rewrite node_set_node. by destruct (decide _) as [->|].
Qed.

Lemma frame_pass_misc plain K k src dst t :
  k ∈ K → frame plain K t (pass_misc k src dst t).
Proof.
  intros Hk. unfold pass_misc. destruct (truthy _); [|apply frame_refl].
  by apply frame_set_misc.
Qed.

Lemma frame_logging plain K lv m t : frame plain K t (logging lv m t).
Proof. split; try done. simpl. by apply prefix_app_r. Qed.

Lemma frame_set_parent plain K t n po t' :
  set_parent t n po = Ok t' → frame plain K t t'.
Proof.
  intros [[-> _]|(p & -> & _ & _ & _ & _ & ->)]%set_parent_Ok;
    [apply frame_refl|].
  destruct (reparented_set_node t n p) as (Hd & He & Hl & _ & Hs).
  apply frame_same_labels; [by rewrite Hd|by rewrite Hl|done|done].
Qed.

Lemma frame_remove plain K t n mode t' :
  remove t n mode = Ok t' → frame plain K t t'.
Proof.
  destruct mode; intros Hrun.
  - apply remove_rehang_Ok in Hrun as (Hin & Hd & He & Hl & _ & Hs).
    apply frame_same_labels_renumbered; [|by rewrite Hl| |
                                         |done].
    + rewrite Hd. apply sublist_filter.
    + rewrite He. apply unnumbered_lower_empties.
    + intros Heq. rewrite <- Heq, Hd in Hin.
      by apply list_elem_of_filter in Hin as [? _].
  - pose proof Hrun as (Hin & Hd & He & Hn)%remove_warn_Ok.
    apply frame_same_labels_renumbered; [| | | |].
    + rewrite Hd. apply sublist_filter.
    + unfold remove in Hrun. case_bool_decide; [|done].
      injection Hrun as <-. destruct (children t n); [done|].
      simpl. by apply prefix_app_r.
    + rewrite He. apply unnumbered_lower_empties.
    + intros Heq. rewrite <- Heq, Hd in Hin.
      apply list_elem_of_filter in Hin as [Hx _]. unfold in_subtree in Hx.
      by rewrite bool_decide_eq_true_2 in Hx.
    + intros x. unfold node. by rewrite Hn.
Qed.

Lemma frame_for_each {A} plain K (body : A → Root → result Root) xs t t' :
  (∀ c s s', c ∈ xs → body c s = Ok s' → frame plain K s s') →
  for_each body xs t = Ok t' → frame plain K t t'.
Proof.
  intros Hbody. apply (for_each_inv (frame plain K t)); [|apply frame_refl].
  intros c a b Hc Ha Hb. eapply frame_trans; [done|]. by eapply Hbody.
Qed.

Lemma frame_redraw_subtree plain K new_head current_head t t' :
  member_keys ⊆ K →
  redraw_subtree new_head current_head t = Ok t' → frame plain K t t'.
Proof.
  intros HK. unfold redraw_subtree.
  intros (t1 & H1 & (t2 & H2 & H3)%bind_Ok)%bind_Ok.
  eapply frame_trans; [by eapply frame_set_parent|].
  eapply frame_trans; [by eapply frame_set_parent|].
  eapply frame_trans; [apply (frame_pass_misc _ _ "AposMember" current_head new_head)|].
  { apply HK. by_compute. }
  eapply frame_trans; [apply (frame_pass_misc _ _ "CoordMember" current_head new_head)|].
  { apply HK. by_compute. }
  revert H3. apply frame_for_each. intros c s s' _.
  case_bool_decide; [apply frame_set_parent|intros [= <-]; apply frame_refl].
Qed.

Lemma frame_attach_right plain K element attr val t t' :
  attach_right element attr val t = Ok t' → frame plain K t t'.
Proof.
  unfold attach_right. destruct (get_parent t element); [|done].
  generalize (filter (λ ch, precedes t ch element = false) (children t n)).
  induction l as [|b bs IH]; simpl.
  - intros [= <-]. apply frame_refl.
  - case_bool_decide; [apply frame_set_parent|done].
Qed.

Section Frame.
Variables (is_prague_bridge_subtree is_coord_subtree is_apos_subtree
           is_copula_subtree is_ellipsis_subtree : Root → nat → bool).
Variable get_subtree_depth : Root → list (nat * nat).
Variable recursion_limit : nat.
Variables (plain : bool) (K : list string).
Hypothesis HK : member_keys ⊆ K.

Lemma frame_rewrite_bridge subtree t t' :
  rewrite_bridge subtree t = Ok t' → frame plain K t t'.
Proof.
  unfold rewrite_bridge. intros (ch & _ & Hrun)%bind_Ok.
  destruct ch as [|newh [|? ?]];
    try (injection Hrun as <-; apply frame_logging).
  by eapply frame_redraw_subtree.
Qed.

Lemma frame_remove_if (b : bool) subtree t t' :
  (if b then remove t subtree Warn else Ok t) = Ok t' → frame plain K t t'.
Proof.
  destruct b; [apply frame_remove|intros [= <-]; apply frame_refl].
Qed.

Lemma frame_rewrite_coord subtree t t' :
  rewrite_coord subtree t = Ok t' → frame plain K t t'.
Proof.
  unfold rewrite_coord. destruct (filter _ _) as [|first members].
  { intros [= <-]. apply frame_logging. }
  intros (t1 & H1 & (t2 & H2 & (t3 & H3 & (t4 & H4 & (t5 & H5 & H6)%bind_Ok
    )%bind_Ok)%bind_Ok)%bind_Ok)%bind_Ok.
  eapply frame_trans; [by eapply frame_set_parent|].
  eapply frame_trans.
  { eapply frame_for_each; [|exact H2]. intros m s s' _ (s1 & Hs1 & [= <-])%bind_Ok.
    eapply frame_trans; [by eapply frame_set_parent|apply frame_set_deprel]. }
  eapply frame_trans; [by eapply frame_set_parent|].
  eapply frame_trans.
  { eapply frame_for_each; [|exact H4]. intros c s s' _ (s1 & Hs1 & [= <-])%bind_Ok.
    eapply frame_trans; [by eapply frame_set_parent|].
    destruct (_ && _); [apply frame_set_deprel|apply frame_refl]. }
  eapply frame_trans; [by eapply frame_remove_if|].
  revert H6. apply frame_for_each. intros c s s' _.
  destruct (_ && _); [apply frame_attach_right|intros [= <-]; apply frame_refl].
Qed.

Lemma frame_rewrite_apos subtree t t' :
  rewrite_apos subtree t = Ok t' → frame plain K t t'.
Proof.
  unfold rewrite_apos. destruct (filter _ _) as [|first members].
  { intros [= <-]. apply frame_logging. }
  intros (t1 & H1 & (t2 & H2 & (t3 & H3 & H4)%bind_Ok)%bind_Ok)%bind_Ok.
  eapply frame_trans; [by eapply frame_set_parent|].
  eapply frame_trans.
  { eapply frame_for_each; [|exact H2]. intros m s s' _ (s1 & Hs1 & [= <-])%bind_Ok.
    eapply frame_trans; [by eapply frame_set_parent|apply frame_set_deprel]. }
  eapply frame_trans.
  { eapply frame_for_each; [|exact H3]. intros c s s' _. apply frame_set_parent. }
  destruct (is_artificial t3 subtree); [by eapply frame_remove|].
  apply bind_Ok in H4 as (t4 & H4 & [= <-]).
  eapply frame_trans; [by eapply frame_set_parent|apply frame_set_deprel].
Qed.

Lemma frame_rewrite_copula subtree t t' :
  rewrite_copula subtree t = Ok t' → frame plain K t t'.
Proof.
  unfold rewrite_copula. destruct (filter _ _) as [|pnom ?].
  { intros [= <-]. apply frame_logging. }
  intros (t1 & H1 & H2)%bind_Ok.
  eapply frame_trans; [apply frame_set_deprel|].
  eapply frame_trans; [by eapply frame_redraw_subtree|].
  destruct (is_artificial t1 subtree).
  - apply bind_Ok in H2 as (t2 & H2 & [= <-]).
    eapply frame_trans; [by eapply frame_remove|apply frame_logging].
  - apply bind_Ok in H2 as (t2 & H2 & [= <-]).
    eapply frame_trans; [by eapply frame_set_parent|apply frame_set_deprel].
Qed.

Lemma frame_rewrite_ellipsis subtree t t' :
  rewrite_ellipsis subtree t = Ok t' → frame plain K t t'.
Proof.
  unfold rewrite_ellipsis. destruct (get_first_in_priority _ _ _).
  - intros Hrun. eapply frame_trans; [apply frame_set_deprel|].
    by eapply frame_redraw_subtree.
  - intros [= <-]. apply frame_logging.
Qed.

Lemma frame_process_subtree subtree t t' :
  process_subtree is_prague_bridge_subtree is_coord_subtree is_apos_subtree
                  is_copula_subtree is_ellipsis_subtree subtree t = Ok t' →
  frame plain K t t'.
Proof.
  unfold process_subtree.
  destruct (is_prague_bridge_subtree _ _); [apply frame_rewrite_bridge|].
  destruct (is_coord_subtree _ _); [apply frame_rewrite_coord|].
  destruct (is_apos_subtree _ _); [apply frame_rewrite_apos|].
  destruct (is_copula_subtree _ _); [apply frame_rewrite_copula|].
  destruct (is_ellipsis_subtree _ _); [apply frame_rewrite_ellipsis|].
  intros [= <-]. apply frame_refl.
Qed.

End Frame.

Lemma frame_write_deps_in_misc t t' :
  write_deps_in_misc t = Ok t' → frame true written_keys t t'.
Proof.
  unfold write_deps_in_misc. apply frame_for_each. intros n s s' _.
  destruct (get_parent s n); [|done].
  destruct (_ || _); intros [= <-]; [|apply frame_refl].
  apply frame_set_misc. by_compute.
Qed.

Lemma frame_stamp_original_ord arts t :
  frame true written_keys t
    (foldl (λ t a, set_misc t a "original_ord" (PStr (str_of_nat (ord t a))))
           t arts).
Proof.
  revert t. induction arts as [|a arts IH]; intros t; [apply frame_refl|].
  simpl. eapply frame_trans; [|apply IH]. apply frame_set_misc. by_compute.
Qed.

Lemma frame_copy_one recursion_limit art t t' :
  copy_one recursion_limit art t = Ok t' → frame false [] t t'.
Proof.
  unfold copy_one. intros (ord_id & _ & Hrun)%bind_Ok.
  eapply frame_trans; [|by eapply frame_remove].
  eapply frame_trans; [|apply frame_logging]. by split.
Qed.

Lemma frame_resolve_empty m i t t' :
  resolve_empty m i t = Ok t' → frame false [] t t'.
Proof.
  unfold resolve_empty. destruct (empty_nodes t !! i) as [e|]; [|done].
  destruct (misc_get _ _) as [s|[]]; try done.
  2: { intros [= <-]. apply frame_logging. }
  destruct (truthy _); [|intros [= <-]; apply frame_logging].
  destruct (split _ _) as [|dep [|rel [|]]]; try done.
  intros (ep & Hep & [= <-])%bind_Ok.
  apply (frame_trans _ _ _ ep.2); [|by split].
  destruct (m !! dep).
  { injection Hep as <-. apply frame_refl. }
  case_bool_decide.
  { injection Hep as <-. apply frame_logging. }
  destruct (int_of_str dep); [|done].
  destruct (nodes_with_ord t _); [done|].
  injection Hep as <-. apply frame_refl.
Qed.

Lemma frame_resolve_node m n t t' :
  resolve_node m n t = Ok t' → frame false [] t t'.
Proof.
  unfold resolve_node. destruct (get_misc _ _ _) as [s|[]]; try done.
  2: { intros [= <-]. apply frame_refl. }
  destruct (truthy _); [|intros [= <-]; apply frame_refl].
  destruct (split _ _) as [|dep [|rel [|]]]; try done.
  destruct (m !! dep); intros [= <-]; [|apply frame_refl].
  unfold append_dep. split; try done.
  - intros x. rewrite node_set_node. by destruct (decide _) as [->|].
  - intros x k _. unfold get_misc. rewrite node_set_node.
    by destruct (decide _) as [->|].
Qed.

Lemma frame_resolve recursion_limit t t' :
  resolve recursion_limit t = Ok t' → frame false [] t t'.
Proof.
  unfold resolve. intros (t1 & H1 & Hrun)%bind_Ok.
  eapply frame_trans.
  { eapply frame_for_each; [|exact H1]. intros c s s' _. apply frame_copy_one. }
  destruct (filter _ (descendants t)); [injection Hrun as <-; apply frame_refl|].
  apply bind_Ok in Hrun as (t2 & H2 & Hrun).
  eapply frame_trans.
  { eapply frame_for_each; [|exact H2]. intros c s s' _. apply frame_resolve_empty. }
  revert Hrun. apply frame_for_each. intros c s s' _. apply frame_resolve_node.
Qed.


(** "Caesar [0] Brutus veniunt" with an empty node after "Brutus": a
    coordination without a conjunction, headed by an artificial token. *)
Definition asyndeton : Root :=
  let s := sentence
    [ tok "Caesar" "PROPN" "n" "nsubj"
          [("original_dep", PStr "SBJ_CO"); ("CoordMember", PBool true)] 2;
      tok "[0]" "CCONJ" "c" "nsubj"
          [("original_dep", PStr "COORD"); ("NodeType", PStr "Artificial")] 4;
      tok "Brutus" "PROPN" "n" "nsubj"
          [("original_dep", PStr "SBJ_CO"); ("CoordMember", PBool true)] 2;
      tok "veniunt" "VERB" "v" "root" [("original_dep", PStr "PRED")] 0 ] in
  mkRoot (nodes s) (descendants s)
         [mkEmpty (float_of_decimal 3 1) "E3.1" None None None None ∅ []] [].



(** ** The artificial tokens in enhanced mode *)

Lemma copy_one_effect recursion_limit art t t' :
  copy_one recursion_limit art t = Ok t' →
  descendants t' = filter (λ x, x ≠ art) (descendants t)
  ∧ List.length (empty_nodes t') = S (List.length (empty_nodes t)).
Proof.
  unfold copy_one. intros (ord_id & _ & Hrun)%bind_Ok.
  apply remove_rehang_Ok in Hrun as (_ & Hd & He & _).
  split; [done|]. rewrite He, length_fmap. simpl. rewrite length_app. simpl. lia.
Qed.

(** The list [l] without the elements of [gone]. *)
Definition without (gone l : list nat) : list nat :=
  filter (λ x, x ∉ gone) l.

Lemma copy_to_empty_effect recursion_limit arts t t' :
  copy_to_empty recursion_limit arts t = Ok t' →
  descendants t' = filter (λ x, x ∉ arts) (descendants t)
  ∧ List.length (empty_nodes t')
    = List.length (empty_nodes t) + List.length arts.
Proof.
  unfold copy_to_empty.
  apply (for_each_hist (λ done s,
    descendants s = without done (descendants t)
    ∧ List.length (empty_nodes s)
      = List.length (empty_nodes t) + List.length done)).
  - split; [|simpl; lia]. symmetry. apply filter_all.
    intros x _. apply not_elem_of_nil.
  - intros done c rest a b _ [Hd He] [Hd' He']%copy_one_effect. split.
    + rewrite Hd', Hd. unfold without. rewrite list_filter_filter.
      apply filter_ext_elem.
      intros x _. rewrite elem_of_app, list_elem_of_singleton. tauto.
    + rewrite He', He, length_app. simpl. lia.
Qed.

Lemma resolve_empty_length m i t t' :
  resolve_empty m i t = Ok t' →
  List.length (empty_nodes t') = List.length (empty_nodes t).
Proof.
  unfold resolve_empty. destruct (empty_nodes t !! i) as [e|]; [|done].
  destruct (misc_get _ _) as [s|[]]; try done.
  2: { by intros [= <-]. }
  destruct (truthy _); [|by intros [= <-]].
  destruct (split _ _) as [|dep [|rel [|]]]; try done.
  intros (ep & Hep & [= <-])%bind_Ok. simpl. rewrite length_insert.
  destruct (m !! dep); [by injection Hep as <-|].
  case_bool_decide; [by injection Hep as <-|].
  destruct (int_of_str dep); [|done].
  destruct (nodes_with_ord t _); [done|]. by injection Hep as <-.
Qed.

Lemma resolve_node_empty_nodes m n t t' :
  resolve_node m n t = Ok t' → empty_nodes t' = empty_nodes t.
Proof.
  unfold resolve_node. destruct (get_misc _ _ _) as [s|[]]; try done.
  2: { by intros [= <-]. }
  destruct (truthy _); [|by intros [= <-]].
  destruct (split _ _) as [|dep [|rel [|]]]; try done.
  by destruct (m !! dep); intros [= <-].
Qed.

Lemma artificial_filter t x :
  x ∈ filter (λ n, is_artificial t n = true) (descendants t)
  ↔ is_artificial t x = true ∧ x ∈ descendants t.
Proof. by rewrite list_elem_of_filter. Qed.

Lemma resolve_effect recursion_limit t t' :
  resolve recursion_limit t = Ok t' →
  descendants t'
  = filter (λ n, is_artificial t n = false) (descendants t)
  ∧ List.length (empty_nodes t')
    = List.length (empty_nodes t)
      + List.length (filter (λ n, is_artificial t n = true) (descendants t)).
Proof.
  intros Hrun. unfold resolve in Hrun.
  apply bind_Ok in Hrun as (t1 & H1 & Hrun).
  apply copy_to_empty_effect in H1 as [Hd1 He1].
  assert (descendants t1
          = filter (λ n, is_artificial t n = false) (descendants t)) as Hd.
  { rewrite Hd1. apply filter_ext_elem. intros x Hx.
    rewrite artificial_filter. destruct (is_artificial t x).
    - split; [|done]. intros H. destruct H. by split.
    - split; [done|]. intros _ [? _]. done. }
  destruct (filter (λ n, is_artificial t n = true) (descendants t)) eqn:Harts.
  { injection Hrun as <-. by split. }
  rewrite <- Harts in *. clear Harts.
  apply bind_Ok in Hrun as (t2 & H2 & Hrun).
  assert (descendants t2 = descendants t1
          ∧ List.length (empty_nodes t2) = List.length (empty_nodes t1))
    as [Hd2 He2].
  { revert H2. apply (for_each_inv (λ s, descendants s = descendants t1
      ∧ List.length (empty_nodes s) = List.length (empty_nodes t1)));
      [|done].
    intros i a b _ [Ha1 Ha2] Hb. split.
    - apply resolve_empty_same_shape in Hb as [-> _]. done.
    - apply resolve_empty_length in Hb as ->. done. }
  assert (descendants t' = descendants t2
          ∧ empty_nodes t' = empty_nodes t2) as [Hd3 He3].
  { revert Hrun. apply (for_each_inv (λ s, descendants s = descendants t2
      ∧ empty_nodes s = empty_nodes t2)); [|done].
    intros i a b _ [Ha1 Ha2] Hb. split.
    - apply resolve_node_same_shape in Hb as [-> _]. done.
    - apply resolve_node_empty_nodes in Hb as ->. done. }
  split; [congruence|]. rewrite He3, He2. done.
Qed.

(** X4. The last part of [process_tree] in enhanced mode, when it returns,
    has deleted exactly the artificial tokens, keeping the others in their
    order, and has added exactly one empty node for each of them. *)
Theorem resolve_replaces_artificials (recursion_limit : nat) (t t' : Root) :
  resolve recursion_limit t = Ok t' →
  descendants t'
  = filter (λ n, is_artificial t n = false) (descendants t)
  ∧ List.length (empty_nodes t')
    = List.length (empty_nodes t)
      + List.length (filter (λ n, is_artificial t n = true) (descendants t))
  ∧ ∀ n, n ∈ descendants t' → is_artificial t' n = false.
Proof.
  intros Hrun. destruct (resolve_effect _ _ _ Hrun) as [Hd He].
  split; [done|]. split; [done|]. intros n Hn.
  rewrite Hd in Hn. apply list_elem_of_filter in Hn as [Hart _].
  unfold is_artificial.
  rewrite (frame_misc _ _ _ _ (frame_resolve _ _ _ Hrun)); [done|].
  apply not_elem_of_nil.
Qed.

Lemma resolve_replaces_artificials_witness :
  descendants (or_else (resolve 1000 duo) duo)
  = filter (λ n, is_artificial duo n = false) (descendants duo)
  ∧ List.length (empty_nodes (or_else (resolve 1000 duo) duo))
    = List.length (empty_nodes duo)
      + List.length (filter (λ n, is_artificial duo n = true)
                            (descendants duo))
  ∧ ∀ n, n ∈ descendants (or_else (resolve 1000 duo) duo) →
         is_artificial (or_else (resolve 1000 duo) duo) n = false.
Proof.
  apply (resolve_replaces_artificials 1000 duo).
  vm_compute. reflexivity.
Defined.

(** X5. In enhanced mode, no token of the sentence that [process_tree]
    returns is artificial, and none was artificial to begin with. *)
Theorem enhanced_output_has_no_artificial_token
  (is_prague_bridge_subtree is_coord_subtree is_apos_subtree
   is_copula_subtree is_ellipsis_subtree : Root → nat → bool)
  (get_subtree_depth : Root → list (nat * nat)) (recursion_limit : nat)
  (t t' : Root) :
  process_tree is_prague_bridge_subtree is_coord_subtree is_apos_subtree
               is_copula_subtree is_ellipsis_subtree get_subtree_depth
               recursion_limit true t = Ok t' →
  ∀ n, n ∈ descendants t' →
       is_artificial t' n = false ∧ is_artificial t n = false.
Proof.
  intros Hrun n Hn.
  assert (∀ a b x, frame false written_keys a b →
          is_artificial b x = is_artificial a x) as Hart.
  { intros a b x Hf. unfold is_artificial.
    rewrite (frame_misc _ _ _ _ Hf); [done|]. by_compute. }
  unfold process_tree in Hrun.
  apply bind_Ok in Hrun as (t1 & H1 & (t2 & H2 & H3)%bind_Ok).
  apply bind_Ok in H1 as (t0 & H0 & [= <-]).
  assert (frame false written_keys t t2) as Hf2.
  { eapply frame_trans.
    { eapply frame_weaken; [| |by eapply frame_write_deps_in_misc]; done. }
    eapply frame_trans.
    { eapply frame_weaken; [| |apply frame_stamp_original_ord]; done. }
    eapply frame_for_each; [|exact H2]. intros sd s s' _.
    apply frame_process_subtree, member_keys_written. }
  pose proof (frame_resolve _ _ _ H3) as Hf3.
  destruct (resolve_effect _ _ _ H3) as [Hd _].
  rewrite Hd in Hn. apply list_elem_of_filter in Hn as [Hn _].
  rewrite <- (Hart t t2 n Hf2), Hn. split; [|done].
  unfold is_artificial. rewrite (frame_misc _ _ _ _ Hf3); [done|].
  apply not_elem_of_nil.
Qed.

Lemma enhanced_output_has_no_artificial_token_witness :
  is_artificial veniunt_enhanced 8 = false ∧ is_artificial veniunt 8 = false.
Proof.
  apply (enhanced_output_has_no_artificial_token
           (original_dep_is "AuxP") (original_dep_is "COORD")
           (original_dep_is "APOS") (original_dep_is "PRED_COP")
           (original_dep_is "ExD_HEAD") (λ _, veniunt_schedule) 1000
           veniunt veniunt_enhanced).
  - vm_compute. reflexivity.
  - by_compute.
Defined.

(** ** Reading back what was stored in [misc] *)

Lemma misc_get_set m k v k' :
  misc_get (misc_set m k v) k' = if decide (k' = k) then v else misc_get m k'.
Proof.
  unfold misc_get, misc_set. destruct (decide (k' = k)) as [->|Hne].
  - case_bool_decide as Hv.
    + by rewrite lookup_delete_eq, Hv.
    + by rewrite lookup_insert_eq.
  - case_bool_decide; [by rewrite lookup_delete_ne|by rewrite lookup_insert_ne].
Qed.

Lemma get_misc_set_misc t n k v x k' :
  get_misc (set_misc t n k v) x k'
  = if decide (x = n ∧ k' = k) then v else get_misc t x k'.
Proof.
  unfold get_misc, set_misc. rewrite node_set_node.
  destruct (decide (x = n)) as [->|Hx].
  - simpl. rewrite misc_get_set.
    destruct (decide (k' = k)); [by rewrite decide_True|].
    rewrite decide_False; [done|]. by intros [_ ?].
  - rewrite decide_False; [done|]. by intros [? _].
Qed.

Lemma get_misc_pass_misc k src dst t x k' :
  get_misc (pass_misc k src dst t) x k'
  = if decide (x = dst ∧ k' = k)
    then (if truthy (get_misc t src k) then get_misc t src k
          else get_misc t dst k)
    else get_misc t x k'.
Proof.
  unfold pass_misc. destruct (truthy (get_misc t src k)).
  - apply get_misc_set_misc.
  - destruct (decide _) as [[-> ->]|]; done.
Qed.

Lemma set_parent_misc t n po t' x k :
  set_parent t n po = Ok t' → get_misc t' x k = get_misc t x k.
Proof.
  intros H. apply (frame_misc true [] t t'); [|apply not_elem_of_nil].
  by eapply frame_set_parent.
Qed.

(** X6. [redraw_subtree] hands the membership flags of the current head
    over to the new head: for each of [AposMember] and [CoordMember], the
    new head takes the value of the current head when that value is
    truthy, and keeps its own otherwise; no other entry of [misc] of any
    token changes, and the current head keeps its flags. *)
Theorem redraw_subtree_hands_over_membership
  (new_head current_head : nat) (t t' : Root) :
  redraw_subtree new_head current_head t = Ok t' →
  ∀ x k, get_misc t' x k
         = if decide (x = new_head ∧ k ∈ member_keys)
           then (if truthy (get_misc t current_head k)
                 then get_misc t current_head k
                 else get_misc t new_head k)
           else get_misc t x k.
Proof.
  unfold redraw_subtree.
  intros (t1 & H1 & (t2 & H2 & H3)%bind_Ok)%bind_Ok x k.
  assert (∀ y j, get_misc t2 y j = get_misc t y j) as H12.
  { intros y j. rewrite (set_parent_misc _ _ _ _ _ _ H2).
    by rewrite (set_parent_misc _ _ _ _ _ _ H1). }
  transitivity (get_misc
    (pass_misc "CoordMember" current_head new_head
       (pass_misc "AposMember" current_head new_head t2)) x k).
  { apply (frame_misc true [] _ t'); [|apply not_elem_of_nil].
    eapply frame_for_each; [|exact H3]. intros c s s' _. cbv beta.
    case_bool_decide; [apply frame_set_parent|intros [= <-]; apply frame_refl]. }
  rewrite !get_misc_pass_misc, !H12.
  destruct (decide (x = new_head)) as [->|Hx].
  - destruct (decide (k = "CoordMember")) as [->|Hk1].
    + rewrite decide_True by done.
      rewrite (decide_False (P := current_head = new_head
                                  ∧ "CoordMember" = "AposMember"))
        by (by intros [_ ?]).
      rewrite (decide_False (P := new_head = new_head
                                  ∧ "CoordMember" = "AposMember"))
        by (by intros [_ ?]).
      rewrite decide_True; [done|]. split; [done|]. by_compute.
    + rewrite (decide_False (P := new_head = new_head ∧ k = "CoordMember"))
        by (by intros [_ ?]).
      destruct (decide (k = "AposMember")) as [->|Hk2].
      * rewrite decide_True by done. rewrite decide_True; [done|].
        split; [done|]. by_compute.
      * rewrite decide_False by (by intros [_ ?]).
        rewrite decide_False; [done|]. intros [_ Hin].
        apply elem_of_cons in Hin as [?|Hin]; [done|].
        apply elem_of_cons in Hin as [?|Hin]; [done|].
        by apply elem_of_nil in Hin.
  - rewrite !decide_False by (by intros [? _]). done.
Qed.

(** "venit in urbem", where the preposition has been marked as a member
    of a coordination. *)
Definition in_urbem_membrum : Root :=
  sentence
    [ tok "venit" "VERB" "v" "root" [("original_dep", PStr "PRED")] 0;
      tok "in" "ADP" "r" "case"
          [("original_dep", PStr "AuxP"); ("CoordMember", PBool true)] 1;
      tok "urbem" "NOUN" "n" "obl" [("original_dep", PStr "ADV_CO")] 2 ].

Lemma redraw_subtree_hands_over_membership_witness :
  get_misc (or_else (redraw_subtree 3 2 in_urbem_membrum) in_urbem_membrum)
           3 "CoordMember" = PBool true.
Proof.
  rewrite (redraw_subtree_hands_over_membership 3 2 in_urbem_membrum
             (or_else (redraw_subtree 3 2 in_urbem_membrum) in_urbem_membrum));
    vm_compute; reflexivity.
Defined.

(** ** The records of the pre-pass *)

(** What [write_deps_in_misc] leaves in [art_deps] of the token [n]. *)
Definition art_deps_record (t : Root) (n : nat) : PyVal :=
  match get_parent t n with
  | Some p =>
      if is_artificial t n || is_artificial t p
      then PStr (str_of_nat (ord t p) ++ "%:%" ++ deprel (node t n))
      else get_misc t n "art_deps"
  | None => get_misc t n "art_deps"
  end.

Lemma is_artificial_ext t s x :
  (∀ k, k ≠ "art_deps" → get_misc s x k = get_misc t x k) →
  is_artificial s x = is_artificial t x.
Proof. intros H. unfold is_artificial. by rewrite H. Qed.

(** X7. On a well-formed sentence [write_deps_in_misc] always returns. It
    changes nothing but the entry [art_deps] of [misc]: the tokens, their
    parents, their labels and every other entry are as before. The entry
    [art_deps] of a token that is artificial, or whose parent is, becomes
    the ordinal of its parent, then "%:%", then its relation label; the
    entry of every other token is left as it was. *)
Theorem write_deps_in_misc_records (t : Root) :
  tree_ok t →
  ∃ t', write_deps_in_misc t = Ok t'
        ∧ same_shape t t'
        ∧ same_deprels t t'
        ∧ empty_nodes t' = empty_nodes t ∧ log t' = log t
        ∧ (∀ x k, k ≠ "art_deps" → get_misc t' x k = get_misc t x k)
        ∧ (∀ x, x ∈ descendants t →
              get_misc t' x "art_deps" = art_deps_record t x)
        ∧ (∀ x, x ∉ descendants t →
              get_misc t' x "art_deps" = get_misc t x "art_deps").
Proof.
  intros Hok. unfold write_deps_in_misc.
  apply (for_each_split (λ done s,
    same_shape t s ∧ same_deprels t s
    ∧ empty_nodes s = empty_nodes t ∧ log s = log t
    ∧ (∀ x k, k ≠ "art_deps" → get_misc s x k = get_misc t x k)
    ∧ (∀ x, x ∈ done → get_misc s x "art_deps" = art_deps_record t x)
    ∧ (∀ x, x ∉ done → get_misc s x "art_deps" = get_misc t x "art_deps"))).
  { split; [apply same_shape_refl|]. split; [apply same_deprels_refl|].
    split; [done|]. split; [done|]. split; [done|].
    split; [by intros x ?%elem_of_nil|done]. }
  intros done c rest s Hxs (Hss & Hds & Hes & Hls & Hms & Hin & Hout).
  assert (c ∈ descendants t) as Hc.
  { rewrite Hxs. apply elem_of_app. right. left. }
  assert (c ∉ done) as Hcd.
  { pose proof (ok_nodup _ Hok) as Hnd. rewrite Hxs in Hnd.
    apply NoDup_app in Hnd as (_ & Hnd & _). intros Hd.
    apply (Hnd c Hd). left. }
  destruct (parent_live t Hok c Hc) as (p & Hp & _).
  pose proof Hss as [Hsd Hsp]. rewrite Hsp, Hp.
  assert (art_deps_record t c
          = if is_artificial s c || is_artificial s p
            then PStr (str_of_nat (ord s p) ++ "%:%" ++ deprel (node s c))
            else get_misc s c "art_deps") as Hrec.
  { unfold art_deps_record. rewrite Hp.
    rewrite !(is_artificial_ext t s) by (intros; by apply Hms).
    rewrite (same_shape_ord _ _ _ Hss), Hds, (Hout c Hcd). done. }
  assert (∀ s', (s' = s ∨ ∃ v, s' = set_misc s c "art_deps" v) →
          get_misc s' c "art_deps" = art_deps_record t c →
          same_shape t s' ∧ same_deprels t s'
          ∧ empty_nodes s' = empty_nodes t ∧ log s' = log t
          ∧ (∀ x k, k ≠ "art_deps" → get_misc s' x k = get_misc t x k)
          ∧ (∀ x, x ∈ done ++ [c] →
                get_misc s' x "art_deps" = art_deps_record t x)
          ∧ (∀ x, x ∉ done ++ [c] →
                get_misc s' x "art_deps" = get_misc t x "art_deps")) as Hstep.
  { intros s' Hs' Hval.
    assert (∀ x k, (x ≠ c ∨ k ≠ "art_deps") →
            get_misc s' x k = get_misc s x k) as Hother.
    { intros x k Hxk. destruct Hs' as [->|(v & ->)]; [done|].
      rewrite get_misc_set_misc. rewrite decide_False; [done|].
      intros [-> ->]. by destruct Hxk. }
    split.
    { destruct Hs' as [->|(v & ->)]; [done|].
      eapply same_shape_trans; [done|apply same_shape_set_misc]. }
    split.
    { destruct Hs' as [->|(v & ->)]; [done|].
      eapply same_deprels_trans; [done|apply same_deprels_set_misc]. }
    split; [by destruct Hs' as [->|(v & ->)]|].
    split; [by destruct Hs' as [->|(v & ->)]|].
    split.
    { intros x k Hk. rewrite Hother by (by right). by apply Hms. }
    split.
    - intros x [Hx|Hx%list_elem_of_singleton]%elem_of_app; [|by subst].
      rewrite Hother; [by apply Hin|]. left. by intros ->.
    - intros x Hx. rewrite Hother; [apply Hout|].
      + intros Hd. apply Hx, elem_of_app. by left.
      + left. intros ->. apply Hx, elem_of_app. right. left. }
  destruct (is_artificial s c || is_artificial s p) eqn:Hart.
  - eexists. split; [done|]. apply Hstep; [right; by eexists|].
    rewrite get_misc_set_misc, decide_True by done. by rewrite Hrec.
  - exists s. split; [done|]. apply Hstep; [by left|]. by rewrite Hrec.
Qed.

Lemma write_deps_in_misc_records_witness :
  ∃ t', write_deps_in_misc veniunt = Ok t'
        ∧ same_shape veniunt t'
        ∧ same_deprels veniunt t'
        ∧ empty_nodes t' = empty_nodes veniunt ∧ log t' = log veniunt
        ∧ (∀ x k, k ≠ "art_deps" → get_misc t' x k = get_misc veniunt x k)
        ∧ (∀ x, x ∈ descendants veniunt →
              get_misc t' x "art_deps" = art_deps_record veniunt x)
        ∧ (∀ x, x ∉ descendants veniunt →
              get_misc t' x "art_deps" = get_misc veniunt x "art_deps").
Proof.
  apply write_deps_in_misc_records. apply tree_okb_ok. vm_compute. reflexivity.
Defined.

(** ** Attaching to a sibling on the right *)

(** [right_bros] in [attach_right]: the children of [h] that do not
    precede [element]. *)
Definition right_bros (t : Root) (element h : nat) : list nat :=
  filter (λ ch, precedes t ch element = false) (children t h).

(** The element itself is the first of them. *)
Lemma right_bros_head t element h :
  tree_ok t → element ∈ descendants t → get_parent t element = Some h →
  ∃ rest, right_bros t element h = element :: rest
          ∧ ∀ b, b ∈ rest → b ≠ element ∧ b ∈ children t h.
Proof.
  intros Hok Hel Hp. pose proof (ok_nodup _ Hok) as Hnd.
  destruct (list_elem_of_split _ _ Hel) as (l1 & l2 & Hd).
  rewrite Hd in Hnd. apply NoDup_app in Hnd as (_ & Hn1 & Hnd).
  apply NoDup_cons in Hnd as [Hn2 _].
  assert (element ∉ l1) as Hn1' by (intros H; apply (Hn1 _ H); left).
  assert (ord t element = S (List.length l1)) as Hord.
  { unfold ord. by rewrite Hd, position_app_r. }
  unfold right_bros, children. rewrite Hd, !filter_app, !filter_cons.
  rewrite (decide_True (P := get_parent t element = Some h)) by done.
  rewrite filter_cons, decide_True.
  2: { unfold precedes. apply bool_decide_eq_false_2. lia. }
  rewrite (filter_none (λ ch, precedes t ch element = false)
             (filter (λ c, get_parent t c = Some h) l1)).
  2: { intros x [_ Hx]%list_elem_of_filter. unfold precedes.
       rewrite bool_decide_eq_true_2; [done|]. rewrite Hord. unfold ord.
       rewrite Hd. destruct (position_app_l x l1 (element :: l2) Hx)
         as (i & -> & Hi). lia. }
  eexists. split; [done|].
  intros b Hb. apply list_elem_of_filter in Hb as [_ Hb].
  apply list_elem_of_filter in Hb as [Hb Hbl].
  split; [by intros ->|]. apply elem_of_app. right. right.
  by apply list_elem_of_filter.
Qed.

(** X8. [attach_right] on a token of a well-formed sentence. The list of
    siblings it walks begins with the element itself, since a node does
    not precede itself. So, if the attribute of the element has the value
    looked for, the element is assigned as its own parent and the parent
    setter raises. Otherwise the element is attached to the first sibling
    to its right whose attribute has the value, and nothing else changes;
    without such a sibling the sentence is left as it is. *)
Theorem attach_right_first_match
  (element : nat) (attr : Root → nat → string) (val : string) (t : Root) :
  tree_ok t → element ∈ descendants t →
  ∃ h rest,
    get_parent t element = Some h
    ∧ right_bros t element h = element :: rest
    ∧ (attr t element = val →
         attach_right element attr val t = Raise CycleError)
    ∧ (attr t element ≠ val →
         match filter (λ b, attr t b = val) rest with
         | [] => attach_right element attr val t = Ok t
         | b :: _ =>
             ∃ t', attach_right element attr val t = Ok t'
                   ∧ reparented t element b t' ∧ tree_ok t'
         end).
Proof.
  intros Hok Hel.
  destruct (parent_live t Hok element Hel) as (h & Hp & Hh).
  destruct (right_bros_head t element h Hok Hel Hp) as (rest & Hrb & Hrest).
  exists h, rest. split; [done|]. split; [done|].
  assert (attach_right element attr val t
          = match filter (λ b, attr t b = val) (element :: rest) with
            | [] => Ok t
            | b :: _ => set_parent t element (Some b)
            end) as Hrun.
  { unfold attach_right. rewrite Hp, <- Hrb. apply attach_right_loop_find. }
  rewrite Hrun, filter_cons. split.
  - intros Hval. rewrite decide_True by done. unfold set_parent.
    rewrite bool_decide_eq_false_2.
    2: { rewrite Hp. intros [= ->]. by apply (no_self_parent t element). }
    by rewrite bool_decide_eq_true_2.
  - intros Hval. rewrite decide_False by done.
    destruct (filter (λ b, attr t b = val) rest) as [|b bs] eqn:Hf; [done|].
    assert (b ∈ rest) as Hb.
    { assert (b ∈ filter (λ b, attr t b = val) rest) as Hin
        by (rewrite Hf; left).
      by apply list_elem_of_filter in Hin as [_ ?]. }
    destruct (Hrest b Hb) as [Hne [Hbd Hbp]%elem_of_children].
    destruct (ok_chain _ Hok element Hel) as (l & Hc & _).
    inversion Hc as [Heq|? h' lh Hp' Hch]; subst;
      [by destruct (ok_root _ Hok)|].
    assert (h' = h) as -> by congruence.
    destruct (set_parent_succeeds t element b (h :: lh))
      as (t' & Hset & Hre & Hok' & _); try done.
    + by right.
    + by apply chain_step.
    + apply not_elem_of_cons. split; [done|].
      apply (chain_not_in t (ok_root_parent _ Hok) element (h :: lh)).
      by apply chain_step.
    + by exists t'.
Qed.

Lemma attach_right_first_match_witness :
  ∃ h rest,
    get_parent veniunt 2 = Some h
    ∧ right_bros veniunt 2 h = 2 :: rest
    ∧ (udeprel veniunt 2 = "conj" →
         attach_right 2 udeprel "conj" veniunt = Raise CycleError)
    ∧ (udeprel veniunt 2 ≠ "conj" →
         match filter (λ b, udeprel veniunt b = "conj") rest with
         | [] => attach_right 2 udeprel "conj" veniunt = Ok veniunt
         | b :: _ =>
             ∃ t', attach_right 2 udeprel "conj" veniunt = Ok t'
                   ∧ reparented veniunt 2 b t' ∧ tree_ok t'
         end).
Proof.
  apply attach_right_first_match.
  - apply tree_okb_ok. vm_compute. reflexivity.
  - by_compute.
Defined.

(** ** The members of a coordination or an apposition *)

Lemma set_parent_quiet t n po t' :
  set_parent t n po = Ok t' →
  log t' = log t ∧ empty_nodes t' = empty_nodes t.
Proof.
  by intros [[-> _]|(p & _ & _ & _ & _ & _ & ->)]%set_parent_Ok.
Qed.

Lemma frame_upos plain K t t' x :
  frame plain K t t' → upos (node t' x) = upos (node t x).
Proof.
  intros Hf. pose proof (frame_word _ _ _ _ Hf x) as Hw.
  unfold word in Hw. by injection Hw.
Qed.

(** A chain is kept when the parent pointers along it are. *)
Lemma chain_agree t t' x l :
  chain t x l → (∀ y, y ∈ x :: l → get_parent t' y = get_parent t y) →
  chain t' x l.
Proof.
  induction 1 as [|x q l Hq Hc IH]; intros Hag; [constructor|].
  apply chain_step; [rewrite Hag; [done|left]|].
  apply IH. intros y Hy. apply Hag. by right.
Qed.

(** Removing a token without children removes that token only, without
    a warning. *)
Lemma filter_only {A} `{EqDecision A} (l : list A) (n : A) :
  NoDup l → n ∈ l → filter (λ x, x = n) l = [n].
Proof.
  induction 1 as [|a l Ha Hl IH]; [by intros ?%elem_of_nil|].
  intros [->|Hn]%elem_of_cons.
  - rewrite filter_cons_True by done. f_equal. apply filter_none.
    intros x Hx ->. done.
  - rewrite filter_cons_False by (by intros ->). by apply IH.
Qed.

Lemma remove_warn_leaf t n :
  tree_ok t → n ∈ descendants t → children t n = [] →
  remove t n Warn
  = Ok (mkRoot (nodes t) (filter (λ x, x ≠ n) (descendants t))
               (lower_empty t [n] <$> empty_nodes t) (log t)).
Proof.
  intros Hok Hn Hch. unfold remove. rewrite bool_decide_eq_true_2 by done.
  rewrite Hch.
  assert (∀ x, x ∈ descendants t → in_subtree t n x = bool_decide (x = n))
    as Hsub.
  { intros x Hx. destruct (ok_chain _ Hok x Hx) as (l & Hc & Hl).
    rewrite (in_subtree_ok t n x l Hok (or_intror Hx) Hc).
    apply bool_decide_ext. split; [|intros ->; left].
    intros [->|Hin]%elem_of_cons; [done|].
    destruct (chain_governed t x l n Hc Hin) as (y & Hy & Hpy).
    assert (y ∈ children t n) as Hyc;
      [|by rewrite Hch in Hyc; apply elem_of_nil in Hyc].
    apply elem_of_children. split; [|done].
    apply (live_with_parent t Hok y n); [|done].
    apply elem_of_cons in Hy as [->|Hy]; [by right|].
    by eapply Forall_forall in Hl. }
  do 2 f_equal.
  - apply filter_ext_elem. intros x Hx. rewrite (Hsub x Hx).
    by rewrite bool_decide_eq_false.
  - f_equal. rewrite <- (filter_only (descendants t) n (ok_nodup _ Hok) Hn).
    f_equal. apply filter_ext_elem. intros x Hx. rewrite (Hsub x Hx).
    by rewrite bool_decide_eq_true.
Qed.

Section Members.
Variables (t : Root) (subtree first : nat) (rest : list nat) (lab : string).
Hypothesis Hok : tree_ok t.
Hypothesis Hsub : subtree ∈ descendants t.
Hypothesis Hnd : NoDup (first :: rest).
Hypothesis Hmem : ∀ c, c ∈ first :: rest → c ∈ children t subtree.

(** The first member takes the place of the head; the other members are
    attached to it and relabelled. *)
Lemma members_prefix :
  ∃ g lg t1 t2,
    get_parent t subtree = Some g
    ∧ chain t subtree (g :: lg)
    ∧ (∀ c, c ∈ children t subtree → NoDup (c :: subtree :: g :: lg))
    ∧ set_parent t first (Some g) = Ok t1
    ∧ for_each (λ m t, t ← set_parent t m (Some first) ;
                       Ok (set_deprel t m lab)) rest t1 = Ok t2
    ∧ tree_ok t2 ∧ descendants t2 = descendants t
    ∧ empty_nodes t2 = empty_nodes t ∧ log t2 = log t
    ∧ chain t2 first (g :: lg)
    ∧ (∀ x k, get_misc t2 x k = get_misc t x k)
    ∧ (∀ x, upos (node t2 x) = upos (node t x))
    ∧ (∀ x, get_parent t2 x
            = if decide (x = first) then Some g
              else if decide (x ∈ rest) then Some first
              else get_parent t x)
    ∧ (∀ x, deprel (node t2 x)
            = if decide (x ∈ rest) then lab else deprel (node t x)).
Proof.
  assert (first ∈ children t subtree) as Hfirst by (apply Hmem; left).
  destruct (child_chains t subtree first Hok Hfirst Hsub)
    as (g & lg & Hg & Hlg & Hcg & Hcs & Hcf & Hndf).
  assert (∀ c, c ∈ children t subtree → NoDup (c :: subtree :: g :: lg))
    as Hndc.
  { intros c Hc.
    destruct (child_chains t subtree c Hok Hc Hsub)
      as (g' & lg' & _ & _ & _ & Hcs' & _ & Hndc).
    by pose proof (chain_det t (ok_root_parent _ Hok) _ _ _ Hcs' Hcs)
      as [= -> ->]. }
  apply NoDup_cons in Hnd as [Hfr Hndr].
  pose proof Hfirst as [Hfd Hfp]%elem_of_children.
  destruct (set_parent_succeeds t first g lg)
    as (t1 & H1 & Hre1 & Hok1 & Hc1); try done.
  { pose proof (Hndc first Hfirst) as Hn.
    apply NoDup_cons in Hn as [Hn _]. intros Hin. apply Hn. by right. }
  pose proof Hre1 as (Hd1 & He1 & Hl1 & Hp1 & Hlab1).
  destruct (members_loop first (g :: lg) lab rest t1)
    as (t2 & H2 & Hok2 & Hd2 & Hc2 & Hm2 & Hin2 & Hout2); try done.
  { right. by rewrite Hd1. }
  { intros c Hc. assert (c ∈ children t subtree) as Hcc
      by (apply Hmem; by right).
    split; [rewrite Hd1; by apply elem_of_children in Hcc as [? _]|].
    pose proof (Hndc c Hcc) as Hn. apply NoDup_cons in Hn as [Hn _].
    apply not_elem_of_cons. split; [by intros ->|].
    intros Hin. apply Hn. by right. }
  exists g, lg, t1, t2.
  split; [done|]. split; [done|]. split; [done|]. split; [done|].
  split; [done|]. split; [done|]. split; [congruence|].
  assert (frame true [] t t2) as Hf.
  { eapply frame_trans; [by eapply frame_set_parent|].
    eapply frame_for_each; [|exact H2].
    intros m s s' _ (s1 & Hs1 & [= <-])%bind_Ok.
    eapply frame_trans; [by eapply frame_set_parent|apply frame_set_deprel]. }
  split; [apply (frame_empty_kept _ _ _ _ Hf); [done|congruence]|].
  split.
  { rewrite <- Hl1. revert H2.
    apply (for_each_inv (λ s, log s = log t1)); [|done].
    intros m a b _ Ha (s1 & Hs1 & [= <-])%bind_Ok. simpl.
    apply set_parent_quiet in Hs1 as [-> _]. done. }
  split; [done|].
  split.
  { intros x k. rewrite Hm2. by apply same_labels_misc. }
  split; [intros x; by apply (frame_upos _ _ _ _ _ Hf)|].
  split.
  - intros x. destruct (decide (x ∈ rest)) as [Hx|Hx].
    + rewrite decide_False by (by intros ->). by apply Hin2.
    + destruct (Hout2 x Hx) as [-> _]. apply Hp1.
  - intros x. destruct (decide (x ∈ rest)) as [Hx|Hx].
    + by apply Hin2.
    + destruct (Hout2 x Hx) as [_ ->]. by apply same_labels_deprel.
Qed.

End Members.

Lemma filter_members_sub t subtree key first rest :
  tree_ok t →
  filter (λ c, get_misc t c key = PBool true) (children t subtree)
  = first :: rest →
  NoDup (first :: rest)
  ∧ ∀ c, c ∈ first :: rest → c ∈ children t subtree.
Proof.
  intros Hok Hf. split.
  - rewrite <- Hf. apply NoDup_filter. by apply children_NoDup.
  - intros c Hc. rewrite <- Hf in Hc.
    by apply list_elem_of_filter in Hc as [_ ?].
Qed.

(** What the apposition branch does at a subtree root with members. *)
Lemma rewrite_apos_effect (subtree first : nat) (rest : list nat)
  (t : Root) :
  tree_ok t → subtree ∈ descendants t →
  filter (λ c, get_misc t c "AposMember" = PBool true) (children t subtree)
  = first :: rest →
  ∃ t', rewrite_apos subtree t = Ok t'
    ∧ tree_ok t'
    ∧ get_parent t' first = get_parent t subtree
    ∧ (∀ c, c ∈ children t subtree → c ≠ first →
          get_parent t' c = Some first)
    ∧ (∀ x, x ≠ subtree → get_parent t x ≠ Some subtree →
          get_parent t' x = get_parent t x)
    ∧ (∀ x, x ≠ subtree →
          deprel (node t' x)
          = if decide (x ∈ rest) then "apos" else deprel (node t x))
    ∧ (∀ x k, get_misc t' x k = get_misc t x k)
    ∧ log t' = log t
    ∧ unnumbered <$> empty_nodes t' = unnumbered <$> empty_nodes t
    ∧ (if is_artificial t subtree
       then descendants t' = filter (λ x, x ≠ subtree) (descendants t)
       else descendants t' = descendants t
            ∧ empty_nodes t' = empty_nodes t
            ∧ get_parent t' subtree = Some first
            ∧ deprel (node t' subtree)
              = if decide (upos (node t subtree) = "PUNCT") then "punct"
                else deprel (node t subtree)).
Proof.
  intros Hok Hsub Hfil.
  destruct (filter_members_sub _ _ _ _ _ Hok Hfil) as [Hnd Hmem].
  destruct (members_prefix t subtree first rest "apos" Hok Hsub Hnd Hmem)
    as (g & lg & t1 & t2 & Hg & Hcs & Hndc & H1 & H2 & Hok2 & Hd2 & He2
        & Hl2 & Hc2 & Hm2 & Hu2 & Hp2 & Hdp2).
  assert (first ∈ children t subtree) as Hfirst by (apply Hmem; left).
  pose proof (Hndc first Hfirst) as Hndf.
  apply NoDup_cons in Hndf as [Hf1 Hnds]. apply NoDup_cons in Hnds as [Hs1 _].
  apply not_elem_of_cons in Hf1 as [Hfs Hf1].
  assert (∀ c, c ∈ first :: rest → c ≠ subtree) as Hms.
  { intros c Hc%Hmem. pose proof (Hndc c Hc) as Hn.
    apply NoDup_cons in Hn as [Hn _]. intros ->. apply Hn. left. }
  assert (subtree ∉ rest) as Hsr.
  { intros Hin. apply (Hms subtree); [by right|done]. }
  (* the children left under the head *)
  assert (∀ c, c ∈ children t2 subtree ↔
               c ∈ children t subtree ∧ c ∉ first :: rest) as Hch2.
  { intros c. rewrite !elem_of_children, Hd2, Hp2. split.
    - intros [Hcd Hcp]. destruct (decide (c = first)) as [->|Hcf].
      { injection Hcp as ->. by destruct Hs1; left. }
      destruct (decide (c ∈ rest)) as [Hcr|Hcr]; [congruence|].
      split; [done|]. by intros [?|?]%elem_of_cons.
    - intros [[Hcd Hcp] [Hcf Hcr]%not_elem_of_cons]. split; [done|].
      by rewrite !decide_False. }
  destruct (reparent_loop (λ _, True)
              (λ c t, set_parent t c (Some first)) first (g :: lg)
              (children t2 subtree) t2)
    as (t3 & H3 & Hok3 & Hd3 & Hc3 & Hlab3 & He3 & Hl3 & Hin3 & Hout3);
    try done.
  { right. rewrite Hd2. by apply elem_of_children in Hfirst as [? _]. }
  { intros c [Hc Hcm]%Hch2. split.
    - rewrite Hd2. by apply elem_of_children in Hc as [? _].
    - pose proof (Hndc c Hc) as Hn. apply NoDup_cons in Hn as [Hn _].
      apply not_elem_of_cons. split.
      + intros ->. apply Hcm. left.
      + intros Hin. apply Hn. by right. }
  assert (∀ c, c ∈ children t subtree → c ≠ first →
               get_parent t3 c = Some first) as Hall.
  { intros c Hc Hcf. destruct (decide (c ∈ rest)) as [Hcr|Hcr].
    - rewrite Hout3, Hp2.
      + by rewrite decide_False, decide_True.
      + intros [Hin _]. apply Hch2 in Hin as [_ Hin]. apply Hin. by right.
    - apply Hin3; [|done]. apply Hch2. split; [done|].
      by intros [?|?]%elem_of_cons. }
  assert (get_parent t3 first = Some g) as Hpf.
  { rewrite Hout3, Hp2; [by rewrite decide_True|].
    intros [Hin _]. apply Hch2 in Hin as [_ Hin]. apply Hin. left. }
  assert (∀ x, x ≠ subtree → get_parent t x ≠ Some subtree →
               get_parent t3 x = get_parent t x) as Hfar.
  { intros x Hxs Hxp.
    assert (x ∉ first :: rest) as Hx.
    { intros Hin%Hmem. by apply elem_of_children in Hin as [_ ?]. }
    apply not_elem_of_cons in Hx as [Hxf Hxr].
    rewrite Hout3, Hp2.
    - by rewrite !decide_False.
    - intros [Hin _]. apply Hch2 in Hin as [Hin _].
      by apply elem_of_children in Hin as [_ ?]. }
  assert (∀ x k, get_misc t3 x k = get_misc t x k) as Hm3.
  { intros x k. by rewrite (same_labels_misc _ _ _ _ Hlab3). }
  assert (∀ x, deprel (node t3 x)
               = if decide (x ∈ rest) then "apos" else deprel (node t x))
    as Hdp3.
  { intros x. by rewrite (same_labels_deprel _ _ _ Hlab3). }
  unfold rewrite_apos. rewrite Hfil, Hg, H1, Ok_bind.
  rewrite H2, Ok_bind, H3, Ok_bind.
  assert (is_artificial t3 subtree = is_artificial t subtree) as ->.
  { unfold is_artificial. by rewrite Hm3. }
  destruct (is_artificial t subtree).
  - (* the artificial head is removed *)
    assert (children t3 subtree = []) as Hleaf.
    { apply filter_none. intros x Hx Hxp. rewrite Hd3, Hd2 in Hx.
      destruct (decide (x = first)) as [->|Hxf].
      { rewrite Hpf in Hxp. injection Hxp as ->. apply Hs1. left. }
      destruct (decide (get_parent t x = Some subtree)) as [Hp|Hp].
      - rewrite Hall in Hxp; [congruence| |done]. by apply elem_of_children.
      - rewrite Hfar in Hxp; [done| |done]. intros ->.
        by apply (no_self_parent t3 subtree Hok3); [rewrite Hd3, Hd2|]. }
    rewrite remove_warn_leaf; [|done|by rewrite Hd3, Hd2|done].
    eexists. split; [done|].
    assert (∀ x, get_parent
              (mkRoot (nodes t3) (filter (λ x, x ≠ subtree) (descendants t3))
                      (lower_empty t3 [subtree] <$> empty_nodes t3) (log t3)) x
                 = get_parent t3 x)
      as Hsame by done.
    split.
    { eapply (remove_warn_tree_ok t3 subtree); [done|].
      apply remove_warn_leaf; [done|by rewrite Hd3, Hd2|done]. }
    split; [by rewrite Hsame, Hpf|]. split; [done|]. split; [done|].
    split; [intros x _; apply Hdp3|]. split; [done|].
    split; [simpl; congruence|].
    split; [simpl; rewrite unnumbered_lower_empties; congruence|].
    simpl. by rewrite Hd3, Hd2.
  - (* the head hangs from the first member *)
    destruct (set_parent_succeeds t3 subtree first (g :: lg))
      as (t4 & H4 & Hre4 & Hok4 & _); try done.
    { by rewrite Hd3, Hd2. }
    { right. rewrite Hd3, Hd2. by apply elem_of_children in Hfirst as [? _]. }
    { apply not_elem_of_cons. split; [done|]. done. }
    pose proof Hre4 as (Hd4 & He4 & Hl4 & Hp4 & Hlab4).
    rewrite H4, Ok_bind. eexists. split; [done|].
    pose proof (same_shape_set_deprel t4 subtree
      (if bool_decide (upos (node t4 subtree) = "PUNCT") then "punct"
       else deprel (node t4 subtree))) as [Hd5 Hp5].
    split; [by eapply tree_ok_same_shape; [apply same_shape_set_deprel|]|].
    split; [by rewrite Hp5, Hp4, decide_False, Hpf|].
    split.
    { intros c Hc Hcf. rewrite Hp5, Hp4.
      destruct (decide (c = subtree)) as [->|]; [done|]. by apply Hall. }
    split.
    { intros x Hxs Hxp. rewrite Hp5, Hp4, decide_False by done.
      by apply Hfar. }
    split.
    { intros x Hxs. rewrite deprel_set_deprel, decide_False by done.
      rewrite (same_labels_deprel _ _ _ Hlab4). apply Hdp3. }
    split.
    { intros x k. rewrite get_misc_set_deprel.
      rewrite (same_labels_misc _ _ _ _ Hlab4). apply Hm3. }
    assert (empty_nodes t4 = empty_nodes t) as He by congruence.
    split; [simpl; congruence|]. split; [simpl; by rewrite He|].
    split; [rewrite Hd5; congruence|]. split; [exact He|].
    split; [by rewrite Hp5, Hp4, decide_True|].
    rewrite deprel_set_deprel, decide_True by done.
    assert (upos (node t4 subtree) = upos (node t subtree)) as ->.
    { pose proof (Hlab4 subtree) as E4. pose proof (Hlab3 subtree) as E3.
      apply (f_equal upos) in E4, E3. simpl in E4, E3.
      by rewrite E4, E3, Hu2. }
    rewrite (same_labels_deprel _ _ _ Hlab4), Hdp3, decide_False by done.
    by destruct (decide (upos (node t subtree) = "PUNCT"));
      [rewrite bool_decide_eq_true_2|rewrite bool_decide_eq_false_2].
Qed.

(** X9. The apposition branch on a well-formed sentence, at a subtree
    root with at least one child marked [AposMember]. The branch always
    goes through, and the sentence stays a tree. The first member takes
    the place of the head under the former governor and keeps its own
    label; every other child of the head, member or not, hangs from the
    first member; the other members are labelled [apos], every other
    label is kept (but the head's, see below); no entry of [misc] changes
    and nothing is logged; the empty nodes stay, in their order, and
    nothing of them changes but, possibly, their ordinals. An artificial
    head is removed, and it alone, without a warning, since it has no
    children left: that removal is what may renumber the empty nodes.
    Any other head hangs from the first member, labelled [punct] when it
    is a punctuation mark and with its former label otherwise, and the
    empty nodes are then exactly as they were. *)
Theorem rewrite_apos_members (subtree first : nat) (rest : list nat)
  (t : Root) :
  tree_ok t → subtree ∈ descendants t →
  filter (λ c, get_misc t c "AposMember" = PBool true) (children t subtree)
  = first :: rest →
  ∃ t', rewrite_apos subtree t = Ok t'
    ∧ tree_ok t'
    ∧ get_parent t' first = get_parent t subtree
    ∧ (∀ c, c ∈ children t subtree → c ≠ first →
          get_parent t' c = Some first)
    ∧ (∀ x, x ≠ subtree → get_parent t x ≠ Some subtree →
          get_parent t' x = get_parent t x)
    ∧ (∀ x, x ≠ subtree →
          deprel (node t' x)
          = if decide (x ∈ rest) then "apos" else deprel (node t x))
    ∧ (∀ x k, get_misc t' x k = get_misc t x k)
    ∧ log t' = log t
    ∧ unnumbered <$> empty_nodes t' = unnumbered <$> empty_nodes t
    ∧ (if is_artificial t subtree
       then descendants t' = filter (λ x, x ≠ subtree) (descendants t)
       else descendants t' = descendants t
            ∧ empty_nodes t' = empty_nodes t
            ∧ get_parent t' subtree = Some first
            ∧ deprel (node t' subtree)
              = if decide (upos (node t subtree) = "PUNCT") then "punct"
                else deprel (node t subtree)).
Proof. exact (rewrite_apos_effect subtree first rest t). Qed.

(** "Cicero [0] consul venit" with an empty node after "consul": an
    apposition headed by an artificial token. *)
Definition appositio : Root :=
  let s := sentence
    [ tok "Cicero" "PROPN" "n" "nsubj"
          [("original_dep", PStr "SBJ_AP"); ("AposMember", PBool true)] 2;
      tok "[0]" "PUNCT" "u" "nsubj"
          [("original_dep", PStr "APOS"); ("NodeType", PStr "Artificial")] 4;
      tok "consul" "NOUN" "n" "nsubj"
          [("original_dep", PStr "SBJ_AP"); ("AposMember", PBool true)] 2;
      tok "venit" "VERB" "v" "root" [("original_dep", PStr "PRED")] 0 ] in
  mkRoot (nodes s) (descendants s)
         [mkEmpty (float_of_decimal 3 1) "E3.1" None None None None ∅ []] [].

(** The artificial head of "Cicero [0] consul venit" is removed; the
    empty node behind it stays, up to its ordinal. *)
Lemma rewrite_apos_members_witness :
  ∃ t', rewrite_apos 2 appositio = Ok t'
        ∧ descendants t' = [1; 3; 4]
        ∧ get_parent t' 1 = Some 4 ∧ get_parent t' 3 = Some 1
        ∧ deprel (node t' 3) = "apos"
        ∧ unnumbered <$> empty_nodes t' = unnumbered <$> empty_nodes appositio.
Proof.
  destruct (rewrite_apos_members 2 1 [3] appositio)
    as (t' & Hrun & _ & Hp1 & Hpc & _ & Hdp & _ & _ & He & Hhead).
  - apply tree_okb_ok. vm_compute. reflexivity.
  - by_compute.
  - vm_compute. reflexivity.
  - exists t'. split; [done|].
    assert (is_artificial appositio 2 = true) as Ha
      by (vm_compute; reflexivity).
    rewrite Ha in Hhead.
    split; [rewrite Hhead; vm_compute; reflexivity|].
    split; [by rewrite Hp1|].
    split; [apply Hpc; [by_compute|done]|].
    split; [by rewrite Hdp|]. exact He.
Defined.

(** ** Coordination *)

(** A coordinator that does not close the coordination. *)
Definition non_final_coordinator (t : Root) (c : nat) : Prop :=
  get_misc t c "original_dep" = PStr "AuxY" ∧ upos (node t c) = "CCONJ".

#[global] Instance non_final_coordinator_dec t c :
  Decision (non_final_coordinator t c).
Proof. unfold non_final_coordinator. apply _. Defined.

Lemma attach_right_quiet element attr val t t' :
  attach_right element attr val t = Ok t' → log t' = log t.
Proof.
  unfold attach_right. destruct (get_parent t element); [|done].
  rewrite attach_right_loop_find. destruct (filter _ _).
  - by intros [= <-].
  - by intros [? _]%set_parent_quiet.
Qed.

(** The loop over the children left under the head of a coordination:
    each is attached to [p], and the non-final coordinators among them
    are relabelled [cc]. *)
Lemma cc_loop p lp cs t0 :
  tree_ok t0 → live t0 p → chain t0 p lp →
  (∀ c, c ∈ cs → c ∈ descendants t0 ∧ c ∉ p :: lp) →
  ∃ t', for_each
          (λ c t, t ← set_parent t c (Some p) ;
                  Ok (if bool_decide (get_misc t c "original_dep" = PStr "AuxY")
                         && bool_decide (upos (node t c) = "CCONJ")
                      then set_deprel t c "cc" else t)) cs t0 = Ok t'
        ∧ tree_ok t' ∧ descendants t' = descendants t0
        ∧ chain t' p lp ∧ log t' = log t0
        ∧ (∀ x k, get_misc t' x k = get_misc t0 x k)
        ∧ (∀ x, upos (node t' x) = upos (node t0 x))
        ∧ (∀ x, x ∈ cs → get_parent t' x = Some p)
        ∧ (∀ x, x ∉ cs → get_parent t' x = get_parent t0 x)
        ∧ (∀ x, x ∈ cs → non_final_coordinator t0 x →
              deprel (node t' x) = "cc")
        ∧ (∀ x, ¬ (x ∈ cs ∧ non_final_coordinator t0 x) →
              deprel (node t' x) = deprel (node t0 x)).
Proof.
  intros Hok Hlp Hc Hcs.
  apply (for_each_total (λ done s,
    tree_ok s ∧ descendants s = descendants t0 ∧ chain s p lp
    ∧ log s = log t0
    ∧ (∀ x k, get_misc s x k = get_misc t0 x k)
    ∧ (∀ x, upos (node s x) = upos (node t0 x))
    ∧ (∀ x, x ∈ done → get_parent s x = Some p)
    ∧ (∀ x, x ∉ done → get_parent s x = get_parent t0 x)
    ∧ (∀ x, x ∈ done → non_final_coordinator t0 x →
          deprel (node s x) = "cc")
    ∧ (∀ x, ¬ (x ∈ done ∧ non_final_coordinator t0 x) →
          deprel (node s x) = deprel (node t0 x)))).
  { split; [done|]. split; [done|]. split; [done|]. split; [done|].
    split; [done|]. split; [done|]. split; [by intros x ?%elem_of_nil|].
    split; [done|]. split; [by intros x ?%elem_of_nil|done]. }
  intros done c s
    (Hoks & Hds & Hcs' & Hls & Hms & Hus & Hin & Hout & Hcc & Hnc) Hc'.
  destruct (Hcs c Hc') as [Hcd Hcp].
  destruct (set_parent_succeeds s c p lp) as (s1 & Hset & Hre & Hok1 & _);
    try done.
  { by rewrite Hds. } { unfold live. by rewrite Hds. }
  pose proof Hre as (Hd1 & _ & Hl1 & Hp1 & Hlab1).
  assert (∀ x, upos (node s1 x) = upos (node s x)) as Hu1.
  { intros x. pose proof (Hlab1 x) as E. by apply (f_equal upos) in E. }
  assert (bool_decide (get_misc s1 c "original_dep" = PStr "AuxY")
          && bool_decide (upos (node s1 c) = "CCONJ")
          = bool_decide (non_final_coordinator t0 c)) as Htest.
  { rewrite (same_labels_misc _ _ _ _ Hlab1), Hms, Hu1, Hus.
    unfold non_final_coordinator.
    destruct (decide (get_misc t0 c "original_dep" = PStr "AuxY")) as [H1|H1];
      destruct (decide (upos (node t0 c) = "CCONJ")) as [H2|H2].
    - by rewrite !bool_decide_eq_true_2.
    - rewrite (bool_decide_eq_false_2 (upos _ = _)) by done.
      rewrite andb_false_r. symmetry. apply bool_decide_eq_false_2. tauto.
    - rewrite (bool_decide_eq_false_2 (get_misc _ _ _ = _)) by done.
      symmetry. apply bool_decide_eq_false_2. tauto.
    - rewrite (bool_decide_eq_false_2 (get_misc _ _ _ = _)) by done.
      symmetry. apply bool_decide_eq_false_2. tauto. }
  rewrite Hset, Ok_bind, Htest. eexists. split; [done|].
  assert (∀ s2, (s2 = s1 ∧ ¬ non_final_coordinator t0 c
                 ∨ s2 = set_deprel s1 c "cc" ∧ non_final_coordinator t0 c) →
    tree_ok s2 ∧ descendants s2 = descendants t0 ∧ chain s2 p lp
    ∧ log s2 = log t0
    ∧ (∀ x k, get_misc s2 x k = get_misc t0 x k)
    ∧ (∀ x, upos (node s2 x) = upos (node t0 x))
    ∧ (∀ x, x ∈ done ++ [c] → get_parent s2 x = Some p)
    ∧ (∀ x, x ∉ done ++ [c] → get_parent s2 x = get_parent t0 x)
    ∧ (∀ x, x ∈ done ++ [c] → non_final_coordinator t0 x →
          deprel (node s2 x) = "cc")
    ∧ (∀ x, ¬ (x ∈ done ++ [c] ∧ non_final_coordinator t0 x) →
          deprel (node s2 x) = deprel (node t0 x))) as Hstep.
  { intros s2 Hs2.
    assert (same_shape s1 s2) as Hss.
    { destruct Hs2 as [[-> _]|[-> _]];
        [apply same_shape_refl|apply same_shape_set_deprel]. }
    assert (∀ x k, get_misc s2 x k = get_misc s1 x k) as Hm2.
    { intros x k. destruct Hs2 as [[-> _]|[-> _]]; [done|].
      apply get_misc_set_deprel. }
    assert (∀ x, upos (node s2 x) = upos (node s1 x)) as Hu2.
    { intros x. destruct Hs2 as [[-> _]|[-> _]]; [done|].
      unfold set_deprel. rewrite node_set_node.
      by destruct (decide (x = c)) as [->|]. }
    assert (∀ x, x ≠ c → deprel (node s2 x) = deprel (node s x)) as Hd2.
    { intros x Hx. rewrite <- (same_labels_deprel _ _ _ Hlab1).
      destruct Hs2 as [[-> _]|[-> _]]; [done|].
      by rewrite deprel_set_deprel, decide_False. }
    split; [by eapply tree_ok_same_shape|].
    split; [destruct Hss as [-> _]; congruence|].
    split.
    { eapply chain_same_shape; [done|].
      by eapply (chain_reparented_avoid s s1 c p). }
    split; [destruct Hs2 as [[-> _]|[-> _]]; simpl; congruence|].
    split.
    { intros x k. by rewrite Hm2, (same_labels_misc _ _ _ _ Hlab1). }
    split; [intros x; by rewrite Hu2, Hu1|].
    destruct Hss as [_ Hss]. split.
    { intros x Hx. rewrite Hss, Hp1.
      destruct (decide (x = c)) as [->|Hxc]; [done|]. apply Hin.
      apply elem_of_app in Hx as [?|Hx]; [done|].
      by apply list_elem_of_singleton in Hx. }
    split.
    { intros x Hx. rewrite Hss, Hp1.
      assert (x ≠ c) as Hxc.
      { intros ->. apply Hx. apply elem_of_app. right. left. }
      rewrite decide_False by done. apply Hout.
      intros Hd. apply Hx. apply elem_of_app. by left. }
    split.
    - intros x Hx Hn. destruct (decide (x = c)) as [->|Hxc].
      + destruct Hs2 as [[-> Hnot]|[-> _]]; [done|].
        by rewrite deprel_set_deprel, decide_True.
      + rewrite Hd2 by done. apply Hcc; [|done].
        apply elem_of_app in Hx as [?|Hx]; [done|].
        by apply list_elem_of_singleton in Hx.
    - intros x Hx. destruct (decide (x = c)) as [->|Hxc].
      + destruct Hs2 as [[-> Hnot]|[-> Hyes]].
        * rewrite (same_labels_deprel _ _ _ Hlab1). apply Hnc.
          by intros [_ ?].
        * destruct Hx. split; [|done]. apply elem_of_app. right. left.
      + rewrite Hd2 by done. apply Hnc. intros [Hxd Hn]. apply Hx.
        split; [|done]. apply elem_of_app. by left. }
  destruct (decide (non_final_coordinator t0 c)) as [Hn|Hn].
  - rewrite bool_decide_eq_true_2 by done. apply Hstep. by right.
  - rewrite bool_decide_eq_false_2 by done. apply Hstep. by left.
Qed.

(** What the coordination branch does at a subtree root with members. *)
Lemma rewrite_coord_effect (subtree first : nat) (rest : list nat)
  (t : Root) :
  tree_ok t → subtree ∈ descendants t →
  filter (λ c, get_misc t c "CoordMember" = PBool true) (children t subtree)
  = first :: rest →
  ∃ t', rewrite_coord subtree t = Ok t'
    ∧ tree_ok t'
    ∧ descendants t'
      = (if is_artificial t subtree
         then filter (λ x, x ≠ subtree) (descendants t)
         else descendants t)
    ∧ (∀ x k, get_misc t' x k = get_misc t x k)
    ∧ log t' = log t
    ∧ unnumbered <$> empty_nodes t' = unnumbered <$> empty_nodes t
    ∧ (is_artificial t subtree = false → empty_nodes t' = empty_nodes t)
    ∧ (∀ x, deprel (node t' x)
            = if decide (x ∈ rest) then "conj"
              else if decide (x ∈ children t subtree ∧ x ≠ first
                              ∧ non_final_coordinator t x) then "cc"
              else deprel (node t x))
    ∧ get_parent t' first = get_parent t subtree
    ∧ (∀ x, x ∈ descendants t' → x ≠ first →
          trailing t' first x →
          x = subtree ∨ get_parent t x = Some subtree
          ∨ get_parent t x = Some first →
          get_parent t' x = Some (hd first (right_conjuncts t' first x)))
    ∧ (∀ x, x ∈ descendants t' → x ≠ first →
          ¬ (trailing t' first x
             ∧ (x = subtree ∨ get_parent t x = Some subtree
                ∨ get_parent t x = Some first)) →
          get_parent t' x
          = if decide (x = subtree ∨ get_parent t x = Some subtree)
            then Some first else get_parent t x).
Proof.
  intros Hok Hsub Hfil.
  destruct (filter_members_sub _ _ _ _ _ Hok Hfil) as [Hnd Hmem].
  destruct (members_prefix t subtree first rest "conj" Hok Hsub Hnd Hmem)
    as (g & lg & t1 & t2 & Hg & Hcs & Hndc & H1 & H2 & Hok2 & Hd2 & He2
        & Hl2 & Hc2 & Hm2 & Hu2 & Hp2 & Hdp2).
  assert (first ∈ children t subtree) as Hfirst by (apply Hmem; left).
  pose proof Hfirst as [Hfd Hfp]%elem_of_children.
  pose proof (Hndc first Hfirst) as Hndf.
  apply NoDup_cons in Hndf as [Hf1 Hnds]. apply NoDup_cons in Hnds as [Hs1 _].
  apply not_elem_of_cons in Hf1 as [Hfs Hf1].
  assert (g ≠ subtree) as Hgs by (intros ->; apply Hs1; left).
  assert (∀ c, c ∈ children t subtree → c ≠ subtree) as Hcns.
  { intros c Hc. pose proof (Hndc c Hc) as Hn.
    apply NoDup_cons in Hn as [Hn _]. intros ->. apply Hn. left. }
  (* the head goes under the first member *)
  destruct (set_parent_succeeds t2 subtree first (g :: lg))
    as (t3 & H3 & Hre3 & Hok3 & Hc3S); try done.
  { by rewrite Hd2. } { right. by rewrite Hd2. }
  { by apply not_elem_of_cons. }
  pose proof Hre3 as (Hd3 & He3 & Hl3 & Hp3 & Hlab3).
  assert (chain t3 first (g :: lg)) as Hc3.
  { eapply (chain_reparented_avoid t2 t3 subtree first); [done|done|].
    apply not_elem_of_cons. split; [by intros ->|done]. }
  assert (∀ c, c ∈ children t3 subtree ↔
               c ∈ children t subtree ∧ c ∉ first :: rest) as Hch3.
  { intros c. rewrite !elem_of_children, Hd3, Hd2, Hp3, Hp2. split.
    - intros [Hcd Hcp]. destruct (decide (c = subtree)) as [->|Hcsub];
        [congruence|].
      destruct (decide (c = first)) as [->|Hcf]; [congruence|].
      destruct (decide (c ∈ rest)) as [Hcr|Hcr]; [congruence|].
      split; [done|]. by intros [?|?]%elem_of_cons.
    - intros [[Hcd Hcp] [Hcf Hcr]%not_elem_of_cons]. split; [done|].
      rewrite decide_False; [by rewrite !decide_False|].
      apply Hcns. by apply elem_of_children. }
  (* the children left under the head *)
  destruct (cc_loop first (g :: lg) (children t3 subtree) t3)
    as (t4 & H4 & Hok4 & Hd4 & Hc4 & Hl4 & Hm4 & Hu4 & Hin4 & Hout4
        & Hcc4 & Hnc4); try done.
  { right. by rewrite Hd3, Hd2. }
  { intros c [Hc Hcm]%Hch3. split.
    - rewrite Hd3, Hd2. by apply elem_of_children in Hc as [? _].
    - pose proof (Hndc c Hc) as Hn. apply NoDup_cons in Hn as [Hn _].
      apply not_elem_of_cons. split.
      + intros ->. apply Hcm. left.
      + intros Hin. apply Hn. by right. }
  assert (descendants t4 = descendants t) as HD4 by congruence.
  assert (∀ x k, get_misc t4 x k = get_misc t x k) as HM4.
  { intros x k. by rewrite Hm4, (same_labels_misc _ _ _ _ Hlab3). }
  assert (∀ x, non_final_coordinator t3 x ↔ non_final_coordinator t x)
    as Hnfc.
  { intros x. unfold non_final_coordinator.
    rewrite (same_labels_misc _ _ _ _ Hlab3), Hm2.
    pose proof (Hlab3 x) as E. apply (f_equal upos) in E. simpl in E.
    by rewrite E, Hu2. }
  assert (∀ x, x ∈ descendants t →
            get_parent t4 x
            = if decide (x = first) then Some g
              else if decide (x = subtree ∨ get_parent t x = Some subtree)
                   then Some first else get_parent t x) as HP4.
  { intros x Hx. destruct (decide (x ∈ children t3 subtree)) as [Hxc|Hxc].
    - rewrite (Hin4 x Hxc). apply Hch3 in Hxc as [Hxc Hxm].
      apply not_elem_of_cons in Hxm as [Hxf _].
      apply elem_of_children in Hxc as [_ Hxp].
      rewrite decide_False by done. rewrite decide_True; [done|by right].
    - rewrite (Hout4 x Hxc), Hp3, Hp2.
      destruct (decide (x = subtree)) as [->|Hxs].
      { rewrite decide_False by done. rewrite decide_True; [done|by left]. }
      destruct (decide (x = first)) as [->|Hxf]; [done|].
      destruct (decide (x ∈ rest)) as [Hxr|Hxr].
      { assert (x ∈ children t subtree) as [_ Hxp]%elem_of_children
          by (apply Hmem; by right).
        rewrite decide_True; [done|by right]. }
      rewrite decide_False; [done|]. intros [?|Hxp]; [done|].
      apply Hxc, Hch3. split; [by apply elem_of_children|].
      by intros [?|?]%elem_of_cons. }
  assert (∀ x, deprel (node t4 x)
               = if decide (x ∈ rest) then "conj"
                 else if decide (x ∈ children t subtree ∧ x ≠ first
                                 ∧ non_final_coordinator t x) then "cc"
                 else deprel (node t x)) as HDP4.
  { intros x.
    destruct (decide (x ∈ children t3 subtree ∧ non_final_coordinator t3 x))
      as [[Hxc Hxn]|Hx].
    - rewrite (Hcc4 x Hxc Hxn). apply Hch3 in Hxc as [Hxc Hxm].
      apply not_elem_of_cons in Hxm as [Hxf Hxr]. apply Hnfc in Hxn.
      rewrite decide_False by done. by rewrite decide_True.
    - rewrite (Hnc4 x Hx), (same_labels_deprel _ _ _ Hlab3), Hdp2.
      destruct (decide (x ∈ rest)) as [Hxr|Hxr]; [done|].
      rewrite decide_False; [done|]. intros (Hxc & Hxf & Hxn).
      apply Hx. split; [|by apply Hnfc]. apply Hch3. split; [done|].
      by intros [?|?]%elem_of_cons. }
  assert (children t4 subtree = []) as Hleaf.
  { apply filter_none. intros x Hx Hxp. rewrite HD4 in Hx.
    rewrite (HP4 x Hx) in Hxp.
    destruct (decide (x = first)); [congruence|].
    destruct (decide (x = subtree ∨ get_parent t x = Some subtree))
      as [Hor|Hor]; [congruence|].
    apply Hor. by right. }
  assert (is_artificial t4 subtree = is_artificial t subtree) as Hart.
  { unfold is_artificial. by rewrite HM4. }
  (* the artificial head is deleted *)
  set (t5 := if is_artificial t subtree
             then mkRoot (nodes t4) (filter (λ x, x ≠ subtree) (descendants t4))
                         (lower_empty t4 [subtree] <$> empty_nodes t4) (log t4)
             else t4).
  assert ((if is_artificial t4 subtree then remove t4 subtree Warn else Ok t4)
          = Ok t5) as H5.
  { rewrite Hart. unfold t5. destruct (is_artificial t subtree); [|done].
    apply remove_warn_leaf; [done|by rewrite HD4|done]. }
  assert (tree_ok t5) as Hok5.
  { rewrite Hart in H5. unfold t5 in *.
    destruct (is_artificial t subtree); [|done].
    by eapply (remove_warn_tree_ok t4 subtree). }
  assert (nodes t5 = nodes t4 ∧ log t5 = log t4) as [Hn5 Hl5].
  { unfold t5. by destruct (is_artificial t subtree). }
  assert (descendants t5
          = if is_artificial t subtree
            then filter (λ x, x ≠ subtree) (descendants t)
            else descendants t) as Hd5.
  { unfold t5. destruct (is_artificial t subtree); [simpl|done].
    by rewrite HD4. }
  assert (∀ x, x ∈ descendants t5 → x ∈ descendants t) as Hsub5.
  { intros x. rewrite Hd5. destruct (is_artificial t subtree); [|done].
    by intros [_ ?]%list_elem_of_filter. }
  assert (∀ x, node t5 x = node t4 x) as Hnode5
    by (intros x; unfold node; by rewrite Hn5).
  assert (∀ x, get_parent t5 x = get_parent t4 x) as HP5
    by (intros x; unfold get_parent; by rewrite Hnode5).
  assert (first ∈ descendants t5) as Hf5.
  { rewrite Hd5. destruct (is_artificial t subtree); [|done].
    apply list_elem_of_filter. by split. }
  (* trailing coordinators and punctuation go to the right conjunct *)
  destruct (last_pass first (g :: lg) t5)
    as (t' & H6 & Hok' & Hd' & Hlab' & Hin' & Hout' & Hrc'); try done.
  { by apply (chain_parent_ext t4). }
  assert (rewrite_coord subtree t = Ok t') as Hrun.
  { unfold rewrite_coord. rewrite Hfil, Hg, H1, Ok_bind, H2, Ok_bind.
    rewrite H3, Ok_bind, H4, Ok_bind, H5, Ok_bind. exact H6. }
  exists t'. split; [done|]. split; [done|].
  split; [congruence|].
  pose proof (frame_rewrite_coord true [] _ _ _ Hrun) as Hfr.
  split.
  { intros x k. apply (frame_misc _ _ _ _ Hfr). apply not_elem_of_nil. }
  split.
  { rewrite <- Hl2, <- Hl3, <- Hl4, <- Hl5. revert H6.
    apply (for_each_inv (λ s, log s = log t5)); [|done].
    intros c a b _ Ha. destruct (_ && _); [|by intros [= <-]].
    intros Hb%attach_right_quiet. congruence. }
  split; [by apply (frame_empty _ _ _ _ Hfr)|].
  split.
  { intros Ha. apply (frame_empty_kept _ _ _ _ Hfr); [done|].
    by rewrite Hd', Hd5, Ha. }
  split.
  { intros x. by rewrite (same_labels_deprel _ _ _ Hlab'), Hnode5. }
  assert (∀ x, trailing t' first x ↔ trailing t5 first x) as Htr.
  { intros x. unfold trailing.
    rewrite !(same_labels_udeprel _ _ _ Hlab').
    by rewrite !(precedes_same_descendants t' t5). }
  assert (∀ x, x ∈ descendants t5 → x ≠ first →
            (x ∈ children t5 first
             ↔ x = subtree ∨ get_parent t x = Some subtree
               ∨ get_parent t x = Some first)) as Hcf5.
  { intros x Hx Hxf. rewrite elem_of_children, HP5, (HP4 x (Hsub5 x Hx)).
    rewrite decide_False by done.
    destruct (decide (x = subtree ∨ get_parent t x = Some subtree))
      as [Hor|Hor]; [tauto|]. split; [tauto|].
    intros [?|[?|?]]; [tauto|tauto|done]. }
  split.
  { rewrite Hout', HP5, (HP4 first Hfd); [by rewrite decide_True|].
    intros [[_ Hp]%elem_of_children _].
    by apply (no_self_parent t5 first Hok5). }
  split.
  - intros x Hx Hxf Ht Hor. rewrite Hd' in Hx. rewrite Hrc'.
    apply Hin'; [by apply Hcf5|by apply Htr].
  - intros x Hx Hxf Hnot. rewrite Hd' in Hx.
    rewrite Hout', HP5, (HP4 x (Hsub5 x Hx)); [by rewrite decide_False|].
    intros [Hc Ht]. apply Hnot. split; [by apply Htr|by apply Hcf5].
Qed.

(** X10. The coordination branch on a well-formed sentence, at a subtree
    root with at least one child marked [CoordMember]. The branch always
    goes through, and the sentence stays a tree. An artificial head is
    removed, and it alone; no entry of [misc] changes and nothing is
    logged. The empty nodes stay, in their order, and nothing of them
    changes but, possibly, their ordinals, which the removal of the head
    may renumber: with a head that is not artificial they are exactly as
    they were. The first member takes the place of the head under the
    former governor and keeps its own label. The other members are
    labelled [conj]; among the other children of the head the non-final
    coordinators are labelled [cc]; every other label is kept. The head
    and its children other than the first member are attached to the
    first member. Last, the children of the first member labelled [cc]
    or [punct] that do not precede it, its own former children included,
    are moved to the first conjunct that does not precede them, if there
    is one. *)
Theorem rewrite_coord_members (subtree first : nat) (rest : list nat)
  (t : Root) :
  tree_ok t → subtree ∈ descendants t →
  filter (λ c, get_misc t c "CoordMember" = PBool true) (children t subtree)
  = first :: rest →
  ∃ t', rewrite_coord subtree t = Ok t'
    ∧ tree_ok t'
    ∧ descendants t'
      = (if is_artificial t subtree
         then filter (λ x, x ≠ subtree) (descendants t)
         else descendants t)
    ∧ (∀ x k, get_misc t' x k = get_misc t x k)
    ∧ log t' = log t
    ∧ unnumbered <$> empty_nodes t' = unnumbered <$> empty_nodes t
    ∧ (is_artificial t subtree = false → empty_nodes t' = empty_nodes t)
    ∧ (∀ x, deprel (node t' x)
            = if decide (x ∈ rest) then "conj"
              else if decide (x ∈ children t subtree ∧ x ≠ first
                              ∧ non_final_coordinator t x) then "cc"
              else deprel (node t x))
    ∧ get_parent t' first = get_parent t subtree
    ∧ (∀ x, x ∈ descendants t' → x ≠ first →
          trailing t' first x →
          x = subtree ∨ get_parent t x = Some subtree
          ∨ get_parent t x = Some first →
          get_parent t' x = Some (hd first (right_conjuncts t' first x)))
    ∧ (∀ x, x ∈ descendants t' → x ≠ first →
          ¬ (trailing t' first x
             ∧ (x = subtree ∨ get_parent t x = Some subtree
                ∨ get_parent t x = Some first)) →
          get_parent t' x
          = if decide (x = subtree ∨ get_parent t x = Some subtree)
            then Some first else get_parent t x).
Proof. exact (rewrite_coord_effect subtree first rest t). Qed.

(** The artificial head of "Caesar [0] Brutus veniunt" is removed; the
    empty node behind it stays, up to its ordinal. *)
Lemma rewrite_coord_members_witness :
  ∃ t', rewrite_coord 2 asyndeton = Ok t'
        ∧ descendants t' = [1; 3; 4]
        ∧ get_parent t' 1 = Some 4
        ∧ deprel (node t' 3) = "conj" ∧ deprel (node t' 1) = "nsubj"
        ∧ unnumbered <$> empty_nodes t' = unnumbered <$> empty_nodes asyndeton.
Proof.
  destruct (rewrite_coord_members 2 1 [3] asyndeton)
    as (t' & Hrun & _ & Hd & _ & _ & He & _ & Hdp & Hp1 & _ & _).
  - apply tree_okb_ok. vm_compute. reflexivity.
  - by_compute.
  - vm_compute. reflexivity.
  - exists t'. split; [done|].
    split; [rewrite Hd; vm_compute; reflexivity|].
    split; [by rewrite Hp1|].
    split; [by rewrite Hdp|]. split; [by rewrite Hdp|]. exact He.
Defined.

(** ** The rewriting of one subtree never fails but in the bridge filter *)

Lemma rewrite_bridge_total subtree t :
  tree_ok t → subtree ∈ descendants t →
  (∃ t', rewrite_bridge subtree t = Ok t')
  ∨ (rewrite_bridge subtree t = Raise IndexError
     ∧ ∃ c, c ∈ children t subtree ∧ is_artificial t c = false
            ∧ xpos (node t c) = "").
Proof.
  intros Hok Hsub.
  destruct (decide (Exists (λ c, is_artificial t c = false
                                 ∧ xpos (node t c) = "")
                           (children t subtree))) as [He|He].
  - right. apply Exists_exists in He as (c & Hc & Ha & Hx).
    split; [|by exists c]. unfold rewrite_bridge.
    by rewrite (bridge_filter_Raise t _ c Hc Ha Hx).
  - left. destruct (bridge_filter_Ok t (children t subtree)) as (ch & Hch).
    { intros c Hc Ha Hx. apply He, Exists_exists. by exists c. }
    unfold rewrite_bridge. rewrite Hch, Ok_bind.
    destruct ch as [|newh [|? ?]]; [by eexists| |by eexists].
    destruct (redraw_subtree_total newh subtree t Hok Hsub)
      as (t' & Hrun & _); [|by exists t'].
    eapply filterM_elem; [done|left].
Qed.

(** The rewriting of one subtree goes through, unless the filter of the
    bridge branch fails. *)
Lemma process_subtree_runs
  (is_prague_bridge_subtree is_coord_subtree is_apos_subtree
   is_copula_subtree is_ellipsis_subtree : Root → nat → bool)
  (subtree : nat) (t : Root) :
  tree_ok t → subtree ∈ descendants t →
  (∃ t', process_subtree is_prague_bridge_subtree is_coord_subtree
           is_apos_subtree is_copula_subtree is_ellipsis_subtree subtree t
         = Ok t')
  ∨ (process_subtree is_prague_bridge_subtree is_coord_subtree
       is_apos_subtree is_copula_subtree is_ellipsis_subtree subtree t
     = Raise IndexError
     ∧ is_prague_bridge_subtree t subtree = true
     ∧ ∃ c, c ∈ children t subtree ∧ is_artificial t c = false
            ∧ xpos (node t c) = "").
Proof.
  intros Hok Hsub. unfold process_subtree.
  destruct (is_prague_bridge_subtree t subtree).
  { destruct (rewrite_bridge_total subtree t Hok Hsub) as [?|[? ?]];
      [by left|by right]. }
  left. destruct (is_coord_subtree t subtree).
  { unfold rewrite_coord at 1.
    destruct (filter (λ c, get_misc t c "CoordMember" = PBool true)
                     (children t subtree)) as [|first rest] eqn:Hf;
      [by eexists|].
    destruct (rewrite_coord_effect subtree first rest t Hok Hsub Hf)
      as (t' & Hrun & _). exists t'. revert Hrun.
    unfold rewrite_coord. by rewrite Hf. }
  destruct (is_apos_subtree t subtree).
  { unfold rewrite_apos at 1.
    destruct (filter (λ c, get_misc t c "AposMember" = PBool true)
                     (children t subtree)) as [|first rest] eqn:Hf;
      [by eexists|].
    destruct (rewrite_apos_effect subtree first rest t Hok Hsub Hf)
      as (t' & Hrun & _). exists t'. revert Hrun.
    unfold rewrite_apos. by rewrite Hf. }
  destruct (is_copula_subtree t subtree).
  { destruct (filter (λ c, get_misc t c "original_dep" = PStr "PNOM")
                     (children t subtree)) as [|pnom others] eqn:Hf.
    - unfold rewrite_copula. rewrite Hf. by eexists.
    - destruct (rewrite_copula_total subtree t pnom others Hok Hsub Hf)
        as (t' & Hrun & _). by exists t'. }
  destruct (is_ellipsis_subtree t subtree); [|by eexists].
  destruct (get_first_in_priority t (children t subtree) order_list)
    as [w|] eqn:Hw.
  - destruct (rewrite_ellipsis_total subtree t w Hok Hsub Hw)
      as (t' & Hrun & _). by exists t'.
  - unfold rewrite_ellipsis. rewrite Hw. by eexists.
Qed.

(** X11. On a well-formed sentence, the rewriting of a token's subtree
    either returns, and then the sentence is still a tree, or it fails in
    the candidate filter of the bridge branch, with [IndexError], on a
    non-artificial child with an empty fine-grained tag. No other
    exception leaves the five branches: no parent assignment closes a
    cycle, and no removal misses its node. *)
Theorem process_subtree_raises_only_in_bridge
  (is_prague_bridge_subtree is_coord_subtree is_apos_subtree
   is_copula_subtree is_ellipsis_subtree : Root → nat → bool)
  (subtree : nat) (t : Root) :
  tree_ok t → subtree ∈ descendants t →
  (∃ t', process_subtree is_prague_bridge_subtree is_coord_subtree
           is_apos_subtree is_copula_subtree is_ellipsis_subtree subtree t
         = Ok t' ∧ tree_ok t')
  ∨ (process_subtree is_prague_bridge_subtree is_coord_subtree
       is_apos_subtree is_copula_subtree is_ellipsis_subtree subtree t
     = Raise IndexError
     ∧ is_prague_bridge_subtree t subtree = true
     ∧ ∃ c, c ∈ children t subtree ∧ is_artificial t c = false
            ∧ xpos (node t c) = "").
Proof.
  intros Hok Hsub.
  destruct (process_subtree_runs is_prague_bridge_subtree is_coord_subtree
              is_apos_subtree is_copula_subtree is_ellipsis_subtree
              subtree t Hok Hsub) as [(t' & Hrun)|Hraise].
  - left. exists t'. split; [done|].
    by eapply process_subtree_tree_ok.
  - by right.
Qed.

Lemma process_subtree_raises_only_in_bridge_witness :
  (∃ t', process_subtree (original_dep_is "AuxP") (original_dep_is "COORD")
           (original_dep_is "APOS") (original_dep_is "PRED_COP")
           (original_dep_is "ExD_HEAD") 2 sine_nota
         = Ok t' ∧ tree_ok t')
  ∨ (process_subtree (original_dep_is "AuxP") (original_dep_is "COORD")
       (original_dep_is "APOS") (original_dep_is "PRED_COP")
       (original_dep_is "ExD_HEAD") 2 sine_nota
     = Raise IndexError
     ∧ original_dep_is "AuxP" sine_nota 2 = true
     ∧ ∃ c, c ∈ children sine_nota 2 ∧ is_artificial sine_nota c = false
            ∧ xpos (node sine_nota c) = "").
Proof.
  apply process_subtree_raises_only_in_bridge.
  - apply tree_okb_ok. vm_compute. reflexivity.
  - by_compute.
Defined.

(** ** An artificial copula with an orthographic continuation *)

(** X12. The copula branch at an artificial copula with a predicate
    nominal: a child of the copula attached by [goeswith], other than the
    promoted predicate nominal, is not handed to the new head; so it is
    still below the copula when the copula is removed, and it is deleted
    from the sentence together with it, with a warning in the log. The
    promoted predicate nominal stays, under the former governor of the
    copula. *)
Theorem rewrite_copula_deletes_goeswith_child
  (subtree pnom c : nat) (others : list nat) (t : Root) :
  tree_ok t → subtree ∈ descendants t →
  filter (λ c, get_misc t c "original_dep" = PStr "PNOM") (children t subtree)
  = pnom :: others →
  is_artificial t subtree = true →
  c ∈ children t subtree → c ≠ pnom → udeprel t c = "goeswith" →
  ∃ t', rewrite_copula subtree t = Ok t'
        ∧ (c ∉ descendants t') ∧ (subtree ∉ descendants t')
        ∧ pnom ∈ descendants t'
        ∧ get_parent t' pnom = get_parent t subtree
        ∧ log t' = log t ++ [(WARNING, UnexpectedChildren subtree);
                             (INFO, RemovingNode subtree)].
Proof.
  intros Hok Hsub Hf Hart Hc Hcp Hgw.
  destruct (rewrite_copula_total subtree t pnom others Hok Hsub Hf)
    as (t' & Hrun & Hpp & _ & Hpd & _ & Hgone & _).
  exists t'. split; [done|].
  assert (pnom ∈ children t subtree) as Hin.
  { eapply (proj1 (list_elem_of_filter _ _ _)). rewrite Hf. left. }
  set (t0 := set_deprel t pnom (deprel (node t subtree))).
  pose proof (same_shape_set_deprel t pnom (deprel (node t subtree))) as Hs0.
  fold t0 in Hs0.
  destruct (redraw_subtree_total pnom subtree t0)
    as (t1 & H1 & Hok1 & Hd1 & He1 & Hl1 & Hdp & Hmisc & _ & _ & Hpc & _).
  { by eapply tree_ok_same_shape. }
  { by destruct Hs0 as [-> _]. }
  { by rewrite (same_shape_children _ _ _ Hs0). }
  assert (pnom ≠ subtree) as Hne.
  { intros ->. by apply (no_self_parent t subtree Hok Hsub),
      elem_of_children. }
  assert (is_artificial t1 subtree = true) as Hart1.
  { unfold is_artificial. rewrite Hmisc by done. unfold t0.
    by rewrite get_misc_set_deprel. }
  assert (get_parent t1 c = Some subtree) as Hpc1.
  { rewrite Hpc; [|by rewrite (same_shape_children _ _ _ Hs0)|done].
    rewrite decide_True; [done|]. unfold udeprel, t0.
    by rewrite deprel_set_deprel, decide_False. }
  assert (descendants t1 = descendants t) as HD1.
  { rewrite Hd1. by destruct Hs0 as [-> _]. }
  assert (c ∈ children t1 subtree) as Hc1.
  { apply elem_of_children. split; [|done]. rewrite HD1.
    by apply elem_of_children in Hc as [? _]. }
  unfold rewrite_copula in Hrun. rewrite Hf in Hrun. cbn zeta in Hrun.
  fold t0 in Hrun. rewrite H1, Ok_bind, Hart1 in Hrun.
  unfold remove in Hrun.
  rewrite bool_decide_eq_true_2 in Hrun by (by rewrite HD1).
  destruct (children t1 subtree) as [|c' cs'] eqn:Hch1;
    [by apply elem_of_nil in Hc1|].
  rewrite Ok_bind in Hrun. injection Hrun as <-. simpl.
  split; [|split]; [| |split; [|split]].
  - intros [Hx _]%list_elem_of_filter. unfold in_subtree in Hx.
    rewrite Hpc1 in Hx. cbn [climb] in Hx.
    rewrite (bool_decide_eq_true_2 (subtree = subtree)) in Hx by done.
    by rewrite orb_true_r in Hx.
  - intros [Hx _]%list_elem_of_filter. unfold in_subtree in Hx.
    by rewrite bool_decide_eq_true_2 in Hx.
  - exact Hpd.
  - exact Hpp.
  - rewrite Hl1. unfold t0. simpl. by rewrite <- app_assoc.
Qed.

(** "Caesar [0] consul i": an artificial copula with a predicate nominal
    and an orthographic continuation. *)
Definition consul_vestigium : Root :=
  sentence
    [ tok "Caesar" "PROPN" "n" "nsubj" [("original_dep", PStr "SBJ")] 2;
      tok "[0]" "AUX" "v" "root"
          [("original_dep", PStr "PRED_COP"); ("NodeType", PStr "Artificial")]
          0;
      tok "consul" "NOUN" "n" "xcomp" [("original_dep", PStr "PNOM")] 2;
      tok "i" "X" "-" "goeswith" [("original_dep", PStr "AuxY")] 2 ].

Lemma rewrite_copula_deletes_goeswith_child_witness :
  ∃ t', rewrite_copula 2 consul_vestigium = Ok t'
        ∧ (4 ∉ descendants t') ∧ (2 ∉ descendants t')
        ∧ 3 ∈ descendants t'
        ∧ get_parent t' 3 = get_parent consul_vestigium 2
        ∧ log t' = log consul_vestigium
                   ++ [(WARNING, UnexpectedChildren 2);
                       (INFO, RemovingNode 2)].
Proof.
  apply (rewrite_copula_deletes_goeswith_child 2 3 4 []).
  - apply tree_okb_ok. vm_compute. reflexivity.
  - by_compute.
  - vm_compute. reflexivity.
  - vm_compute. reflexivity.
  - by_compute.
  - done.
  - vm_compute. reflexivity.
Defined.

(** ** Splitting the records of the pre-pass *)

Fixpoint has_char (c : ascii) (s : string) : bool :=
  match s with
  | "" => false
  | String a s' => bool_decide (a = c) || has_char c s'
  end.

Lemma string_app_cons (x : ascii) (a b : string) :
  (String x a ++ b = String x (a ++ b))%string.
Proof. reflexivity. Qed.

Lemma string_app_nil_l (b : string) : ("" ++ b = b)%string.
Proof. reflexivity. Qed.

Lemma string_app_assoc (a b c : string) :
  ((a ++ b) ++ c = a ++ (b ++ c))%string.
Proof.
  induction a as [|x a IH]; [done|]. rewrite !string_app_cons. by f_equal.
Qed.

Lemma string_app_nil_r (a : string) : (a ++ "" = a)%string.
Proof.
  induction a as [|x a IH]; [done|]. rewrite string_app_cons. by f_equal.
Qed.

Lemma has_char_app c a b :
  has_char c (a ++ b) = has_char c a || has_char c b.
Proof.
  induction a as [|x a IH]; [done|]. rewrite string_app_cons. simpl.
  by rewrite IH, orb_assoc.
Qed.

Lemma rev_string_acc acc s :
  (rev_string acc s = rev_string "" s ++ acc)%string.
Proof.
  revert acc. induction s as [|a s IH]; intros acc; simpl; [done|].
  rewrite (IH (String a acc)), (IH (String a "")).
  by rewrite string_app_assoc, string_app_cons, string_app_nil_l.
Qed.

Lemma rev_string_rev cur d :
  (rev_string "" (rev_string cur d) = rev_string "" cur ++ d)%string.
Proof.
  revert cur. induction d as [|a d IH]; intros cur; simpl.
  - by rewrite string_app_nil_r.
  - rewrite IH. simpl. rewrite (rev_string_acc (String a "")).
    by rewrite string_app_assoc, string_app_cons, string_app_nil_l.
Qed.

Lemma is_prefix_app p r : is_prefix p (p ++ r) = true.
Proof.
  induction p as [|a p IH]; [by destruct r|].
  rewrite string_app_cons. simpl. by rewrite bool_decide_eq_true_2, IH.
Qed.

Section Split.
Variables (c : ascii) (sep' : string).
Let sep : string := String c sep'.

(** The characters of a matched separator are passed over. *)
Lemma split_go_skip u cur r :
  split_go sep (String.length u) cur (u ++ r) = split_go sep 0 cur r.
Proof.
  induction u as [|a u IH]; [done|]. rewrite string_app_cons. by simpl.
Qed.

(** Characters other than the first of the separator go to the current
    piece. *)
Lemma split_go_pass d cur r :
  has_char c d = false →
  split_go sep 0 cur (d ++ r) = split_go sep 0 (rev_string cur d) r.
Proof.
  revert cur. induction d as [|a d IH]; intros cur Hd; [done|].
  simpl in Hd. apply orb_false_iff in Hd as [Ha Hd].
  apply bool_decide_eq_false in Ha. rewrite string_app_cons.
  cbn [split_go rev_string]. unfold sep at 1. cbn [is_prefix]. rewrite (bool_decide_eq_false_2 (c = a)) by congruence.
  cbn [andb]. by apply IH.
Qed.

Lemma split_cons d r :
  has_char c d = false → split sep (d ++ sep ++ r) = d :: split sep r.
Proof.
  intros Hd. unfold split. rewrite (split_go_pass d "" _ Hd).
  assert (∀ cur, split_go sep 0 cur (sep ++ r)
                 = rev_string "" cur
                   :: split_go sep (String.length sep - 1) "" (sep' ++ r))
    as Hsep.
  { intros cur. unfold sep at 2. rewrite string_app_cons. cbn [split_go].
    change (String c (sep' ++ r)) with (sep ++ r)%string.
    by rewrite is_prefix_app. }
  rewrite Hsep, rev_string_rev. f_equal.
  assert (String.length sep - 1 = String.length sep') as ->
    by (unfold sep; simpl; lia).
  apply split_go_skip.
Qed.

Lemma split_single d : has_char c d = false → split sep d = [d].
Proof.
  intros Hd. unfold split. rewrite <- (string_app_nil_r d) at 1.
  rewrite (split_go_pass d "" "" Hd). cbn [split_go].
  by rewrite rev_string_rev.
Qed.

Lemma split_go_not_nil skip cur s : split_go sep skip cur s ≠ [].
Proof.
  revert skip cur. induction s as [|a s IH]; intros skip cur; [done|].
  cbn [split_go]. destruct skip; [|apply IH].
  destruct (is_prefix sep (String a s)); [done|apply IH].
Qed.

End Split.

(** A string with a colon splits at its first colon. *)
Lemma first_colon s :
  has_char ":" s = true →
  ∃ d r, s = (d ++ ":" ++ r)%string ∧ has_char ":" d = false.
Proof.
  induction s as [|a s IH]; [done|]. simpl.
  destruct (decide (a = ":"%char)) as [->|Ha].
  - intros _. by exists ""%string, s.
  - rewrite bool_decide_eq_false_2 by done. intros Hs.
    destruct (IH Hs) as (d & r & -> & Hd). exists (String a d), r.
    split; [done|]. simpl. by rewrite bool_decide_eq_false_2.
Qed.

(** The decimal numeral of a number is made of digits only. *)
Lemma has_char_uint c u :
  c ∉ ["0"; "1"; "2"; "3"; "4"; "5"; "6"; "7"; "8"; "9"]%char →
  has_char c (NilEmpty.string_of_uint u) = false.
Proof.
  intros Hc. induction u as [|u IH|u IH|u IH|u IH|u IH|u IH|u IH|u IH|u IH|u IH];
    [done|..]; cbn [NilEmpty.string_of_uint has_char]; rewrite IH;
    (rewrite bool_decide_eq_false_2; [done|]); intros <-; apply Hc; by_compute.
Qed.

Lemma str_of_nat_uint k :
  str_of_nat k = NilEmpty.string_of_uint (Nat.to_uint k) ∧ str_of_nat k ≠ "".
Proof.
  unfold str_of_nat, NilZero.string_of_uint.
  destruct (Nat.to_uint k) eqn:E; try done.
  pose proof (DecimalNat.Unsigned.of_to k) as Hk. rewrite E in Hk.
  subst k. done.
Qed.

Lemma has_char_str_of_nat c k :
  c ∉ ["0"; "1"; "2"; "3"; "4"; "5"; "6"; "7"; "8"; "9"]%char →
  has_char c (str_of_nat k) = false.
Proof.
  intros Hc. destruct (str_of_nat_uint k) as [-> _]. by apply has_char_uint.
Qed.

(** [int(str(k)) == k] *)
Lemma int_of_str_of_nat k : int_of_str (str_of_nat k) = Some k.
Proof.
  destruct (str_of_nat_uint k) as [E Hne]. unfold int_of_str.
  destruct (str_of_nat k) eqn:Hs; [done|]. rewrite E, NilEmpty.usu. simpl.
  by rewrite DecimalNat.Unsigned.of_to.
Qed.

Lemma str_of_nat_zero k : str_of_nat k = "0" ↔ k = 0.
Proof.
  split; [|by intros ->]. intros Hk.
  pose proof (int_of_str_of_nat k) as E. rewrite Hk in E.
  by injection E.
Qed.

(** The record [f'{k}%:%{rel}'] that the pre-pass writes. *)
Definition record (k : nat) (rel : string) : string :=
  str_of_nat k ++ "%:%" ++ rel.

Lemma record_truthy k rel : truthy (PStr (record k rel)) = true.
Proof.
  unfold truthy, record. rewrite bool_decide_eq_false_2; [done|].
  destruct (str_of_nat_uint k) as [_ Hne].
  destruct (str_of_nat k); [done|]. done.
Qed.

(** Split on ["%:%"], the record gives back the ordinal and the
    relation. *)
Lemma split_record_percent k rel :
  has_char "%" rel = false →
  split "%:%" (record k rel) = [str_of_nat k; rel].
Proof.
  intros Hrel. unfold record.
  rewrite (split_cons "%" ":%" (str_of_nat k) rel).
  - by rewrite (split_single "%" ":%" rel Hrel).
  - apply has_char_str_of_nat. by_compute.
Qed.

(** Split on [":"], it gives the ordinal followed by a percent sign, and
    after it at least the rest of the separator. *)
Lemma split_record_colon k rel :
  split ":" (record k rel)
  = (str_of_nat k ++ "%")%string :: split ":" ("%" ++ rel).
Proof.
  unfold record.
  change ("%:%" ++ rel)%string with ("%" ++ ":" ++ "%" ++ rel)%string.
  rewrite <- string_app_assoc.
  apply (split_cons ":" "" (str_of_nat k ++ "%")).
  rewrite has_char_app, has_char_str_of_nat; [done|by_compute].
Qed.

(** X13. The post-pass on a token whose [art_deps] is a record written by
    the pre-pass, that is the ordinal [k] of its parent, then "%:%", then
    its relation. The record is split on ":" and not on "%:%", so the
    head read from it is the ordinal followed by a percent sign. As long
    as that is not a key of the mapping (and the ordinals stamped on the
    artificial nodes are plain numerals), the token receives no secondary
    dependency: the post-pass leaves the sentence as it is when the
    relation has no colon, and fails with [ValueError] when it has one,
    as in a relation with a subtype. *)
Theorem resolve_node_reads_no_head
  (m : gmap string nat) (n k : nat) (rel : string) (t : Root) :
  get_misc t n "art_deps" = PStr (record k rel) →
  m !! (str_of_nat k ++ "%")%string = None →
  split ":" (record k rel)
  = (str_of_nat k ++ "%")%string :: split ":" ("%" ++ rel)
  ∧ resolve_node m n t
    = if has_char ":" rel then Raise ValueError else Ok t.
Proof.
  intros Hrec Hkey. split; [apply split_record_colon|].
  unfold resolve_node. rewrite Hrec, record_truthy, split_record_colon.
  destruct (has_char ":" rel) eqn:Hrel.
  - destruct (first_colon rel Hrel) as (d & r & -> & Hd).
    rewrite <- string_app_assoc.
    rewrite (split_cons ":" "" ("%" ++ d) r).
    2: { rewrite has_char_app, Hd. done. }
    pose proof (split_go_not_nil ":" "" 0 "" r) as Hne.
    unfold split at 1. by destruct (split_go _ 0 "" r).
  - rewrite (split_single ":" "" ("%" ++ rel)).
    2: { rewrite has_char_app, Hrel. done. }
    by rewrite Hkey.
Qed.

Lemma resolve_node_reads_no_head_witness :
  split ":" (record 7 "advmod") = ["7%"; "%advmod"]
  ∧ resolve_node (art_mapping_of (empty_nodes veniunt_enhanced)) 8
                 veniunt_enhanced
    = Ok veniunt_enhanced.
Proof.
  apply (resolve_node_reads_no_head
           (art_mapping_of (empty_nodes veniunt_enhanced)) 8 7 "advmod"
           veniunt_enhanced).
  - vm_compute. reflexivity.
  - vm_compute. reflexivity.
Defined.

(** X14. The post-pass on an empty node whose [art_deps] is a record of
    the pre-pass, the ordinal [k] then "%:%" then a relation without a
    percent sign. Split on "%:%", the record gives back the numeral of
    [k] and the relation, and the empty node receives one secondary
    dependency with that relation. Its governor is the empty node found
    under the numeral in the mapping; failing that the root when [k] is
    0, with a debug message; failing that the first token or empty node
    whose ordinal is now [k]. When there is none, as after a renumbering,
    the selection raises [IndexError]. *)
Theorem resolve_empty_decodes_record
  (m : gmap string nat) (i k : nat) (rel : string) (e : EmptyNode)
  (t : Root) :
  empty_nodes t !! i = Some e →
  misc_get (e_misc e) "art_deps" = PStr (record k rel) →
  has_char "%" rel = false →
  split "%:%" (record k rel) = [str_of_nat k; rel]
  ∧ int_of_str (str_of_nat k) = Some k
  ∧ resolve_empty m i t
    = match m !! str_of_nat k with
      | Some j => Ok (set_empty t i (append_empty_dep e (REmpty j) rel))
      | None =>
          if decide (k = 0)
          then Ok (set_empty (logging DEBUG (DepsRootZero i) t) i
                     (append_empty_dep e (RNode root_id) rel))
          else match nodes_with_ord t k with
               | [] => Raise IndexError
               | r :: _ => Ok (set_empty t i (append_empty_dep e r rel))
               end
      end.
Proof.
  intros He Hrec Hrel.
  split; [by apply split_record_percent|].
  split; [apply int_of_str_of_nat|].
  unfold resolve_empty.
  rewrite He, Hrec, record_truthy, split_record_percent by done.
  destruct (m !! str_of_nat k) as [j|]; [done|].
  destruct (decide (k = 0)) as [->|Hk].
  - by rewrite bool_decide_eq_true_2.
  - rewrite bool_decide_eq_false_2 by (by rewrite str_of_nat_zero).
    rewrite int_of_str_of_nat. by destruct (nodes_with_ord t k).
Qed.

(** "venit [0] [0]" after the pre-pass and the copy of both artificial
    nodes, and its first empty node. *)
Definition duo_recorded : Root :=
  or_else (t ← write_deps_in_misc duo ; copy_to_empty 1000 [2; 3] t) duo.

Definition duo_first_empty : EmptyNode :=
  default (mkEmpty 0 "" None None None None ∅ [])
          (empty_nodes duo_recorded !! 0).

Lemma resolve_empty_decodes_record_witness :
  resolve_empty ∅ 0 duo_recorded
  = Ok (set_empty duo_recorded 0
          (append_empty_dep duo_first_empty (RNode 1) "conj")).
Proof.
  destruct (resolve_empty_decodes_record ∅ 0 1 "conj" duo_first_empty
              duo_recorded) as (_ & _ & ->).
  - vm_compute. reflexivity.
  - vm_compute. reflexivity.
  - vm_compute. reflexivity.
  - vm_compute. reflexivity.
Defined.

(** ** The tokens in plain mode *)

(** [same_tokens t s]: the same tokens, and what [frame] keeps. *)
Definition same_tokens (t s : Root) : Prop :=
  descendants s = descendants t ∧ frame true member_keys t s.

Lemma same_tokens_refl t : same_tokens t t.
Proof. split; [done|apply frame_refl]. Qed.

Lemma same_tokens_trans t1 t2 t3 :
  same_tokens t1 t2 → same_tokens t2 t3 → same_tokens t1 t3.
Proof.
  intros [Hd1 Hf1] [Hd2 Hf2]. split; [congruence|by eapply frame_trans].
Qed.

Lemma same_tokens_artificial t s x :
  same_tokens t s → is_artificial s x = is_artificial t x.
Proof.
  intros [_ Hf]. unfold is_artificial.
  rewrite (frame_misc _ _ _ _ Hf); [done|]. by_compute.
Qed.

Lemma same_tokens_set_parent t n po t' :
  set_parent t n po = Ok t' → same_tokens t t'.
Proof.
  intros H. split; [by eapply set_parent_descendants|].
  by eapply frame_set_parent.
Qed.

Lemma same_tokens_set_deprel t n d : same_tokens t (set_deprel t n d).
Proof. split; [done|apply frame_set_deprel]. Qed.

Lemma same_tokens_logging lv m t : same_tokens t (logging lv m t).
Proof. split; [done|apply frame_logging]. Qed.

Lemma same_tokens_for_each {A} (body : A → Root → result Root) xs t t' :
  (∀ c s s', c ∈ xs → body c s = Ok s' → same_tokens s s') →
  for_each body xs t = Ok t' → same_tokens t t'.
Proof.
  intros Hbody. apply (for_each_inv (same_tokens t)); [|apply same_tokens_refl].
  intros c a b Hc Ha Hb. eapply same_tokens_trans; [done|]. by eapply Hbody.
Qed.

Lemma same_tokens_redraw_subtree new_head current_head t t' :
  redraw_subtree new_head current_head t = Ok t' → same_tokens t t'.
Proof.
  intros Hrun. split; [|by eapply frame_redraw_subtree].
  revert Hrun. unfold redraw_subtree.
  intros (t1 & H1 & (t2 & H2 & H3)%bind_Ok)%bind_Ok.
  apply set_parent_descendants in H1, H2. rewrite <- H1, <- H2.
  assert (∀ k s, descendants (pass_misc k current_head new_head s)
                 = descendants s) as Hpm.
  { intros k s. unfold pass_misc. by destruct (truthy _). }
  rewrite <- (Hpm "AposMember" t2).
  rewrite <- (Hpm "CoordMember" (pass_misc "AposMember" _ _ t2)).
  revert H3. apply (for_each_inv (λ s, descendants s = descendants _));
    [|done].
  intros c a b _ Ha. case_bool_decide; [|by intros [= <-]].
  intros Hb%set_parent_descendants. congruence.
Qed.

Lemma same_tokens_attach_right element attr val t t' :
  attach_right element attr val t = Ok t' → same_tokens t t'.
Proof.
  intros Hrun. split; [|by eapply frame_attach_right].
  revert Hrun. unfold attach_right. destruct (get_parent t element); [|done].
  rewrite attach_right_loop_find. destruct (filter _ _).
  - by intros [= <-].
  - apply set_parent_descendants.
Qed.

Section Tokens.
Variables (is_prague_bridge_subtree is_coord_subtree is_apos_subtree
           is_copula_subtree is_ellipsis_subtree : Root → nat → bool).
Variable get_subtree_depth : Root → list (nat * nat).
Variable recursion_limit : nat.

Lemma same_tokens_process_subtree subtree t t' :
  process_subtree is_prague_bridge_subtree is_coord_subtree is_apos_subtree
                  is_copula_subtree is_ellipsis_subtree subtree t = Ok t' →
  is_artificial t subtree = false → same_tokens t t'.
Proof.
  intros Hrun Hart. unfold process_subtree in Hrun.
  destruct (is_prague_bridge_subtree t subtree).
  { unfold rewrite_bridge in Hrun. apply bind_Ok in Hrun as (ch & _ & Hrun).
    destruct ch as [|newh [|? ?]];
      try (injection Hrun as <-; apply same_tokens_logging).
    by eapply same_tokens_redraw_subtree. }
  destruct (is_coord_subtree t subtree).
  { unfold rewrite_coord in Hrun. destruct (filter _ _) as [|first members].
    { injection Hrun as <-. apply same_tokens_logging. }
    apply bind_Ok in Hrun as (t1 & H1 & (t2 & H2 & (t3 & H3 & (t4 & H4 &
      (t5 & H5 & H6)%bind_Ok)%bind_Ok)%bind_Ok)%bind_Ok).
    assert (same_tokens t t4) as H04.
    { eapply same_tokens_trans; [by eapply same_tokens_set_parent|].
      eapply same_tokens_trans.
      { eapply same_tokens_for_each; [|exact H2].
        intros m s s' _ (s1 & Hs1 & [= <-])%bind_Ok.
        eapply same_tokens_trans; [by eapply same_tokens_set_parent|].
        apply same_tokens_set_deprel. }
      eapply same_tokens_trans; [by eapply same_tokens_set_parent|].
      eapply same_tokens_for_each; [|exact H4].
      intros c s s' _ (s1 & Hs1 & [= <-])%bind_Ok.
      eapply same_tokens_trans; [by eapply same_tokens_set_parent|].
      destruct (_ && _); [apply same_tokens_set_deprel|apply same_tokens_refl]. }
    rewrite (same_tokens_artificial _ _ _ H04), Hart in H5.
    injection H5 as <-. eapply same_tokens_trans; [done|].
    eapply same_tokens_for_each; [|exact H6]. intros c s s' _. cbv beta.
    destruct (_ && _); [apply same_tokens_attach_right|].
    intros [= <-]. apply same_tokens_refl. }
  destruct (is_apos_subtree t subtree).
  { unfold rewrite_apos in Hrun. destruct (filter _ _) as [|first members].
    { injection Hrun as <-. apply same_tokens_logging. }
    apply bind_Ok in Hrun as (t1 & H1 & (t2 & H2 & (t3 & H3 & H4)%bind_Ok
      )%bind_Ok).
    assert (same_tokens t t3) as H03.
    { eapply same_tokens_trans; [by eapply same_tokens_set_parent|].
      eapply same_tokens_trans.
      { eapply same_tokens_for_each; [|exact H2].
        intros m s s' _ (s1 & Hs1 & [= <-])%bind_Ok.
        eapply same_tokens_trans; [by eapply same_tokens_set_parent|].
        apply same_tokens_set_deprel. }
      eapply same_tokens_for_each; [|exact H3].
      intros c s s' _. apply same_tokens_set_parent. }
    rewrite (same_tokens_artificial _ _ _ H03), Hart in H4.
    apply bind_Ok in H4 as (t4 & H4 & [= <-]).
    eapply same_tokens_trans; [done|].
    eapply same_tokens_trans; [by eapply same_tokens_set_parent|].
    apply same_tokens_set_deprel. }
  destruct (is_copula_subtree t subtree).
  { unfold rewrite_copula in Hrun. destruct (filter _ _) as [|pnom ?].
    { injection Hrun as <-. apply same_tokens_logging. }
    apply bind_Ok in Hrun as (t1 & H1 & H2).
    assert (same_tokens t t1) as H01.
    { eapply same_tokens_trans; [apply same_tokens_set_deprel|].
      by eapply same_tokens_redraw_subtree. }
    rewrite (same_tokens_artificial _ _ _ H01), Hart in H2.
    apply bind_Ok in H2 as (t2 & H2 & [= <-]).
    eapply same_tokens_trans; [done|].
    eapply same_tokens_trans; [by eapply same_tokens_set_parent|].
    apply same_tokens_set_deprel. }
  destruct (is_ellipsis_subtree t subtree).
  { unfold rewrite_ellipsis in Hrun.
    destruct (get_first_in_priority _ _ _).
    - eapply same_tokens_trans; [apply same_tokens_set_deprel|].
      by eapply same_tokens_redraw_subtree.
    - injection Hrun as <-. apply same_tokens_logging. }
  injection Hrun as <-. apply same_tokens_refl.
Qed.

End Tokens.

(** X15. In plain mode, when no scheduled subtree root is artificial, a
    run of [process_tree] that returns deletes no token: the tokens of
    the sentence and their word order are the same before and after. A
    token only ever disappears together with an artificial subtree
    root. *)
Theorem plain_mode_keeps_the_tokens
  (is_prague_bridge_subtree is_coord_subtree is_apos_subtree
   is_copula_subtree is_ellipsis_subtree : Root → nat → bool)
  (get_subtree_depth : Root → list (nat * nat)) (recursion_limit : nat)
  (t t' : Root) :
  process_tree is_prague_bridge_subtree is_coord_subtree is_apos_subtree
               is_copula_subtree is_ellipsis_subtree get_subtree_depth
               recursion_limit false t = Ok t' →
  (∀ sd, sd ∈ get_subtree_depth t → is_artificial t sd.1 = false) →
  descendants t' = descendants t
  ∧ ∀ x, ord t' x = ord t x.
Proof.
  intros Hrun Hart. unfold process_tree in Hrun. rewrite Ok_bind in Hrun.
  apply bind_Ok in Hrun as (t2 & H2 & [= <-]).
  assert (same_tokens t t2) as [Hd _].
  { revert H2. apply (for_each_inv (same_tokens t)); [|apply same_tokens_refl].
    intros sd a b Hsd Ha Hb. eapply same_tokens_trans; [done|].
    eapply same_tokens_process_subtree; [done|].
    rewrite (same_tokens_artificial _ _ _ Ha). by apply Hart. }
  split; [done|]. intros x. unfold ord. by rewrite Hd.
Qed.

Lemma plain_mode_keeps_the_tokens_witness :
  descendants (or_else (run_with [(2, 1)] false inter_urbem) inter_urbem)
  = descendants inter_urbem
  ∧ ∀ x, ord (or_else (run_with [(2, 1)] false inter_urbem) inter_urbem) x
         = ord inter_urbem x.
Proof.
  apply (plain_mode_keeps_the_tokens
           (original_dep_is "AuxP") (original_dep_is "COORD")
           (original_dep_is "APOS") (original_dep_is "PRED_COP")
           (original_dep_is "ExD_HEAD") (λ _, [(2, 1)]) 1000).
  - vm_compute. reflexivity.
  - intros sd Hsd. apply list_elem_of_singleton in Hsd as ->.
    vm_compute. reflexivity.
Defined.

(** ** What the empty nodes are copies of *)

(** [copy_of t a e]: the empty node [e] carries the columns of the token
    [a] of [t], an empty column being left out, the five entries of
    [misc] that are carried over, a form made of an ordinal, and no
    secondary dependency. *)
Definition copy_of (t : Root) (a : nat) (e : EmptyNode) : Prop :=
  (∃ q, e_form e = ("E" ++ str_of_float q)%string)
  ∧ e_lemma e = or_none (lemma (node t a))
  ∧ e_upos e = or_none (upos (node t a))
  ∧ e_xpos e = or_none (xpos (node t a))
  ∧ e_feats e = or_none (feats (node t a))
  ∧ e_misc e = empty_misc (misc (node t a))
  ∧ e_deps e = [].

Lemma e_form_lower_empty s gone e :
  e_form (lower_empty s gone e) = e_form e.
Proof. unfold lower_empty. by destruct (List.length _). Qed.

Lemma creating_lower_empty s gone (es : list EmptyNode) :
  map (λ e, (DEBUG, CreatingEmpty (e_form e))) (lower_empty s gone <$> es)
  = map (λ e, (DEBUG, CreatingEmpty (e_form e))) es.
Proof.
  induction es as [|e es IH]; [done|].
  rewrite fmap_cons. cbn [map]. by rewrite IH, e_form_lower_empty.
Qed.

Lemma copy_of_lower_empty t a s gone e :
  copy_of t a e → copy_of t a (lower_empty s gone e).
Proof. unfold lower_empty. by destruct (List.length _). Qed.

Lemma unnumbered_misc (l1 l2 : list EmptyNode) :
  unnumbered <$> l1 = unnumbered <$> l2 → e_misc <$> l1 = e_misc <$> l2.
Proof.
  intros E. apply (f_equal (fmap e_misc)) in E.
  by rewrite <- !list_fmap_compose in E.
Qed.

(** What the loop of [copy_to_empty] appends; the tokens keep their
    columns throughout. *)
Lemma copy_to_empty_copies
  (recursion_limit : nat) (arts : list nat) (t t' : Root) :
  copy_to_empty recursion_limit arts t = Ok t' →
  same_labels t t'
  ∧ ∃ old es, empty_nodes t' = old ++ es
          ∧ unnumbered <$> old = unnumbered <$> empty_nodes t
          ∧ Forall2 (copy_of t) arts es
          ∧ log t' = log t
                     ++ map (λ e, (DEBUG, CreatingEmpty (e_form e))) es.
Proof.
  unfold copy_to_empty. apply (for_each_hist (λ done s,
    same_labels t s
    ∧ ∃ old es, empty_nodes s = old ++ es
            ∧ unnumbered <$> old = unnumbered <$> empty_nodes t
            ∧ Forall2 (copy_of t) done es
            ∧ log s = log t
                      ++ map (λ e, (DEBUG, CreatingEmpty (e_form e))) es)).
  - split; [apply same_labels_refl|]. exists (empty_nodes t), [].
    rewrite !app_nil_r. by repeat split.
  - intros done c rest a b _ (Hlab & old & es & He & Hold & Hes & Hl) Hb.
    unfold copy_one in Hb. apply bind_Ok in Hb as (ord_id & _ & Hrm).
    apply remove_rehang_Ok in Hrm as (_ & _ & He' & Hl' & _ & Hlab').
    split.
    { eapply same_labels_trans; [done|]. intros x. by rewrite (Hlab' x). }
    cbn [empty_nodes log logging create_empty_child] in He', Hl'.
    rewrite He, !fmap_app in He'. cbn [fmap list_fmap] in He'.
    eexists _, (_ ++ [_]). split; [by rewrite He', <- app_assoc|].
    split; [by rewrite unnumbered_lower_empties|].
    split.
    + apply Forall2_app.
      * clear -Hes. induction Hes as [|x e l1 l2 Hx _ IH]; [constructor|].
        rewrite fmap_cons. constructor; [|done].
        by apply copy_of_lower_empty.
      * constructor; [|constructor]. apply copy_of_lower_empty.
        pose proof (Hlab c) as E.
        pose proof (f_equal lemma E) as E1. pose proof (f_equal upos E) as E2.
        pose proof (f_equal xpos E) as E3. pose proof (f_equal feats E) as E4.
        pose proof (f_equal misc E) as E5. simpl in E1, E2, E3, E4, E5.
        unfold copy_of. simpl. rewrite E1, E2, E3, E4, E5.
        split; [by eexists|done].
    + rewrite Hl', Hl, map_app, <- !app_assoc. do 2 f_equal.
      * by rewrite creating_lower_empty.
      * cbn [map]. by rewrite e_form_lower_empty.
Qed.




(** ** The ordinals stamped on the artificial nodes *)

(** The stamping loop of the pre-pass. *)
Definition stamp_original_ord (arts : list nat) (t : Root) : Root :=
  foldl (λ t a, set_misc t a "original_ord" (PStr (str_of_nat (ord t a))))
        t arts.

Lemma stamp_original_ord_other arts t x k :
  x ∉ arts →
  get_misc (stamp_original_ord arts t) x k = get_misc t x k.
Proof.
  revert t. induction arts as [|a arts IH]; intros t Hx; [done|].
  apply not_elem_of_cons in Hx as [Hxa Hx].
  unfold stamp_original_ord in *. cbn [foldl]. rewrite IH by done.
  by apply get_misc_set_misc_ne.
Qed.

Lemma stamp_original_ord_stamped arts t x :
  x ∈ arts →
  get_misc (stamp_original_ord arts t) x "original_ord"
  = PStr (str_of_nat (ord t x)).
Proof.
  revert t. induction arts as [|a arts IH]; intros t Hx;
    [by apply elem_of_nil in Hx|].
  destruct (decide (x ∈ arts)) as [Hin|Hout].
  - unfold stamp_original_ord in *. cbn [foldl]. rewrite IH by done.
    by rewrite (same_shape_ord _ _ _ (same_shape_set_misc t a _ _)).
  - apply elem_of_cons in Hx as [->|?]; [|done].
    pose proof (stamp_original_ord_other arts
      (set_misc t a "original_ord" (PStr (str_of_nat (ord t a)))) a
      "original_ord" Hout) as E.
    unfold stamp_original_ord in *. cbn [foldl].
    rewrite E, get_misc_set_misc. by rewrite decide_True.
Qed.

Lemma sublist_filter_mono {A} (P : A → Prop) `{!∀ x, Decision (P x)}
  (l1 l2 : list A) :
  l1 `sublist_of` l2 → filter P l1 `sublist_of` filter P l2.
Proof.
  induction 1 as [|x l1 l2 _ IH|x l1 l2 _ IH]; [done| |].
  - rewrite !filter_cons. destruct (decide (P x)); [by constructor|done].
  - rewrite filter_cons. destruct (decide (P x)); [by constructor|done].
Qed.

Lemma resolve_empty_misc m i t t' :
  resolve_empty m i t = Ok t' →
  e_misc <$> empty_nodes t' = e_misc <$> empty_nodes t.
Proof.
  unfold resolve_empty. destruct (empty_nodes t !! i) as [e|] eqn:He; [|done].
  destruct (misc_get _ _) as [s|[]]; try done.
  2: { by intros [= <-]. }
  destruct (truthy _); [|by intros [= <-]].
  destruct (split _ _) as [|dep [|rel [|]]]; try done.
  intros (ep & Hep & [= <-])%bind_Ok. simpl.
  assert (empty_nodes ep.2 = empty_nodes t) as ->.
  { destruct (m !! dep); [by injection Hep as <-|].
    case_bool_decide; [by injection Hep as <-|].
    destruct (int_of_str dep); [|done].
    destruct (nodes_with_ord t _); [done|]. by injection Hep as <-. }
  rewrite list_fmap_insert. apply list_insert_id.
  by rewrite list_lookup_fmap, He.
Qed.

(** The key under which the post-pass files an empty node. *)
Definition empty_key (e : EmptyNode) : string :=
  py_str (misc_get (e_misc e) "original_ord").

Lemma fold_keys_other (l : list (nat * EmptyNode)) (m : gmap string nat) k :
  k ∉ (λ ie, empty_key ie.2) <$> l →
  foldl (λ m ie, <[empty_key ie.2 := ie.1]> m) m l !! k = m !! k.
Proof.
  revert m. induction l as [|x l IH]; intros m Hk; [done|].
  rewrite fmap_cons in Hk. apply not_elem_of_cons in Hk as [Hkx Hk].
  cbn [foldl]. rewrite IH by done. by rewrite lookup_insert_ne.
Qed.

Lemma fold_keys_lookup (l : list (nat * EmptyNode)) (m : gmap string nat)
  i e :
  NoDup ((λ ie, empty_key ie.2) <$> l) → (i, e) ∈ l →
  foldl (λ m ie, <[empty_key ie.2 := ie.1]> m) m l !! empty_key e = Some i.
Proof.
  revert m. induction l as [|x l IH]; intros m Hnd Hin;
    [by apply elem_of_nil in Hin|].
  rewrite fmap_cons in Hnd. apply NoDup_cons in Hnd as [Hx Hnd].
  cbn [foldl]. apply elem_of_cons in Hin as [<-|Hin]; [|by apply IH].
  rewrite fold_keys_other by done. by rewrite lookup_insert_eq.
Qed.

(** With distinct keys, the mapping finds every empty node under its
    key. *)
Lemma art_mapping_of_lookup es i e :
  NoDup (empty_key <$> es) → es !! i = Some e →
  art_mapping_of es !! empty_key e = Some i.
Proof.
  intros Hnd He. unfold art_mapping_of.
  apply (fold_keys_lookup (imap pair es) ∅ i e).
  - rewrite fmap_imap.
    rewrite (imap_ext _ (const empty_key)) by done.
    by rewrite imap_const.
  - by apply (elem_of_lookup_imap_2 pair es e i).
Qed.

Lemma position_inj a b l i :
  position a l = Some i → position b l = Some i → a = b.
Proof.
  revert i. induction l as [|x l IH]; intros i; [done|]. simpl.
  case_bool_decide as Ha; case_bool_decide as Hb.
  - congruence.
  - intros [= <-]. by destruct (position b l).
  - destruct (position a l); [|done]. by intros [= <-].
  - destruct (position a l) as [j|] eqn:Ea; [|done].
    destruct (position b l) as [j'|] eqn:Eb; [|done].
    simpl. intros [= <-] [= ->]. by apply (IH j).
Qed.

Lemma ord_inj t a b :
  a ∈ descendants t → b ∈ descendants t → ord t a = ord t b → a = b.
Proof.
  intros Ha Hb. unfold ord.
  destruct (position_elem a _ Ha) as (i & Hi & _).
  destruct (position_elem b _ Hb) as (j & Hj & _).
  rewrite Hi, Hj. intros [= ->]. by eapply position_inj.
Qed.

Lemma str_of_nat_inj a b : str_of_nat a = str_of_nat b → a = b.
Proof.
  intros E. pose proof (int_of_str_of_nat a) as Ea.
  rewrite E, int_of_str_of_nat in Ea. by injection Ea.
Qed.

(** X17. In enhanced mode, the pre-pass stamps on every artificial token
    the numeral of its ordinal in the input sentence; the rewriting does
    not touch that stamp, and the copy carries it over. So, in the
    sentence [process_tree] returns, the empty nodes are those of the
    input followed by new ones, and the new ones bear in [original_ord],
    in word order, the numerals of the input ordinals of artificial
    tokens of the input: ordinals from before any removal and
    renumbering. When moreover the input has no repeated token and no
    empty node, the mapping of the post-pass sends each of these
    numerals to the empty node that bears it. *)
Theorem empty_nodes_bear_input_ordinals
  (is_prague_bridge_subtree is_coord_subtree is_apos_subtree
   is_copula_subtree is_ellipsis_subtree : Root → nat → bool)
  (get_subtree_depth : Root → list (nat * nat)) (recursion_limit : nat)
  (t t' : Root) :
  process_tree is_prague_bridge_subtree is_coord_subtree is_apos_subtree
               is_copula_subtree is_ellipsis_subtree get_subtree_depth
               recursion_limit true t = Ok t' →
  ∃ arts ms,
    e_misc <$> empty_nodes t' = (e_misc <$> empty_nodes t) ++ ms
    ∧ arts `sublist_of`
        filter (λ n, is_artificial t n = true) (descendants t)
    ∧ Forall2 (λ a m, misc_get m "original_ord"
                      = PStr (str_of_nat (ord t a))) arts ms
    ∧ (NoDup (descendants t) → empty_nodes t = [] →
       ∀ i a, arts !! i = Some a →
              art_mapping_of (empty_nodes t') !! str_of_nat (ord t a)
              = Some i).
Proof.
  intros Hrun. unfold process_tree in Hrun.
  apply bind_Ok in Hrun as (t1 & H1 & (t2 & H2 & H3)%bind_Ok).
  apply bind_Ok in H1 as (t0 & H0 & [= <-]).
  set (arts := filter (λ n, is_artificial t n = true) (descendants t)) in *.
  fold (stamp_original_ord arts t0) in H2.
  pose proof (write_deps_in_misc_same_shape _ _ H0) as Hs0.
  pose proof (frame_write_deps_in_misc _ _ H0) as Hf0.
  pose proof (stamp_original_ord_same_shape arts t0) as Hs1.
  fold (stamp_original_ord arts t0) in Hs1.
  pose proof (frame_stamp_original_ord arts t0) as Hfs.
  fold (stamp_original_ord arts t0) in Hfs.
  assert (frame true member_keys (stamp_original_ord arts t0) t2) as Hf2.
  { eapply frame_for_each; [|exact H2]. intros sd s s' _.
    by apply frame_process_subtree. }
  assert (∀ a, a ∈ arts →
            get_misc t2 a "original_ord" = PStr (str_of_nat (ord t a)))
    as Hstamp.
  { intros a Ha. rewrite (frame_misc _ _ _ _ Hf2) by by_compute.
    rewrite stamp_original_ord_stamped by done.
    by rewrite (same_shape_ord _ _ _ Hs0). }
  assert (∀ x, is_artificial t2 x = is_artificial t x) as Hart.
  { intros x. unfold is_artificial.
    rewrite (frame_misc _ _ _ _ Hf2) by by_compute.
    rewrite (frame_misc _ _ _ _ Hfs) by by_compute.
    by rewrite (frame_misc _ _ _ _ Hf0) by by_compute. }
  assert (descendants t2 `sublist_of` descendants t) as Hsub.
  { pose proof (frame_tokens _ _ _ _ Hf2) as Hsub.
    destruct Hs1 as [Hd1 _]. destruct Hs0 as [Hd0 _].
    by rewrite Hd1, Hd0 in Hsub. }
  assert (unnumbered <$> empty_nodes t2 = unnumbered <$> empty_nodes t)
    as He2.
  { rewrite (frame_empty _ _ _ _ Hf2) by done.
    rewrite (frame_empty _ _ _ _ Hfs) by done.
    by rewrite (frame_empty _ _ _ _ Hf0). }
  unfold resolve in H3. apply bind_Ok in H3 as (t3 & Hcopy & H3).
  remember (filter (λ n, is_artificial t2 n = true) (descendants t2))
    as remaining eqn:Hremaining.
  assert (remaining `sublist_of` arts) as Hrem.
  { rewrite Hremaining. unfold arts.
    rewrite (filter_ext_elem (λ n, is_artificial t2 n = true)
               (λ n, is_artificial t n = true)) by (intros; by rewrite Hart).
    by apply sublist_filter_mono. }
  destruct (copy_to_empty_copies _ _ _ _ Hcopy)
    as (_ & old & es & He3 & Hold & Hcopies & _).
  assert (e_misc <$> empty_nodes t3
          = (e_misc <$> empty_nodes t) ++ (e_misc <$> es)) as Hm3.
  { rewrite He3, fmap_app. f_equal. apply unnumbered_misc. congruence. }
  exists remaining, (e_misc <$> es).
  assert (e_misc <$> empty_nodes t' = e_misc <$> empty_nodes t3) as Hm'.
  { clear Hremaining. destruct remaining as [|r0 rs];
      [by injection H3 as <-|].
    apply bind_Ok in H3 as (t4 & H4 & H5).
    transitivity (e_misc <$> empty_nodes t4).
    - f_equal. revert H5.
      apply (for_each_inv (λ s, empty_nodes s = empty_nodes t4)); [|done].
      intros n a b _ Ha Hb%resolve_node_empty_nodes. congruence.
    - revert H4.
      apply (for_each_inv (λ s, e_misc <$> empty_nodes s
                                = e_misc <$> empty_nodes t3)); [|done].
      intros i a b _ Ha Hb%resolve_empty_misc. congruence. }
  assert (∀ a, a ∈ remaining → a ∈ arts) as Hin.
  { intros a Ha. by apply (sublist_subseteq _ _ Hrem). }
  assert (Forall2 (λ a m, misc_get m "original_ord"
                          = PStr (str_of_nat (ord t a)))
                  remaining (e_misc <$> es)) as Hall.
  { apply Forall2_fmap_r.
    clear -Hcopies Hstamp Hin. induction Hcopies as [|a e l1 l2 Hc _ IH];
      [constructor|].
    constructor.
    - change (misc_get (e_misc e) "original_ord"
              = PStr (str_of_nat (ord t a))).
      destruct Hc as (_ & _ & _ & _ & _ & -> & _). unfold empty_misc.
      rewrite misc_get_set, decide_True by done.
      fold (get_misc t2 a "original_ord"). rewrite Hstamp; [done|].
      apply Hin. left.
    - apply IH. intros x Hx. apply Hin. by right. }
  rewrite Hm', Hm3.
  split; [done|]. split; [done|]. split; [done|].
  intros Hnd Hnone i a Hia.
  assert (empty_key <$> empty_nodes t'
          = (λ a, str_of_nat (ord t a)) <$> remaining) as Hkeys.
  { transitivity ((λ m, py_str (misc_get m "original_ord"))
                    <$> (e_misc <$> empty_nodes t')).
    { by rewrite <- list_fmap_compose. }
    rewrite Hm', Hm3, Hnone, fmap_nil, app_nil_l.
    clear -Hall. induction Hall as [|a m l1 l2 Hm _ IH]; [done|].
    rewrite !fmap_cons, IH. by rewrite Hm. }
  assert (NoDup (empty_key <$> empty_nodes t')) as Hndk.
  { rewrite Hkeys. apply NoDup_fmap_2_strong.
    - intros x y Hx Hy Hxy%str_of_nat_inj.
      apply (ord_inj t); [| |done].
      + apply Hin in Hx. unfold arts in Hx.
        by apply list_elem_of_filter in Hx as [_ ?].
      + apply Hin in Hy. unfold arts in Hy.
        by apply list_elem_of_filter in Hy as [_ ?].
    - apply (sublist_NoDup remaining arts); [|done]. by apply NoDup_filter. }
  assert (∃ e, empty_nodes t' !! i = Some e
               ∧ empty_key e = str_of_nat (ord t a)) as (e & He & Hke).
  { assert ((empty_key <$> empty_nodes t') !! i
            = Some (str_of_nat (ord t a))) as Hl.
    { by rewrite Hkeys, list_lookup_fmap, Hia. }
    rewrite list_lookup_fmap in Hl.
    destruct (empty_nodes t' !! i) as [e|]; [|done].
    exists e. split; [done|]. by injection Hl. }
  rewrite <- Hke. by apply art_mapping_of_lookup.
Qed.

Lemma empty_nodes_bear_input_ordinals_witness :
  ∃ arts ms,
    e_misc <$> empty_nodes veniunt_enhanced
    = (e_misc <$> empty_nodes veniunt) ++ ms
    ∧ arts `sublist_of`
        filter (λ n, is_artificial veniunt n = true) (descendants veniunt)
    ∧ Forall2 (λ a m, misc_get m "original_ord"
                      = PStr (str_of_nat (ord veniunt a))) arts ms
    ∧ (NoDup (descendants veniunt) → empty_nodes veniunt = [] →
       ∀ i a, arts !! i = Some a →
              art_mapping_of (empty_nodes veniunt_enhanced)
                !! str_of_nat (ord veniunt a)
              = Some i).
Proof.
  apply (empty_nodes_bear_input_ordinals
           (original_dep_is "AuxP") (original_dep_is "COORD")
           (original_dep_is "APOS") (original_dep_is "PRED_COP")
           (original_dep_is "ExD_HEAD") (λ _, veniunt_schedule) 1000).
  vm_compute. reflexivity.
Defined.

(** ** Plain mode runs to completion *)

Lemma frame_xpos plain K t t' x :
  frame plain K t t' → xpos (node t' x) = xpos (node t x).
Proof.
  intros Hf. pose proof (frame_word _ _ _ _ Hf x) as Hw.
  unfold word in Hw. by injection Hw.
Qed.

(** X18. In plain mode, on a well-formed sentence in which every
    scheduled subtree root is a token that is not artificial, and every
    token that is not artificial has a non-empty fine-grained tag,
    [process_tree] returns: no branch raises. The sentence it returns is
    again a tree, over the same tokens in the same order. *)
Theorem plain_mode_runs_to_completion
  (is_prague_bridge_subtree is_coord_subtree is_apos_subtree
   is_copula_subtree is_ellipsis_subtree : Root → nat → bool)
  (get_subtree_depth : Root → list (nat * nat)) (recursion_limit : nat)
  (t : Root) :
  tree_ok t →
  (∀ sd, sd ∈ get_subtree_depth t →
         sd.1 ∈ descendants t ∧ is_artificial t sd.1 = false) →
  (∀ x, x ∈ descendants t → is_artificial t x = false →
        xpos (node t x) ≠ "") →
  ∃ t', process_tree is_prague_bridge_subtree is_coord_subtree
          is_apos_subtree is_copula_subtree is_ellipsis_subtree
          get_subtree_depth recursion_limit false t = Ok t'
        ∧ tree_ok t' ∧ descendants t' = descendants t.
Proof.
  intros Hok Hsched Htags. unfold process_tree. rewrite Ok_bind.
  destruct (for_each_total (λ _ s, tree_ok s ∧ same_tokens t s)
              (λ sd s, process_subtree is_prague_bridge_subtree
                         is_coord_subtree is_apos_subtree is_copula_subtree
                         is_ellipsis_subtree sd.1 s)
              (get_subtree_depth t) t) as (t' & Hrun & Hok' & Hd' & _).
  { split; [done|apply same_tokens_refl]. }
  { intros done sd s [Hoks Hst] Hsd. destruct (Hsched sd Hsd) as [Hin Hart].
    pose proof Hst as [Hds Hfs].
    assert (is_artificial s sd.1 = false) as Harts
      by (by rewrite (same_tokens_artificial _ _ _ Hst)).
    destruct (process_subtree_runs is_prague_bridge_subtree is_coord_subtree
                is_apos_subtree is_copula_subtree is_ellipsis_subtree
                sd.1 s Hoks) as [(s' & Hs')|(_ & _ & c & Hc & Hca & Hcx)].
    { by rewrite Hds. }
    - exists s'. split; [done|]. split.
      + by eapply process_subtree_tree_ok.
      + eapply same_tokens_trans; [done|].
        by eapply same_tokens_process_subtree.
    - destruct (Htags c).
      + apply elem_of_children in Hc as [Hc _]. by rewrite <- Hds.
      + by rewrite <- (same_tokens_artificial _ _ _ Hst).
      + by rewrite <- (frame_xpos _ _ _ _ c Hfs). }
  exists t'. rewrite Hrun, Ok_bind. done.
Qed.

Lemma plain_mode_runs_to_completion_witness :
  ∃ t', run_with [(2, 1)] false inter_urbem = Ok t'
        ∧ tree_ok t' ∧ descendants t' = descendants inter_urbem.
Proof.
  apply (plain_mode_runs_to_completion
           (original_dep_is "AuxP") (original_dep_is "COORD")
           (original_dep_is "APOS") (original_dep_is "PRED_COP")
           (original_dep_is "ExD_HEAD") (λ _, [(2, 1)]) 1000).
  - apply tree_okb_ok. vm_compute. reflexivity.
  - intros sd Hsd. apply list_elem_of_singleton in Hsd as ->.
    split; [by_compute|vm_compute; reflexivity].
  - intros x Hx _. apply list_elem_of_In in Hx. simpl in Hx.
    destruct Hx as [<-|[<-|[<-|[<-|[<-|[]]]]]]; vm_compute; discriminate.
Defined.
